(** * JShell: the tokenizer and the execution engine of [jshell.c]

    A shallow embedding of [jshell.c] (JShell, expanded upon LSH).  Pure
    code ([is_delimiter], the scan of [split_line], the array filling of
    [jshell_pipe]) is written as functions; code that talks to the operating
    system ([raise_error], the builtins, [jshell_run], [jshell_exec_pipe],
    [jshell_exec]) is written in a small monad over the state of one
    process: its descriptor table, the trace of the calls it has made, and
    the answers the operating system will give it. *)

From stdpp Require Import gmap strings list.
From Stdlib Require Import ZArith Ascii.
From Stdlib Require String.

Local Open Scope Z_scope.
Local Open Scope nat_scope.

(** ** Constants of the source *)

Definition MAX_WORD_SIZE : nat := 100.

Definition JSHELL_PIPE : string := "|".
Definition JSHELL_EXIT_CODE : Z := 27.
Definition JSHELL_SUCCESS : Z := 0.
Definition JSHELL_FAILED : Z := 1.

(** [EXIT_FAILURE] of <stdlib.h>. *)
Definition EXIT_FAILURE : Z := 1.

(** The execution status as the loop of [jshell_loop] reads it: the loop
    runs again unless the code is [JSHELL_EXIT_CODE]. *)
Definition CONTINUE : Z := JSHELL_SUCCESS.
Definition EXIT : Z := JSHELL_EXIT_CODE.
Definition FAILED : Z := JSHELL_FAILED.

(** ** Characters *)

Definition NUL : ascii := "000"%char.
Definition DQUOTE : ascii := "034"%char.
Definition PIPE_CHAR : ascii := "|"%char.

(** [is_delimiter]: space, '\t', '\r', '\n', '\a'.  The C function returns
    the int 1 or 0; every caller only tests it. *)
Definition is_delimiter (c : ascii) : bool :=
  Ascii.eqb c " " || Ascii.eqb c "009" || Ascii.eqb c "013"
  || Ascii.eqb c "010" || Ascii.eqb c "007".

(** ** Parsing: [split_line] *)

(** A call of [raise_error message] that the pure part of a function
    reaches; [raise_error] itself (the diagnostic and [exit]) is defined
    with the process monad below. *)
Inductive res (A : Type) : Type :=
| Val (a : A)
| Raise (message : string).
Arguments Val {A} a.
Arguments Raise {A} message.

(** The local variables of [split_line].  [token] holds the characters
    stored so far at [token[0..j-1]], so [j] is its length; [tokens] holds
    [tokens[0..current_token-1]] as a list that grows by one per token: the
    capacity of the array ([buffer_size], [realloc]) and its final NULL
    are not represented, and [malloc] is taken to succeed.  [stores] is a
    ghost log of the index of every
    store into the [MAX_WORD_SIZE]-byte block [token]; the block itself is
    modelled by its contents, without a bound.  The size of the block, the
    range of the [int] variables and the failure of [malloc] come with
    [split_line_checked] below. *)
Record split_state : Type := SplitState {
  tokens : list string;
  token : string;
  in_quotes : bool;
  stores : list nat
}.

Definition current_token (st : split_state) : nat := length (tokens st).
Definition j (st : split_state) : nat := String.length (token st).

Definition split_init : split_state :=
  {| tokens := []; token := ""; in_quotes := false; stores := [] |}.

Definition set_in_quotes (b : bool) (st : split_state) : split_state :=
  {| tokens := tokens st; token := token st; in_quotes := b;
     stores := stores st |}.

(** [token[j] = line[i]; j++;] *)
Definition store_char (c : ascii) (st : split_state) : split_state :=
  {| tokens := tokens st; token := token st +:+ String c "";
     in_quotes := in_quotes st; stores := stores st ++ [j st] |}.

(** The block at the label [End_token], up to the test of [line[i]] that
    decides between [break] and the next iteration: with [j] zero nothing
    changes; otherwise [token[j] = 0], the token goes to
    [tokens[current_token]] and a fresh block is started with [j = 0]. *)
Definition end_token (st : split_state) : split_state :=
  if j st =? 0 then st
  else
    {| tokens := tokens st ++ [token st]; token := "";
       in_quotes := in_quotes st; stores := stores st ++ [j st] |}.

(** How the [for] loop of [split_line] ends: by [break], or inside
    [raise_error]; both with the state reached. *)
Inductive scan_result : Type :=
| ScanEnd (st : split_state)
| ScanError (message : string) (st : split_state).

(** [line[i+1]] when [rest] is what follows [line[i]]: a C string ends
    with a NUL. *)
Definition peek (rest : string) : ascii :=
  match rest with
  | EmptyString => NUL
  | String d _ => d
  end.

(** The [for] loop of [split_line]; [line] is the text from [line[i]] on.
    A NUL inside the Rocq string ends the C string there. *)
Fixpoint split_loop (line : string) (st : split_state) {struct line}
  : scan_result :=
  match line with
  | EmptyString => ScanEnd (end_token st)
  | String c rest =>
    if Ascii.eqb c NUL then ScanEnd (end_token st)
    else if Ascii.eqb c DQUOTE then
      if negb (in_quotes st) then split_loop rest (set_in_quotes true st)
      else if negb (is_delimiter (peek rest)) && negb (Ascii.eqb (peek rest) NUL)
      then ScanError "Expected delimiter after end quote." st
      else
        (* in_quotes = 0; i++; goto End_token; *)
        let st' := end_token (set_in_quotes false st) in
        match rest with
        | EmptyString => ScanEnd st'
        | String d rest' =>
          if Ascii.eqb d NUL then ScanEnd st' else split_loop rest' st'
        end
    else if negb (is_delimiter c) || in_quotes st
    then split_loop rest (store_char c st)
    else split_loop rest (end_token st)
  end.

Definition split_line (line : string) : res (list string) :=
  match split_loop line split_init with
  | ScanError message _ => Raise message
  | ScanEnd st =>
    if in_quotes st then Raise "Parsing ended unexpectedly."
    else Val (tokens st)
  end.

(** ** The process and the operating system *)

(** The status that [waitpid] stores: only what [WIFEXITED] and
    [WIFSIGNALED] read of it. *)
Inductive wstatus : Type :=
| WExited (code : Z)
| WSignaled (sig : Z)
| WStopped (sig : Z).

Definition WIFEXITED (status : wstatus) : bool :=
  match status with WExited _ => true | _ => false end.
Definition WIFSIGNALED (status : wstatus) : bool :=
  match status with WSignaled _ => true | _ => false end.

(** What an open descriptor refers to. *)
Inductive file : Type := Terminal | PipeRead | PipeWrite.

Definition STDIN_FILENO : nat := 0.
Definition STDOUT_FILENO : nat := 1.
Definition STDERR_FILENO : nat := 2.

(** One cell of a [char**] array: as [malloc] left it, NULL, or a
    pointer to a string. *)
Inductive slot : Type := Uninit | Null | Ptr (s : string).

(** The NULL-terminated array that holds the strings [args]. *)
Definition array_of (args : list string) : list slot := (Ptr <$> args) ++ [Null].

(** The strings of a NULL-terminated array, read as [execvp] reads them;
    [None] when a cell that holds no value comes before the NULL. *)
Fixpoint argv_of (a : list slot) : option (list string) :=
  match a with
  | [] => None
  | Uninit :: _ => None
  | Null :: _ => Some []
  | Ptr s :: a' => cons s <$> argv_of a'
  end.

(** The calls a process makes, in the order it makes them. *)
Inductive event : Type :=
| Fprintf_stderr (text : string)
| Printf (text : string)
| Perror (s : string)
| Pipe (ret : option (nat * nat))
| Fork (ret : Z)
| Close (fd : nat)
| Dup2 (oldfd newfd : nat)
| Execvp (path : slot) (argv : list slot)
| Waitpid (pid : Z) (status : wstatus)
| Chdir (path : string) (ret : Z).

(** The answers of the operating system to this process: the two
    descriptors [pipe] stores ([None]: it fails), the values successive
    calls of [fork] return here, the statuses successive calls of [waitpid]
    report for a child, the value of [chdir], and whether [execvp] finds
    the program (it returns only when it does not). *)
Record os : Type := Os {
  pipe_fds : option (nat * nat);
  fork_rets : list Z;
  wait_statuses : Z -> list wstatus;
  chdir_ret : string -> Z;
  execvp_ok : string -> bool
}.

Record proc : Type := Proc {
  fds : gmap nat file;
  trace : list event;
  sys : os
}.

(** How a piece of code leaves: it returns a value, the process calls
    [exit], [execvp] replaces the process image, [waitpid] never returns,
    or the behaviour is undefined (a cell without a value is read). *)
Inductive outcome (A : Type) : Type :=
| Ret (a : A)
| Exit (code : Z)
| Replaced
| Blocked
| Undef.
Arguments Ret {A} a.
Arguments Exit {A} code.
Arguments Replaced {A}.
Arguments Blocked {A}.
Arguments Undef {A}.

Definition M (A : Type) : Type := proc -> outcome A * proc.

#[global] Instance M_ret : MRet M := fun A a p => (Ret a, p).

#[global] Instance M_bind : MBind M := fun A B f m p =>
  match m p with
  | (Ret a, p') => f a p'
  | (Exit code, p') => (Exit code, p')
  | (Replaced, p') => (Replaced, p')
  | (Blocked, p') => (Blocked, p')
  | (Undef, p') => (Undef, p')
  end.

Definition log (e : event) (p : proc) : proc :=
  {| fds := fds p; trace := trace p ++ [e]; sys := sys p |}.

Definition emit (e : event) : M unit := fun p => (Ret (), log e p).

Definition fprintf_stderr (text : string) : M unit := emit (Fprintf_stderr text).
Definition printf (text : string) : M unit := emit (Printf text).
Definition perror (s : string) : M unit := emit (Perror s).

Definition exit {A : Type} (code : Z) : M A := fun p => (Exit code, p).

Definition when (b : bool) (m : M unit) : M unit := if b then m else mret ().

(** [pipe(pipefd)]: [Some (pipefd[0], pipefd[1])], or [None] for a
    negative return value. *)
Definition pipe : M (option (nat * nat)) := fun p =>
  match pipe_fds (sys p) with
  | Some (rd, wr) =>
    (Ret (Some (rd, wr)),
     {| fds := <[wr := PipeWrite]> (<[rd := PipeRead]> (fds p));
        trace := trace p ++ [Pipe (Some (rd, wr))]; sys := sys p |})
  | None => (Ret None, log (Pipe None) p)
  end.

(** [fork()], seen from the process that runs on with the returned value;
    the child starts from a copy of the state of the parent. *)
Definition fork : M Z := fun p =>
  match fork_rets (sys p) with
  | ret :: rets =>
    (Ret ret,
     {| fds := fds p; trace := trace p ++ [Fork ret];
        sys := {| pipe_fds := pipe_fds (sys p); fork_rets := rets;
                  wait_statuses := wait_statuses (sys p);
                  chdir_ret := chdir_ret (sys p);
                  execvp_ok := execvp_ok (sys p) |} |})
  | [] => (Ret (-1)%Z, log (Fork (-1)%Z) p)
  end.

Definition close (fd : nat) : M unit := fun p =>
  (Ret (), {| fds := delete fd (fds p); trace := trace p ++ [Close fd];
              sys := sys p |}).

Definition dup2 (oldfd newfd : nat) : M unit := fun p =>
  (Ret (),
   {| fds := match fds p !! oldfd with
             | Some f => <[newfd := f]> (fds p)
             | None => fds p
             end;
      trace := trace p ++ [Dup2 oldfd newfd]; sys := sys p |}).

Definition chdir (path : string) : M Z := fun p =>
  (Ret (chdir_ret (sys p) path), log (Chdir path (chdir_ret (sys p) path)) p).

(** [execvp(path, argv)] returns (a negative value) only when it fails. *)
Definition execvp (path : slot) (argv : list slot) : M Z := fun p =>
  match path, argv_of argv with
  | Ptr f, Some _ =>
    if execvp_ok (sys p) f then (Replaced, log (Execvp path argv) p)
    else (Ret (-1)%Z, log (Execvp path argv) p)
  | _, _ => (Undef, log (Execvp path argv) p)
  end.

Definition set_wait_statuses (pid : Z) (sts : list wstatus) (p : proc) : proc :=
  {| fds := fds p; trace := trace p;
     sys := {| pipe_fds := pipe_fds (sys p); fork_rets := fork_rets (sys p);
               wait_statuses := fun pid' =>
                 if (pid' =? pid)%Z then sts else wait_statuses (sys p) pid';
               chdir_ret := chdir_ret (sys p);
               execvp_ok := execvp_ok (sys p) |} |}.

(** [do { waitpid(pid, &status, WUNTRACED); }
     while(!WIFEXITED(status) && !WIFSIGNALED(status));]
    over the statuses [sts] still to be reported for [pid]; when none is
    left the child never changes state again and [waitpid] blocks. *)
Fixpoint wait_loop (pid : Z) (sts : list wstatus) (p : proc)
  : outcome unit * proc :=
  match sts with
  | [] => (Blocked, p)
  | status :: sts' =>
    let p' := log (Waitpid pid status) (set_wait_statuses pid sts' p) in
    if negb (WIFEXITED status) && negb (WIFSIGNALED status)
    then wait_loop pid sts' p'
    else (Ret (), p')
  end.

Definition wait_child (pid : Z) : M unit := fun p =>
  wait_loop pid (wait_statuses (sys p) pid) p.

(** ** Control utilities *)

Definition nl : string := String "010" "".

(** [raise_error]: the diagnostic, then [exit(EXIT_FAILURE)]. *)
Definition raise_error {A : Type} (message : string) : M A :=
  fprintf_stderr ("jshell: Error occurred: " +:+ message +:+ nl);;
  exit EXIT_FAILURE.

(** A pure part that may have reached [raise_error], run in the process. *)
Definition run_res {A : Type} (r : res A) : M A :=
  match r with
  | Val a => mret a
  | Raise message => raise_error message
  end.

(** ** Commands *)

(** [args[i]] of a NULL-terminated array of strings is [args !! i]; [None]
    is the NULL at [i = length args].  A cell read as a string: *)
Definition str (s : slot) : string :=
  match s with Ptr s => s | _ => "" end.

Definition cell (a : list slot) (i : nat) : slot := default Uninit (a !! i).

Definition jshell_run (args : list string) : M Z :=
  pid ← fork;
  if (pid =? 0)%Z then
    r ← execvp (cell (array_of args) 0) (array_of args);
    when (r <? 0)%Z
      (perror ("jshell(" +:+ String DQUOTE (str (cell (array_of args) 0))
               +:+ String DQUOTE ")"));;
    exit EXIT_FAILURE
  else if (pid <? 0)%Z then
    perror "jshell";;
    mret JSHELL_SUCCESS
  else
    wait_child pid;;
    mret JSHELL_SUCCESS.

Definition jshell_cd (args : list string) : M Z :=
  match args !! 1 with
  | None => raise_error "Argument expected for 'cd' command"
  | Some dir =>
    r ← chdir dir;
    when (negb (r =? 0)%Z) (perror "jshell")
  end;;
  mret JSHELL_SUCCESS.

(** The names of the table [builtins], in its order. *)
Definition builtin_names : list string := ["cd"; "help"; "exit"].

Definition jshell_num_builtins : nat := length builtin_names.

Fixpoint print_names (names : list string) : M unit :=
  match names with
  | [] => mret ()
  | name :: names' => printf ("> " +:+ name +:+ nl);; print_names names'
  end.

Definition jshell_help (args : list string) : M Z :=
  printf (nl +:+ "JShell" +:+ nl +:+ nl);;
  printf ("--Simple piping can be done through '|' character." +:+ nl);;
  printf ("Usage: " +:+ String DQUOTE "cmd1 arg0 arg1 ... | cmd2 arg0 arg1 ..."
          +:+ String DQUOTE " (Support only for piping between 2 programs)."
          +:+ nl +:+ nl);;
  printf ("--Double quotes can be used for arguments containing delimiters."
          +:+ nl +:+ nl);;
  printf ("The following commands are built in:" +:+ nl);;
  print_names (take jshell_num_builtins builtin_names);;
  printf nl;;
  mret JSHELL_SUCCESS.

Definition jshell_exit (args : list string) : M Z := mret JSHELL_EXIT_CODE.

Definition builtins : list (string * (list string -> M Z)) :=
  [("cd", jshell_cd); ("help", jshell_help); ("exit", jshell_exit)].

Definition jshell_exec_pipe (left_args right_args : list slot) : M Z :=
  pipefd ← pipe;
  match pipefd with
  | None =>
    fprintf_stderr ("jshell: Pipe could not be initialized." +:+ nl);;
    mret JSHELL_FAILED
  | Some (pipefd0, pipefd1) =>
    p1 ← fork;
    if (p1 <? 0)%Z then
      fprintf_stderr ("jshell: Fork failed." +:+ nl);;
      mret JSHELL_FAILED
    else if (p1 =? 0)%Z then
      close pipefd0;;
      dup2 pipefd1 STDOUT_FILENO;;
      close pipefd1;;
      r ← execvp (cell left_args 0) left_args;
      when (r <? 0)%Z
        (perror ("Failed execution of '" +:+ str (cell left_args 0) +:+ "'"));;
      exit EXIT_FAILURE
    else
      p2 ← fork;
      if (p2 <? 0)%Z then
        fprintf_stderr ("jshell: Fork failed." +:+ nl);;
        mret JSHELL_FAILED
      else if (p2 =? 0)%Z then
        close pipefd1;;
        dup2 pipefd0 STDIN_FILENO;;
        close pipefd0;;
        r ← execvp (cell right_args 0) right_args;
        when (r <? 0)%Z
          (perror ("Failed execution of '" +:+ str (cell right_args 0) +:+ "'"));;
        exit EXIT_FAILURE
      else
        wait_child p1;;
        wait_child p2;;
        mret JSHELL_SUCCESS
  end.

(** [arg[0]==JSHELL_PIPE[0]]: the first character of the token is '|'. *)
Definition first_is_pipe (arg : string) : bool :=
  match arg with
  | EmptyString => false
  | String c _ => Ascii.eqb c PIPE_CHAR
  end.

(** The first loop of [jshell_pipe], from [args[i]] on: the final values
    of [i] and [sizeof_left]. *)
Fixpoint pipe_scan (rest : list string) (i sizeof_left : nat) : nat * nat :=
  match rest with
  | [] => (i, sizeof_left)
  | arg :: rest' =>
    pipe_scan rest' (S i) (if first_is_pipe arg then i + 1 else sizeof_left)
  end.

(** The second loop of [jshell_pipe], from [args[i]] on. *)
Fixpoint pipe_fill (rest : list string) (i j sizeof_left : nat)
    (left_args right_args : list slot) : list slot * list slot :=
  match rest with
  | [] => (left_args, right_args)
  | arg :: rest' =>
    if first_is_pipe arg then
      pipe_fill rest' (S i) j sizeof_left left_args right_args
    else if i <? sizeof_left then
      pipe_fill rest' (S i) j sizeof_left (<[i := Ptr arg]> left_args) right_args
    else
      pipe_fill rest' (S i) (S j) sizeof_left left_args (<[j := Ptr arg]> right_args)
  end.

(** [jshell_pipe] up to its last line: the two arrays it builds, or [None]
    where it returns 1.  The first loop starts at [args[1]]: [jshell_exec]
    calls the function with [args[0]] present. *)
Definition pipe_split (args : list string) : option (list slot * list slot) :=
  let '(i, sizeof_left) := pipe_scan (drop 1 args) 1 0 in
  let sizeof_right := i - sizeof_left + 1 in
  if (sizeof_left =? 0) || (sizeof_right =? 0) then None
  else
    let '(left_args, right_args) :=
      pipe_fill args 0 0 sizeof_left
        (replicate sizeof_left Uninit) (replicate sizeof_right Uninit) in
    Some (<[sizeof_left - 1 := Null]> left_args,
          <[sizeof_right - 1 := Null]> right_args).

Definition jshell_pipe (args : list string) : M Z :=
  match pipe_split args with
  | None => mret 1%Z
  | Some (left_args, right_args) => jshell_exec_pipe left_args right_args
  end.

(** The body of the first loop of [jshell_exec] at a token [arg], which
    is [args[i]], whose first character is '|'. *)
Definition exec_at_pipe (args : list string) (arg : string) (i : nat) : M Z :=
  if (1 <? String.length arg) || (i =? 0) then
    fprintf_stderr ("jshell: Syntax error for '|'." +:+ nl);;
    mret JSHELL_FAILED
  else if bool_decide (args !! (i + 1) = None) then
    fprintf_stderr ("jshell: Right command expected for piping." +:+ nl);;
    mret JSHELL_FAILED
  else jshell_pipe args.

(** The first loop of [jshell_exec], from [args[i]] on: [Some] of what the
    function returns from inside the loop, or [None] when the loop ends. *)
Fixpoint exec_scan (args rest : list string) (i : nat) : option (M Z) :=
  match rest with
  | [] => None
  | arg :: rest' =>
    if first_is_pipe arg then Some (exec_at_pipe args arg i)
    else exec_scan args rest' (S i)
  end.

(** The second loop of [jshell_exec], over the table from [builtins[i]]
    on. *)
Fixpoint exec_builtin (table : list (string * (list string -> M Z)))
    (args : list string) : option (M Z) :=
  match table with
  | [] => None
  | (name, func) :: table' =>
    if String.eqb (default "" (args !! 0)) name then Some (func args)
    else exec_builtin table' args
  end.

(** [jshell_exec] after its first loop: the builtin of that name, else
    [jshell_run]. *)
Definition exec_command (args : list string) : M Z :=
  match exec_builtin (take jshell_num_builtins builtins) args with
  | Some m => m
  | None => jshell_run args
  end.

Definition jshell_exec (args : list string) : M Z :=
  match args with
  | [] => mret JSHELL_SUCCESS
  | _ =>
    match exec_scan args args 0 with
    | Some m => m
    | None => exec_command args
    end
  end.

(** One turn of [jshell_loop] after the line is read: [split_line], then
    [jshell_exec]. *)
Definition jshell_line (line : string) : M Z :=
  args ← run_res (split_line line);
  jshell_exec args.

(** A process as the shell starts: the three standard descriptors. *)
Definition shell (o : os) : proc :=
  {| fds := {[ STDIN_FILENO := Terminal; STDOUT_FILENO := Terminal;
               STDERR_FILENO := Terminal ]};
     trace := []; sys := o |}.

(** ** Vocabulary of the statements *)

Fixpoint all_chars (f : ascii -> bool) (s : string) : bool :=
  match s with
  | EmptyString => true
  | String c s' => f c && all_chars f s'
  end.

(** A character that is neither the end of the C string nor a quote. *)
Definition plain (c : ascii) : bool :=
  negb (Ascii.eqb c NUL) && negb (Ascii.eqb c DQUOTE).

(** The stores of the characters of [w], one after the other. *)
Fixpoint store_string (w : string) (st : split_state) : split_state :=
  match w with
  | EmptyString => st
  | String c w' => store_string w' (store_char c st)
  end.

Definition string_tail (s : string) : string :=
  match s with
  | EmptyString => EmptyString
  | String _ s' => s'
  end.

Definition final_state (r : scan_result) : split_state :=
  match r with
  | ScanEnd st => st
  | ScanError _ st => st
  end.

(** Every word the scan has accumulated in [token]: the tokens it has
    finished and the characters pending when it stopped. *)
Definition words (r : scan_result) : list string :=
  tokens (final_state r) ++ [token (final_state r)].

(** No token of [args] begins with the pipe character. *)
Definition no_pipe (args : list string) : Prop :=
  Forall (fun arg => first_is_pipe arg = false) args.

(** What the second loop of [jshell_pipe] leaves in a cell of [left_args]
    for a token before the boundary. *)
Definition cell_of (arg : string) : slot :=
  if first_is_pipe arg then Uninit else Ptr arg.

Definition is_waitpid (e : event) : bool :=
  match e with Waitpid _ _ => true | _ => false end.

Definition syntax_diagnostic : event :=
  Fprintf_stderr ("jshell: Syntax error for '|'." +:+ nl).
Definition right_command_diagnostic : event :=
  Fprintf_stderr ("jshell: Right command expected for piping." +:+ nl).
Definition cd_diagnostic : event :=
  Fprintf_stderr
    ("jshell: Error occurred: Argument expected for 'cd' command" +:+ nl).

(** Answers of the operating system used in the examples: one where
    nothing can be created, the shell that gets a pipe on descriptors 3
    and 4 and the children 100 and 101, and the second of these children
    (its own [fork] returned 0). *)
Definition os_bare : os :=
  {| pipe_fds := None; fork_rets := []; wait_statuses := fun _ => [];
     chdir_ret := fun _ => (-1)%Z; execvp_ok := fun _ => false |}.
Definition os_parent : os :=
  {| pipe_fds := Some (3, 4); fork_rets := [100%Z; 101%Z];
     wait_statuses := fun _ => [WStopped 19; WExited 0];
     chdir_ret := fun _ => 0%Z; execvp_ok := fun _ => true |}.
Definition os_right_child : os :=
  {| pipe_fds := Some (3, 4); fork_rets := [100%Z; 0%Z];
     wait_statuses := fun _ => [];
     chdir_ret := fun _ => 0%Z; execvp_ok := fun _ => true |}.

(** The first of the two children: its [fork] returned 0. *)
Definition os_left_child : os :=
  {| pipe_fds := Some (3, 4); fork_rets := [0%Z];
     wait_statuses := fun _ => [];
     chdir_ret := fun _ => 0%Z; execvp_ok := fun _ => true |}.

(** The string of [n] characters [c]. *)
Fixpoint string_of_char (n : nat) (c : ascii) : string :=
  match n with
  | 0 => EmptyString
  | S n' => String c (string_of_char n' c)
  end.

(** Every logged store into [token] is at an index no greater than the
    length of a finished token, or below the current [j]. *)
Definition stores_covered (st : split_state) : Prop :=
  Forall (fun i => Exists (fun t => i <= String.length t) (tokens st) \/ i < j st)
    (stores st).

(** The terminating NUL of every finished token is among the logged
    stores, at the index that is the length of the token. *)
Definition terminators_logged (st : split_state) : Prop :=
  Forall (fun t => String.length t ∈ stores st) (tokens st).

(** ** The array [tokens] of [split_line] *)

Definition TOKEN_BUFFER_SIZE : nat := 32.

(** The bookkeeping of the array [tokens]: its capacity [buffer_size], and
    a ghost log of the stores [tokens[current_token] = token], each with
    the capacity the array has at that moment. *)
Record tokens_array : Type := TokensArray {
  buffer_size : nat;
  pointer_stores : list (nat * nat)
}.

Definition array_init : tokens_array :=
  {| buffer_size := TOKEN_BUFFER_SIZE; pointer_stores := [] |}.

(** The block at [End_token] on the array: the [realloc] when
    [current_token >= buffer_size], then, unless [j] is zero, the store of
    the token at [tokens[current_token]]. *)
Definition end_token_array (st : split_state) (a : tokens_array) : tokens_array :=
  let size :=
    if buffer_size a <=? current_token st
    then buffer_size a + TOKEN_BUFFER_SIZE else buffer_size a in
  {| buffer_size := size;
     pointer_stores :=
       if j st =? 0 then pointer_stores a
       else pointer_stores a ++ [(current_token st, size)] |}.

(** The [for] loop of [split_line] once more, for the array: the state
    moves as in [split_loop], and every passage through [End_token] is
    applied to the array. *)
Fixpoint split_loop_array (line : string) (st : split_state) (a : tokens_array)
    {struct line} : tokens_array :=
  match line with
  | EmptyString => end_token_array st a
  | String c rest =>
    if Ascii.eqb c NUL then end_token_array st a
    else if Ascii.eqb c DQUOTE then
      if negb (in_quotes st) then split_loop_array rest (set_in_quotes true st) a
      else if negb (is_delimiter (peek rest)) && negb (Ascii.eqb (peek rest) NUL)
      then a
      else
        let a' := end_token_array (set_in_quotes false st) a in
        let st' := end_token (set_in_quotes false st) in
        match rest with
        | EmptyString => a'
        | String d rest' =>
          if Ascii.eqb d NUL then a' else split_loop_array rest' st' a'
        end
    else if negb (is_delimiter c) || in_quotes st
    then split_loop_array rest (store_char c st) a
    else split_loop_array rest (end_token st) (end_token_array st a)
  end.

(** ** Input: [jshell_read_line] *)

Definition JSHELL_LINE_BUFFER_SIZE : nat := 1024.
Definition NEWLINE : ascii := "010"%char.

(** The local variables of [jshell_read_line].  [line_buffer] holds the
    characters stored at [line_buffer[0..position-1]], so [position] is its
    length; [line_buffer_size] is the local [buffer_size]; [line_stores]
    is a ghost log of every store [line_buffer[position] = ...] with the
    capacity at that moment.  The range of the [int] variables and the
    failure of [realloc] come with [read_loop_checked] below. *)
Record read_state : Type := ReadState {
  line_buffer : string;
  line_buffer_size : nat;
  line_stores : list (nat * nat)
}.

Definition position (rs : read_state) : nat := String.length (line_buffer rs).

Definition read_init : read_state :=
  {| line_buffer := ""; line_buffer_size := JSHELL_LINE_BUFFER_SIZE;
     line_stores := [] |}.

(** [if(position >= buffer_size) buffer_size += JSHELL_LINE_BUFFER_SIZE;] *)
Definition read_grow (rs : read_state) : read_state :=
  if line_buffer_size rs <=? position rs then
    {| line_buffer := line_buffer rs;
       line_buffer_size := line_buffer_size rs + JSHELL_LINE_BUFFER_SIZE;
       line_stores := line_stores rs |}
  else rs.

(** [line_buffer[position] = c;] and the [position++] of the loop. *)
Definition read_store (c : ascii) (rs : read_state) : read_state :=
  {| line_buffer := line_buffer rs +:+ String c "";
     line_buffer_size := line_buffer_size rs;
     line_stores := line_stores rs ++ [(position rs, line_buffer_size rs)] |}.

(** [line_buffer[position] = '\0'; return line_buffer;] *)
Definition read_end (rs : read_state) : read_state :=
  {| line_buffer := line_buffer rs;
     line_buffer_size := line_buffer_size rs;
     line_stores := line_stores rs ++ [(position rs, line_buffer_size rs)] |}.

(** The loop of [jshell_read_line] over [stdin], the characters still to
    come on the standard input: [getchar] takes the first one, and gives
    [EOF] when none is left.  The result is the state at [return] and what
    is left of the input. *)
Fixpoint read_loop (stdin : string) (rs : read_state) : read_state * string :=
  match stdin with
  | EmptyString => (read_end (read_grow rs), EmptyString)
  | String c rest =>
    if Ascii.eqb c NEWLINE then (read_end (read_grow rs), rest)
    else read_loop rest (read_store c (read_grow rs))
  end.

(** The line returned, and the input left. *)
Definition jshell_read_line (stdin : string) : string * string :=
  let '(rs, rest) := read_loop stdin read_init in (line_buffer rs, rest).

(** ** The prompt and the loop *)

Definition JSHELL_PROMPT : string := ">> ".

(** What [show_prompt] learns from the system: the buffer [getcwd] fills,
    [pwd->pw_name] and [h->h_name]; [None] where the call gives NULL. *)
Record identity : Type := Identity {
  cwd : option string;
  pw_name : option string;
  h_name : option string
}.

Section Loop.

(** The answers of [getcwd], [getpwuid] and [gethostbyname] in a process. *)
Variable whoami : proc -> identity.

(** [show_prompt]: with a NULL from [getpwuid] or [gethostbyname], or
    with the buffer [cwd] left unwritten by a failed [getcwd], the [printf]
    reads what holds no value. *)
Definition show_prompt : M unit := fun p =>
  (when (bool_decide (cwd (whoami p) = None)) (perror "getcwd() error");;
   match pw_name (whoami p), h_name (whoami p), cwd (whoami p) with
   | Some user, Some host, Some dir =>
     printf (nl +:+ "~" +:+ user +:+ "@" +:+ host +:+ ":" +:+ dir +:+ " ");;
     printf JSHELL_PROMPT
   | _, _, _ => fun q => (Undef, q)
   end) p.

(** [jshell_loop], for at most [fuel] turns of its [do ... while]; [None]
    when the loop is still running after them.  The result carries what is
    left of the standard input; the commands run are taken not to read
    from it. *)
Fixpoint jshell_loop (fuel : nat) (stdin : string) (p : proc)
  : option (outcome unit * proc * string) :=
  match fuel with
  | 0 => None
  | S fuel' =>
    match show_prompt p with
    | (Ret _, p1) =>
      let '(line, stdin') := jshell_read_line stdin in
      match jshell_line line p1 with
      | (Ret ret_code, p2) =>
        if negb (ret_code =? JSHELL_EXIT_CODE)%Z
        then jshell_loop fuel' stdin' p2
        else Some (Ret (), p2, stdin')
      | (Exit code, p2) => Some (Exit code, p2, stdin')
      | (Replaced, p2) => Some (Replaced, p2, stdin')
      | (Blocked, p2) => Some (Blocked, p2, stdin')
      | (Undef, p2) => Some (Undef, p2, stdin')
      end
    | (Exit code, p1) => Some (Exit code, p1, stdin)
    | (Replaced, p1) => Some (Replaced, p1, stdin)
    | (Blocked, p1) => Some (Blocked, p1, stdin)
    | (Undef, p1) => Some (Undef, p1, stdin)
    end
  end.


End Loop.

(** ** Vocabulary of the further statements *)

(** A character of an unquoted word: no delimiter, no quote, no NUL. *)
Definition ordinary (c : ascii) : bool := plain c && negb (is_delimiter c).

(** A word that needs no quotes, and a text that can stand in quotes. *)
Definition word (w : string) : Prop := w <> "" /\ all_chars ordinary w = true.
Definition quotable (w : string) : Prop := w <> "" /\ all_chars plain w = true.

(** The words with one space between them. *)
Fixpoint join_words (ws : list string) : string :=
  match ws with
  | [] => ""
  | [w] => w
  | w :: ws' => w +:+ String " " (join_words ws')
  end.

Definition quoted (w : string) : string :=
  String DQUOTE (w +:+ String DQUOTE "").

Fixpoint string_concat (ws : list string) : string :=
  match ws with
  | [] => ""
  | w :: ws' => w +:+ string_concat ws'
  end.

Fixpoint string_filter (f : ascii -> bool) (s : string) : string :=
  match s with
  | EmptyString => EmptyString
  | String c s' => if f c then String c (string_filter f s') else string_filter f s'
  end.

(** The C string that starts at the first character: the text before the
    first NUL. *)
Fixpoint cstring (s : string) : string :=
  match s with
  | EmptyString => EmptyString
  | String c s' => if Ascii.eqb c NUL then EmptyString else String c (cstring s')
  end.

(** Whether the number of quotes in the string is odd. *)
Fixpoint odd_quotes (s : string) : bool :=
  match s with
  | EmptyString => false
  | String c s' => xorb (Ascii.eqb c DQUOTE) (odd_quotes s')
  end.


Definition not_quote (c : ascii) : bool := negb (Ascii.eqb c DQUOTE).
Definition not_delimiter (c : ascii) : bool := negb (is_delimiter c).

(** [size] is the multiple of [TOKEN_BUFFER_SIZE] that [count] cells (or
    one cell, when [count] is zero) need. *)
Definition fits (count size : nat) : Prop :=
  Nat.divide TOKEN_BUFFER_SIZE size
  /\ count `max` 1 <= size < count `max` 1 + TOKEN_BUFFER_SIZE.

Definition not_newline (c : ascii) : bool := negb (Ascii.eqb c NEWLINE).

(** The turns of the loop of [jshell_read_line] for the characters of
    [l], none of them a newline. *)
Fixpoint read_chars (l : string) (rs : read_state) : read_state :=
  match l with
  | EmptyString => rs
  | String c l' => read_chars l' (read_store c (read_grow rs))
  end.

Definition pipe_diagnostic : event :=
  Fprintf_stderr ("jshell: Pipe could not be initialized." +:+ nl).
Definition fork_diagnostic : event :=
  Fprintf_stderr ("jshell: Fork failed." +:+ nl).

(** The input after [n] calls of [jshell_read_line]. *)
Fixpoint skip_lines (n : nat) (stdin : string) : string :=
  match n with
  | 0 => stdin
  | S n' => skip_lines n' (jshell_read_line stdin).2
  end.

(** The calls that create a process or a pipe, or replace the image. *)
Definition is_spawn (e : event) : bool :=
  match e with
  | Fork _ | Pipe _ | Execvp _ _ => true
  | _ => false
  end.

(** ** The limits of the machine *)

(** [split_line] and [jshell_read_line] once more, with what the
    definitions above leave aside: the [int] variables have a range, the
    block [token] has [MAX_WORD_SIZE] bytes and the arrays their capacity,
    and [malloc] and [realloc] can fail. *)

(** [INT_MAX] of <limits.h>, for an [int] of 32 bits. *)
Definition INT_MAX : Z := 2147483647.

(** Whether the value is in the range of [int]; the values here are
    never negative. *)
Definition int_fits (n : nat) : bool := (Z.of_nat n <=? INT_MAX)%Z.

(** How a function ends here: it returns, it is in [raise_error], it
    stores outside a block, or an [int] leaves its range. *)
Inductive checked (A : Type) : Type :=
| Returns (a : A)
| RaisesError (message : string)
| StoresOutOfBounds
| IntOverflows.
Arguments Returns {A} a.
Arguments RaisesError {A} message.
Arguments StoresOutOfBounds {A}.
Arguments IntOverflows {A}.

#[global] Instance checked_ret : MRet checked := fun A a => Returns a.

#[global] Instance checked_bind : MBind checked := fun A B f m =>
  match m with
  | Returns a => f a
  | RaisesError message => RaisesError message
  | StoresOutOfBounds => StoresOutOfBounds
  | IntOverflows => IntOverflows
  end.

(** The state of [split_line] with the array and the number of calls of
    [malloc] and [realloc] made so far. *)
Record limited_state : Type := Limited {
  lim_state : split_state;
  lim_array : tokens_array;
  lim_allocs : nat
}.

Definition with_state (st : split_state) (ls : limited_state) : limited_state :=
  {| lim_state := st; lim_array := lim_array ls; lim_allocs := lim_allocs ls |}.

Section Limits.

(** Whether the call of [malloc] or [realloc] with that number in the
    run succeeds. *)
Variable alloc_ok : nat -> bool.

(** A call of [malloc] or [realloc], with the [raise_error] after it. *)
Definition allocate (message : string) (ls : limited_state)
  : checked limited_state :=
  if alloc_ok (lim_allocs ls) then
    Returns {| lim_state := lim_state ls; lim_array := lim_array ls;
               lim_allocs := S (lim_allocs ls) |}
  else RaisesError message.

(** [token[j] = line[i]; j++;] *)
Definition store_char_checked (c : ascii) (ls : limited_state)
  : checked limited_state :=
  if MAX_WORD_SIZE <=? j (lim_state ls) then StoresOutOfBounds
  else Returns (with_state (store_char c (lim_state ls)) ls).

(** The block at [End_token]: the [realloc] of [tokens], and unless [j]
    is zero [token[j] = 0], [tokens[current_token] = token], the [malloc]
    of the next block and [current_token++]. *)
Definition end_token_checked (ls : limited_state) : checked limited_state :=
  let st := lim_state ls in
  let a := lim_array ls in
  ls1 ← (if buffer_size a <=? current_token st then
           if negb (int_fits (buffer_size a + TOKEN_BUFFER_SIZE)) then IntOverflows
           else allocate "Failed allocation of `tokens`." ls
         else Returns ls);
  if j st =? 0 then
    Returns {| lim_state := end_token st; lim_array := end_token_array st a;
               lim_allocs := lim_allocs ls1 |}
  else if MAX_WORD_SIZE <=? j st then StoresOutOfBounds
  else if buffer_size (end_token_array st a) <=? current_token st
  then StoresOutOfBounds
  else
    ls2 ← allocate "Failed allocation of `token`." ls1;
    if negb (int_fits (current_token st + 1)) then IntOverflows
    else
      Returns {| lim_state := end_token st; lim_array := end_token_array st a;
                 lim_allocs := lim_allocs ls2 |}.

(** The [for] loop of [split_line]; [line] is the text from [line[i]]
    on. *)
Fixpoint split_loop_checked (line : string) (i : nat) (ls : limited_state)
    {struct line} : checked limited_state :=
  match line with
  | EmptyString => end_token_checked ls
  | String c rest =>
    if Ascii.eqb c NUL then end_token_checked ls
    else if Ascii.eqb c DQUOTE then
      if negb (in_quotes (lim_state ls)) then
        if negb (int_fits (i + 1)) then IntOverflows
        else split_loop_checked rest (i + 1)
               (with_state (set_in_quotes true (lim_state ls)) ls)
      else if negb (int_fits (i + 1)) then IntOverflows
      else if negb (is_delimiter (peek rest)) && negb (Ascii.eqb (peek rest) NUL)
      then RaisesError "Expected delimiter after end quote."
      else
        ls' ← end_token_checked (with_state (set_in_quotes false (lim_state ls)) ls);
        match rest with
        | EmptyString => Returns ls'
        | String d rest' =>
          if Ascii.eqb d NUL then Returns ls'
          else if negb (int_fits (i + 2)) then IntOverflows
          else split_loop_checked rest' (i + 2) ls'
        end
    else if negb (is_delimiter c) || in_quotes (lim_state ls) then
      ls' ← store_char_checked c ls;
      if negb (int_fits (i + 1)) then IntOverflows
      else split_loop_checked rest (i + 1) ls'
    else
      ls' ← end_token_checked ls;
      if negb (int_fits (i + 1)) then IntOverflows
      else split_loop_checked rest (i + 1) ls'
  end.

(** [split_line]: the two calls of [malloc], the loop, the test of
    [in_quotes], and [tokens[current_token] = NULL]. *)
Definition split_line_checked (line : string) : checked (list string) :=
  ls0 ← allocate "Failed allocation of `tokens`."
          {| lim_state := split_init; lim_array := array_init; lim_allocs := 0 |};
  ls1 ← allocate "Failed allocation of `token`." ls0;
  ls ← split_loop_checked line 0 ls1;
  if in_quotes (lim_state ls) then RaisesError "Parsing ended unexpectedly."
  else if buffer_size (lim_array ls) <=? current_token (lim_state ls)
  then StoresOutOfBounds
  else Returns (tokens (lim_state ls)).

(** In the process: [raise_error] ends it; a store outside a block or an
    [int] out of range leaves the behaviour undefined. *)
Definition run_checked {A : Type} (r : checked A) : M A :=
  match r with
  | Returns a => mret a
  | RaisesError message => raise_error message
  | StoresOutOfBounds => fun p => (Undef, p)
  | IntOverflows => fun p => (Undef, p)
  end.

Definition jshell_line_checked (line : string) : M Z :=
  args ← run_checked (split_line_checked line);
  jshell_exec args.

(** [if(position >= buffer_size)] with the [realloc] of [line_buffer];
    [allocs] counts the calls of [malloc] and [realloc] made so far. *)
Definition read_grow_checked (rs : read_state) (allocs : nat)
  : checked (read_state * nat) :=
  if line_buffer_size rs <=? position rs then
    if negb (int_fits (line_buffer_size rs + JSHELL_LINE_BUFFER_SIZE))
    then IntOverflows
    else if alloc_ok allocs then
      Returns ({| line_buffer := line_buffer rs;
                  line_buffer_size := line_buffer_size rs + JSHELL_LINE_BUFFER_SIZE;
                  line_stores := line_stores rs |}, S allocs)
    else RaisesError "Failed allocation of `line_buffer`."
  else Returns (rs, allocs).

(** The loop of [jshell_read_line]: the [realloc], [getchar], the store
    of the character or of the final NUL, and [position++]. *)
Fixpoint read_loop_checked (stdin : string) (rs : read_state) (allocs : nat)
  : checked (read_state * string) :=
  grown ← read_grow_checked rs allocs;
  if line_buffer_size grown.1 <=? position grown.1 then StoresOutOfBounds
  else
    match stdin with
    | EmptyString => Returns (read_end grown.1, EmptyString)
    | String c rest =>
      if Ascii.eqb c NEWLINE then Returns (read_end grown.1, rest)
      else if negb (int_fits (position grown.1 + 1)) then IntOverflows
      else read_loop_checked rest (read_store c grown.1) grown.2
    end.

Definition jshell_read_line_checked (stdin : string) : checked (string * string) :=
  if alloc_ok 0 then
    r ← read_loop_checked stdin read_init 1;
    Returns (line_buffer r.1, r.2)
  else RaisesError "Failed allocation of `line_buffer`.".

End Limits.

(** Every word the scan accumulates fits the block [token] with its
    NUL, and the line is short enough for the [int] variables. *)
Definition within_limits (line : string) : Prop :=
  (Z.of_nat (String.length line + TOKEN_BUFFER_SIZE) <= INT_MAX)%Z
  /\ Forall (fun w => String.length w < MAX_WORD_SIZE)
       (words (split_loop line split_init)).

(** The number of tokens leaves a cell of [tokens] for the final NULL:
    it is zero or no multiple of [TOKEN_BUFFER_SIZE]. *)
Definition leaves_room (n : nat) : Prop :=
  n = 0 \/ ~ Nat.divide TOKEN_BUFFER_SIZE n.

(** The bookkeeping that keeps the [int] variables in range: there are
    no more tokens and pending characters than characters read, and the
    capacity is at most [TOKEN_BUFFER_SIZE] more. *)
Definition in_step (i : nat) (ls : limited_state) : Prop :=
  current_token (lim_state ls) + j (lim_state ls) <= i
  /\ buffer_size (lim_array ls) <= i + TOKEN_BUFFER_SIZE
  /\ current_token (lim_state ls) <= buffer_size (lim_array ls).

(** ** The tokenizer *)

Section StringFacts.

Lemma append_cons (c : ascii) (s t : string) :
  String c s +:+ t = String c (s +:+ t).
Proof. reflexivity. Qed.

Lemma append_nil_r (s : string) : s +:+ "" = s.
Proof.
  induction s as [|c s IH]; [done |]. by rewrite append_cons, IH.
Qed.

Lemma append_assoc (s1 s2 s3 : string) :
  (s1 +:+ s2) +:+ s3 = s1 +:+ (s2 +:+ s3).
Proof.
  induction s1 as [|c s1 IH]; [done |]. by rewrite !append_cons, IH.
Qed.

Lemma length_append (s1 s2 : string) :
  String.length (s1 +:+ s2) = String.length s1 + String.length s2.
Proof.
  induction s1 as [|c s1 IH]; [done |].
  rewrite append_cons. simpl. by rewrite IH.
Qed.

End StringFacts.

Lemma delimiter_plain (c : ascii) : is_delimiter c = true -> plain c = true.
Proof.
  intros H. unfold plain.
  destruct (Ascii.eqb_spec c NUL) as [->|_]; [by vm_compute in H |].
  destruct (Ascii.eqb_spec c DQUOTE) as [->|_]; [by vm_compute in H |].
  done.
Qed.

Lemma end_token_tokens (st : split_state) :
  tokens (end_token st)
  = if String.eqb (token st) "" then tokens st else tokens st ++ [token st].
Proof.
  unfold end_token, j. destruct (token st); done.
Qed.

Lemma end_token_token (st : split_state) : token (end_token st) = "".
Proof.
  unfold end_token, j. destruct (token st) eqn:E; simpl; done.
Qed.

Lemma end_token_in_quotes (st : split_state) :
  in_quotes (end_token st) = in_quotes st.
Proof. unfold end_token. by destruct (j st =? 0). Qed.

Lemma end_token_idem (st : split_state) : end_token (end_token st) = end_token st.
Proof.
  unfold end_token at 1. unfold j. by rewrite end_token_token.
Qed.

Lemma store_string_token (w : string) (st : split_state) :
  token (store_string w st) = token st +:+ w.
Proof.
  revert st. induction w as [|c w IH]; intros st.
  - symmetry. apply append_nil_r.
  - cbn [store_string]. rewrite IH. cbn [store_char token].
    by rewrite append_assoc.
Qed.

Lemma store_string_tokens (w : string) (st : split_state) :
  tokens (store_string w st) = tokens st.
Proof. revert st. induction w as [|c w IH]; intros st; simpl; [done | by rewrite IH]. Qed.

Lemma store_string_in_quotes (w : string) (st : split_state) :
  in_quotes (store_string w st) = in_quotes st.
Proof. revert st. induction w as [|c w IH]; intros st; simpl; [done | by rewrite IH]. Qed.

Create Rewrite HintDb split_state.
#[local] Hint Rewrite end_token_token end_token_in_quotes end_token_idem
  store_string_token store_string_tokens store_string_in_quotes : split_state.

(** Inside quotes every plain character is stored, delimiters included. *)
Lemma split_loop_quoted (w rest : string) (st : split_state) :
  in_quotes st = true -> all_chars plain w = true ->
  split_loop (w +:+ rest) st = split_loop rest (store_string w st).
Proof.
  revert st. induction w as [|c w IH]; intros st Hq Hw; [done |].
  rewrite append_cons. cbn [split_loop store_string all_chars] in *.
  apply andb_prop in Hw as [Hc Hw]. unfold plain in Hc.
  apply andb_prop in Hc as [Hnul Hdq].
  apply negb_true_iff in Hnul, Hdq. rewrite Hnul, Hdq, Hq, orb_true_r.
  by apply IH.
Qed.



(** The scan recurses on the tail of the line and, after a closing quote,
    on the tail of the tail. *)
Lemma string_tail_ind (Q : string -> Prop) :
  Q "" ->
  (forall c s, Q s -> Q (string_tail s) -> Q (String c s)) ->
  forall s, Q s.
Proof.
  intros H0 H1 s.
  assert (H : Q s /\ Q (string_tail s)); [| by destruct H].
  induction s as [|d s [IHs IHt]]; [by split |].
  split; [by apply H1 | done].
Qed.

(** One turn of the loop at a character of the line. *)
Lemma split_loop_cons (c : ascii) (rest : string) (st : split_state) :
  split_loop (String c rest) st
  = if Ascii.eqb c NUL then ScanEnd (end_token st)
    else if Ascii.eqb c DQUOTE then
      if negb (in_quotes st) then split_loop rest (set_in_quotes true st)
      else if negb (is_delimiter (peek rest)) && negb (Ascii.eqb (peek rest) NUL)
      then ScanError "Expected delimiter after end quote." st
      else if Ascii.eqb (peek rest) NUL
      then ScanEnd (end_token (set_in_quotes false st))
      else split_loop (string_tail rest) (end_token (set_in_quotes false st))
    else if negb (is_delimiter c) || in_quotes st
    then split_loop rest (store_char c st)
    else split_loop rest (end_token st).
Proof. destruct rest; reflexivity. Qed.

(** A property of the state that the three updates of the loop keep holds
    where the loop stops. *)
Section LoopInvariant.

Variable P : split_state -> Prop.
Hypothesis P_store_char : forall c st, P st -> P (store_char c st).
Hypothesis P_end_token : forall st, P st -> P (end_token st).
Hypothesis P_set_in_quotes : forall b st, P st -> P (set_in_quotes b st).

Lemma split_loop_invariant (line : string) (st : split_state) :
  P st -> P (final_state (split_loop line st)).
Proof.
  revert st.
  induction line as [|c rest IHrest IHtail] using string_tail_ind;
    intros st HP.
  - by apply P_end_token.
  - rewrite split_loop_cons.
    destruct (Ascii.eqb c NUL); [by apply P_end_token |].
    destruct (Ascii.eqb c DQUOTE).
    + destruct (negb (in_quotes st)); [by apply IHrest, P_set_in_quotes |].
      destruct (_ && _); [done |].
      destruct (Ascii.eqb _ NUL); [by apply P_end_token, P_set_in_quotes |].
      by apply IHtail, P_end_token, P_set_in_quotes.
    + destruct (_ || _);
        [by apply IHrest, P_store_char | by apply IHrest, P_end_token].
Qed.

End LoopInvariant.

Lemma delimiter_cases (c : ascii) :
  is_delimiter c = true ->
  Ascii.eqb c NUL = false /\ Ascii.eqb c DQUOTE = false.
Proof.
  intros H. apply delimiter_plain in H. unfold plain in H.
  apply andb_prop in H as [H1 H2]. by apply negb_true_iff in H1, H2.
Qed.

(** Outside quotes a delimiter only closes the pending token. *)
Lemma split_loop_delimiter (d : ascii) (rest : string) (st : split_state) :
  is_delimiter d = true -> in_quotes st = false ->
  split_loop (String d rest) st = split_loop rest (end_token st).
Proof.
  intros Hd Hq. rewrite split_loop_cons.
  destruct (delimiter_cases d Hd) as [-> ->]. by rewrite Hd, Hq.
Qed.

Lemma split_loop_delimiters (line : string) (st : split_state) :
  all_chars is_delimiter line = true -> in_quotes st = false ->
  split_loop line st = ScanEnd (end_token st).
Proof.
  revert st. induction line as [|d line IH]; intros st Hl Hq; [done |].
  cbn [all_chars] in Hl. apply andb_prop in Hl as [Hd Hl].
  rewrite split_loop_delimiter by done.
  rewrite IH by (by autorewrite with split_state).
  by autorewrite with split_state.
Qed.

Lemma tokens_nonempty_final (line : string) (st : split_state) :
  Forall (fun t => t <> "") (tokens st) ->
  Forall (fun t => t <> "") (tokens (final_state (split_loop line st))).
Proof.
  apply (split_loop_invariant (fun st => Forall (fun t => t <> "") (tokens st))).
  - done.
  - intros st' H. rewrite end_token_tokens.
    destruct (String.eqb_spec (token st') ""); [done |].
    apply Forall_app. split; [done |]. by apply Forall_singleton.
  - done.
Qed.

(** C9: a line that [split_line] accepts yields only non-empty tokens; a
    line of delimiters yields no token; and outside quotes a second
    delimiter after a delimiter changes nothing. *)
Theorem tokens_nonempty :
  (forall line toks, split_line line = Val toks ->
     Forall (fun t => t <> "") toks)
  /\ (forall line, all_chars is_delimiter line = true -> split_line line = Val [])
  /\ (forall st d1 d2 rest,
        in_quotes st = false -> is_delimiter d1 = true -> is_delimiter d2 = true ->
        split_loop (String d1 (String d2 rest)) st
        = split_loop (String d1 rest) st).
Proof.
  split; [| split].
  - intros line toks. unfold split_line.
    pose proof (tokens_nonempty_final line split_init (Forall_nil_2 _)) as H.
    destruct (split_loop line split_init) as [st|m st]; [| done].
    destruct (in_quotes st); [done |]. by intros [= <-].
  - intros line Hl. unfold split_line.
    by rewrite split_loop_delimiters.
  - intros st d1 d2 rest Hq H1 H2.
    rewrite !(split_loop_delimiter d1) by done.
    rewrite split_loop_delimiter by (by autorewrite with split_state).
    by autorewrite with split_state.
Qed.

Lemma tokens_nonempty_witness :
  split_line "  a  b " = Val ["a"; "b"]
  /\ Forall (fun t => t <> "") ["a"; "b"]
  /\ split_line "   " = Val [].
Proof.
  split; [reflexivity |]. split.
  - exact (proj1 tokens_nonempty "  a  b " ["a"; "b"] eq_refl).
  - exact (proj1 (proj2 tokens_nonempty) "   " eq_refl).
Defined.

(** Plain text before a quote leaves [in_quotes] as it was. *)
Lemma split_loop_plain (w : string) (st : split_state) :
  all_chars plain w = true ->
  exists st', in_quotes st' = in_quotes st
    /\ forall rest, split_loop (w +:+ rest) st = split_loop rest st'.
Proof.
  revert st. induction w as [|c w IH]; intros st Hw.
  - by exists st.
  - cbn [all_chars] in Hw. apply andb_prop in Hw as [Hc Hw].
    unfold plain in Hc. apply andb_prop in Hc as [Hnul Hdq].
    apply negb_true_iff in Hnul, Hdq.
    destruct (negb (is_delimiter c) || in_quotes st) eqn:Hs.
    + destruct (IH (store_char c st) Hw) as (st' & Hq & Hrun).
      exists st'. split; [done |]. intros rest.
      by rewrite append_cons, split_loop_cons, Hnul, Hdq, Hs.
    + destruct (IH (end_token st) Hw) as (st' & Hq & Hrun).
      exists st'. split; [by rewrite Hq, end_token_in_quotes |]. intros rest.
      by rewrite append_cons, split_loop_cons, Hnul, Hdq, Hs.
Qed.



(** Every line whose last quote is an opening one: plain text, a quote,
    plain text up to the end. *)
Lemma unterminated_quote_lines (pre w : string) :
  all_chars plain pre = true -> all_chars plain w = true ->
  split_line (pre +:+ String DQUOTE w) = Raise "Parsing ended unexpectedly.".
Proof.
  intros Hpre Hw.
  destruct (split_loop_plain pre split_init Hpre) as (st & Hq & Hrun).
  unfold split_line. rewrite Hrun, split_loop_cons.
  change (Ascii.eqb DQUOTE NUL) with false.
  change (Ascii.eqb DQUOTE DQUOTE) with true. cbv iota.
  rewrite Hq. cbn [split_init in_quotes negb].
  rewrite <- (append_nil_r w), split_loop_quoted by done.
  cbn [split_loop]. by autorewrite with split_state.
Qed.

(** *** Stores into the block [token] *)

Lemma j_store_char (c : ascii) (st : split_state) :
  j (store_char c st) = S (j st).
Proof.
  unfold j. cbn [store_char token]. rewrite length_append.
  change (String.length (String c "")) with 1. lia.
Qed.

Lemma stores_covered_store_char (c : ascii) (st : split_state) :
  stores_covered st -> stores_covered (store_char c st).
Proof.
  unfold stores_covered. rewrite j_store_char.
  cbn [store_char stores tokens]. intros H.
  apply Forall_app. split.
  - eapply Forall_impl; [exact H |]. intros i [Hi | Hi]; [by left | right; lia].
  - apply Forall_singleton. right. lia.
Qed.

Lemma stores_covered_end_token (st : split_state) :
  stores_covered st -> stores_covered (end_token st).
Proof.
  unfold end_token. destruct (j st =? 0); [done |].
  unfold stores_covered. cbn [stores tokens]. intros H.
  apply Forall_app. split.
  - eapply Forall_impl; [exact H |]. intros i [Hi | Hi]; left.
    + apply Exists_app. by left.
    + apply Exists_app. right. apply Exists_cons_hd. unfold j in Hi. lia.
  - apply Forall_singleton. left. apply Exists_app. right.
    by apply Exists_cons_hd.
Qed.

Lemma stores_covered_final (line : string) :
  stores_covered (final_state (split_loop line split_init)).
Proof.
  apply (split_loop_invariant stores_covered).
  - apply stores_covered_store_char.
  - apply stores_covered_end_token.
  - done.
  - by apply Forall_nil_2.
Qed.

Lemma terminators_logged_final (line : string) :
  terminators_logged (final_state (split_loop line split_init)).
Proof.
  apply (split_loop_invariant terminators_logged).
  - unfold terminators_logged. cbn [store_char stores tokens]. intros _ st H.
    eapply Forall_impl; [exact H |]. intros t Ht. apply elem_of_app. by left.
  - intros st H. unfold end_token. destruct (j st =? 0); [done |].
    unfold terminators_logged, j in *. cbn [stores tokens].
    apply Forall_app. split.
    + eapply Forall_impl; [exact H |]. intros t Ht. apply elem_of_app. by left.
    + apply Forall_singleton. apply elem_of_app. right. by apply list_elem_of_singleton.
  - done.
  - by apply Forall_nil_2.
Qed.

(** C10: stores into the [MAX_WORD_SIZE]-byte block [token] carry no
    bound check.  When every word the scan accumulates has at most 99
    characters, every store is at an index below [MAX_WORD_SIZE]; a
    returned token of [MAX_WORD_SIZE] or more characters comes with a store
    at an index of [MAX_WORD_SIZE] or more; and the line of 100 letters is
    such a line. *)
Theorem token_stores_bounds :
  (forall line,
     Forall (fun w => String.length w <= 99) (words (split_loop line split_init)) ->
     Forall (fun i => i < MAX_WORD_SIZE)
       (stores (final_state (split_loop line split_init))))
  /\ (forall line toks,
        split_line line = Val toks ->
        Exists (fun t => MAX_WORD_SIZE <= String.length t) toks ->
        Exists (fun i => MAX_WORD_SIZE <= i)
          (stores (final_state (split_loop line split_init))))
  /\ (exists line,
        String.length line = 100
        /\ split_line line = Val [line]
        /\ MAX_WORD_SIZE ∈ stores (final_state (split_loop line split_init))).
Proof.
  split; [| split].
  - intros line Hw. pose proof (stores_covered_final line) as Hc.
    unfold words in Hw. apply Forall_app in Hw as [Htoks Htok].
    rewrite Forall_singleton in Htok.
    eapply Forall_impl; [exact Hc |]. intros i [Hi | Hi]; unfold MAX_WORD_SIZE.
    + apply Exists_exists in Hi as (t & Ht & Hit).
      rewrite Forall_forall in Htoks. specialize (Htoks t Ht).
      cbv beta in Htoks. lia.
    + unfold j in Hi. lia.
  - intros line toks Hs Hex. pose proof (terminators_logged_final line) as Hl.
    unfold split_line in Hs.
    destruct (split_loop line split_init) as [st|m st]; [| done].
    destruct (in_quotes st); [done |]. injection Hs as <-. simpl in *.
    apply Exists_exists in Hex as (t & Ht & Hlen).
    unfold terminators_logged in Hl. rewrite Forall_forall in Hl.
    apply Exists_exists. exists (String.length t). split; [by apply Hl | done].
  - exists (string_of_char 100 "a"). split; [reflexivity |].
    split; [reflexivity |]. vm_compute. apply list_elem_of_In.
    repeat (first [left; reflexivity | right]).
Qed.

Lemma token_stores_bounds_witness :
  Forall (fun w => String.length w <= 99)
    (words (split_loop "ls -l" split_init))
  /\ Forall (fun i => i < MAX_WORD_SIZE)
       (stores (final_state (split_loop "ls -l" split_init))).
Proof.
  assert (H : Forall (fun w => String.length w <= 99)
                (words (split_loop "ls -l" split_init))).
  { vm_compute. repeat constructor. }
  split; [exact H |]. exact (proj1 token_stores_bounds "ls -l" H).
Defined.

(** Non-membership in a list given by its elements. *)
Ltac not_in_literal :=
  let H := fresh "H" in
  intros H; apply list_elem_of_In in H; simpl in H;
  repeat (destruct H as [H | H]; [discriminate H |]); exact H.

(** ** The builtins *)

(** C7: [cd] without an argument is in [raise_error]: the diagnostic,
    then the whole process exits with [EXIT_FAILURE], also when reached
    through [jshell_exec]; with an argument for which [chdir] fails it
    reports through [perror] and returns [CONTINUE]. *)
Theorem cd_argument (name dir : string) (rest : list string) (p : proc) :
  jshell_cd [name] p = (Exit EXIT_FAILURE, log cd_diagnostic p)
  /\ jshell_exec ["cd"] p = (Exit EXIT_FAILURE, log cd_diagnostic p)
  /\ (chdir_ret (sys p) dir <> 0%Z ->
      jshell_cd (name :: dir :: rest) p
      = (Ret CONTINUE,
         log (Perror "jshell") (log (Chdir dir (chdir_ret (sys p) dir)) p)))
  /\ (chdir_ret (sys p) dir = 0%Z ->
      jshell_cd (name :: dir :: rest) p = (Ret CONTINUE, log (Chdir dir 0) p)).
Proof.
  split; [reflexivity |]. split; [reflexivity |]. split.
  - intros Hr. apply Z.eqb_neq in Hr.
    unfold jshell_cd, mbind, M_bind, chdir. cbn [lookup list_lookup].
    by rewrite Hr.
  - intros Hr. unfold jshell_cd, mbind, M_bind, chdir. cbn [lookup list_lookup].
    by rewrite Hr.
Qed.

Lemma cd_argument_witness :
  jshell_cd ["cd"; "/nowhere"] (shell os_bare)
  = (Ret CONTINUE,
     log (Perror "jshell") (log (Chdir "/nowhere" (-1)) (shell os_bare))).
Proof.
  refine (proj1 (proj2 (proj2
    (cd_argument "cd" "/nowhere" [] (shell os_bare)))) _).
  vm_compute. discriminate.
Defined.

(** ** Dispatch in [jshell_exec] *)

Lemma exec_scan_no_pipe (args rest : list string) (i : nat) :
  no_pipe rest -> exec_scan args rest i = None.
Proof.
  intros H. revert i. induction H as [|arg rest Harg _ IH]; intros i; [done |].
  cbn [exec_scan]. by rewrite Harg.
Qed.

Lemma exec_scan_first (args l : list string) (arg : string) (r : list string)
    (i : nat) :
  no_pipe l -> first_is_pipe arg = true ->
  exec_scan args (l ++ arg :: r) i = Some (exec_at_pipe args arg (i + length l)).
Proof.
  intros Hl Harg. revert i.
  induction Hl as [|a l Ha _ IH]; intros i; cbn [exec_scan app length].
  - rewrite Harg. do 2 f_equal. lia.
  - rewrite Ha, IH. do 2 f_equal. lia.
Qed.

Lemma jshell_exec_nonempty (args : list string) :
  args <> [] ->
  jshell_exec args
  = match exec_scan args args 0 with
    | Some m => m
    | None => exec_command args
    end.
Proof. by destruct args. Qed.

Lemma first_is_pipe_long (arg : string) :
  first_is_pipe arg = true -> arg <> JSHELL_PIPE ->
  (1 <? String.length arg) = true.
Proof.
  destruct arg as [|c [|d arg]]; [done | | done].
  cbn [first_is_pipe]. intros Hc%Ascii.eqb_eq. by subst.
Qed.

(** The token sequences that reach the pipeline, and what the others with
    a token that begins with '|' get. *)
Lemma jshell_exec_first_pipe (l : list string) (arg : string) (r : list string) :
  no_pipe l -> first_is_pipe arg = true ->
  jshell_exec (l ++ arg :: r)
  = exec_at_pipe (l ++ arg :: r) arg (length l).
Proof.
  intros Hl Harg. rewrite jshell_exec_nonempty by (by destruct l).
  by rewrite exec_scan_first.
Qed.

Lemma exec_at_pipe_separator (args : list string) (i : nat) :
  i <> 0 -> is_Some (args !! (i + 1)) ->
  exec_at_pipe args JSHELL_PIPE i = jshell_pipe args.
Proof.
  intros Hi [arg Harg]. unfold exec_at_pipe.
  cbn [JSHELL_PIPE String.length Nat.ltb Nat.leb orb].
  apply Nat.eqb_neq in Hi. rewrite Hi.
  rewrite bool_decide_eq_false_2; [done |]. by rewrite Harg.
Qed.

Lemma lookup_after_separator (l : list string) (sep b : string) (r : list string) :
  is_Some ((l ++ sep :: b :: r) !! (length l + 1)).
Proof.
  apply lookup_lt_is_Some. rewrite length_app. simpl. lia.
Qed.

Lemma exec_right_command_expected (l : list string) (p : proc) :
  l <> [] -> no_pipe l ->
  jshell_exec (l ++ [JSHELL_PIPE]) p
  = (Ret FAILED, log right_command_diagnostic p).
Proof.
  intros Hne Hl. rewrite jshell_exec_first_pipe by done.
  unfold exec_at_pipe. cbn [JSHELL_PIPE String.length Nat.ltb Nat.leb orb].
  destruct l as [|a l]; [done |]. cbn [length Nat.eqb].
  rewrite bool_decide_eq_true_2; [done |].
  apply lookup_ge_None_2. rewrite length_app. simpl. lia.
Qed.

Lemma jshell_exec_no_pipe (args : list string) :
  args <> [] -> no_pipe args -> jshell_exec args = exec_command args.
Proof.
  intros Hne Hno. rewrite jshell_exec_nonempty by done.
  by rewrite exec_scan_no_pipe.
Qed.

Lemma first_pipe_cases (args : list string) :
  no_pipe args
  \/ exists l arg r, args = l ++ arg :: r /\ no_pipe l /\ first_is_pipe arg = true.
Proof.
  induction args as [|a args IH]; [left; constructor |].
  destruct (first_is_pipe a) eqn:Ha.
  - right. exists [], a, args. by repeat split; [constructor |].
  - destruct IH as [Hno | (l & arg & r & -> & Hl & Harg)].
    + left. by constructor.
    + right. exists (a :: l), arg, r. by repeat split; [constructor |].
Qed.

(** C4 (as the code has it): tokens that do not begin with '|' are not
    looked at by the scan for a separator, whatever they contain after
    their first character; the first token that begins with '|' and is
    longer than "|" gets the syntax diagnostic and [FAILED]; the pipeline
    is entered at a token that is exactly "|", is not the first token and
    has a token after it.  A token that begins with '|' as the first token
    gets the syntax diagnostic and [FAILED], "|" itself too; "|" as the
    last token, not the first, gets the diagnostic for the missing right
    command and [FAILED].  Every token sequence is one of these cases, so
    the pipeline is entered in no other. *)
Theorem pipe_token_dispatch :
  (forall c s, c <> PIPE_CHAR -> first_is_pipe (String c s) = false)
  /\ (forall args, args <> [] -> no_pipe args ->
        jshell_exec args = exec_command args)
  /\ (forall l arg r p,
        no_pipe l -> first_is_pipe arg = true -> arg <> JSHELL_PIPE ->
        jshell_exec (l ++ arg :: r) p = (Ret FAILED, log syntax_diagnostic p))
  /\ (forall l r,
        l <> [] -> r <> [] -> no_pipe l ->
        jshell_exec (l ++ JSHELL_PIPE :: r) = jshell_pipe (l ++ JSHELL_PIPE :: r))
  /\ (forall arg r p,
        first_is_pipe arg = true ->
        jshell_exec (arg :: r) p = (Ret FAILED, log syntax_diagnostic p))
  /\ (forall l p,
        l <> [] -> no_pipe l ->
        jshell_exec (l ++ [JSHELL_PIPE]) p
        = (Ret FAILED, log right_command_diagnostic p))
  /\ (forall args,
        args <> [] ->
        (no_pipe args /\ jshell_exec args = exec_command args)
        \/ exists l arg r,
             args = l ++ arg :: r /\ no_pipe l /\ first_is_pipe arg = true
             /\ (((arg <> JSHELL_PIPE \/ l = [])
                  /\ forall p,
                       jshell_exec args p = (Ret FAILED, log syntax_diagnostic p))
                 \/ (arg = JSHELL_PIPE /\ l <> [] /\ r = []
                     /\ forall p,
                          jshell_exec args p
                          = (Ret FAILED, log right_command_diagnostic p))
                 \/ (arg = JSHELL_PIPE /\ l <> [] /\ r <> []
                     /\ jshell_exec args = jshell_pipe args))).
Proof.
  assert (Hlong : forall l arg r p,
            no_pipe l -> first_is_pipe arg = true -> arg <> JSHELL_PIPE ->
            jshell_exec (l ++ arg :: r) p = (Ret FAILED, log syntax_diagnostic p)).
  { intros l arg r p Hl Harg Hne. rewrite jshell_exec_first_pipe by done.
    unfold exec_at_pipe. by rewrite first_is_pipe_long. }
  assert (Hfirst : forall arg r p,
            first_is_pipe arg = true ->
            jshell_exec (arg :: r) p = (Ret FAILED, log syntax_diagnostic p)).
  { intros arg r p Harg.
    pose proof (jshell_exec_first_pipe [] arg r (Forall_nil_2 _) Harg) as H.
    cbn [app length] in H. rewrite H.
    unfold exec_at_pipe. cbn [Nat.eqb]. by rewrite orb_true_r. }
  assert (Hpipe : forall l r,
            l <> [] -> r <> [] -> no_pipe l ->
            jshell_exec (l ++ JSHELL_PIPE :: r) = jshell_pipe (l ++ JSHELL_PIPE :: r)).
  { intros l r Hl Hr Hno. rewrite jshell_exec_first_pipe by done.
    destruct r as [|b r]; [done |].
    apply exec_at_pipe_separator; [by destruct l |].
    apply lookup_after_separator. }
  split; [| split; [| split; [| split; [| split; [| split]]]]].
  - intros c s Hc. cbn [first_is_pipe]. by apply Ascii.eqb_neq.
  - apply jshell_exec_no_pipe.
  - exact Hlong.
  - exact Hpipe.
  - exact Hfirst.
  - apply exec_right_command_expected.
  - intros args Hne.
    destruct (first_pipe_cases args) as [Hno | (l & arg & r & -> & Hl & Harg)].
    { left. split; [done |]. by apply jshell_exec_no_pipe. }
    right. exists l, arg, r. split; [done |]. split; [done |]. split; [done |].
    destruct (decide (arg = JSHELL_PIPE)) as [-> | Harg'].
    + destruct l as [|a l].
      * left. split; [by right |]. intros p. by apply Hfirst.
      * right. destruct r as [|b r].
        -- left. split; [done |]. split; [done |]. split; [done |].
           intros p. by apply exec_right_command_expected.
        -- right. split; [done |]. split; [done |]. split; [done |].
           by apply Hpipe.
    + left. split; [by left |]. intros p. by apply Hlong.
Qed.

Lemma pipe_token_dispatch_witness :
  jshell_exec ["echo"; "a|b"] = exec_command ["echo"; "a|b"]
  /\ jshell_exec ["ls"; "|"; "wc"] = jshell_pipe ["ls"; "|"; "wc"]
  /\ jshell_exec ["|"; "wc"] (shell os_parent)
     = (Ret FAILED, log syntax_diagnostic (shell os_parent))
  /\ jshell_exec ["ls"; "|"] (shell os_parent)
     = (Ret FAILED, log right_command_diagnostic (shell os_parent)).
Proof.
  split; [| split; [| split]].
  - apply (proj1 (proj2 pipe_token_dispatch)); [done |].
    repeat constructor.
  - apply (proj1 (proj2 (proj2 (proj2 pipe_token_dispatch))) ["ls"] ["wc"]);
      [done | done | repeat constructor].
  - apply (proj1 (proj2 (proj2 (proj2 (proj2 pipe_token_dispatch))))).
    reflexivity.
  - apply (proj1 (proj2 (proj2 (proj2 (proj2 (proj2 pipe_token_dispatch)))))
             ["ls"]); [done | repeat constructor].
Defined.

(** C4 as stated fails: "|foo" is a longer token with the pipe character
    in it, and [jshell_exec] answers it with the syntax diagnostic and
    [FAILED]. *)
Lemma pipe_prefixed_token_rejected :
  "|foo" <> JSHELL_PIPE
  /\ jshell_exec ["ls"; "|foo"] (shell os_parent)
     = (Ret FAILED, log syntax_diagnostic (shell os_parent))
  /\ jshell_exec ["ls"; "|foo"] (shell os_parent)
     <> exec_command ["ls"; "|foo"] (shell os_parent).
Proof.
  split; [done |]. split; [reflexivity |]. vm_compute. discriminate.
Qed.

(** ** Waiting for a child *)

(** The loop around [waitpid] returns at the first status that says the
    child has exited or was killed; stops before it are waited through. *)
Lemma wait_loop_returns (pid : Z) (stops : list Z) (status : wstatus)
    (more : list wstatus) (p : proc) :
  WIFEXITED status || WIFSIGNALED status = true ->
  exists p',
    wait_loop pid ((WStopped <$> stops) ++ status :: more) p = (Ret (), p')
    /\ fds p' = fds p
    /\ trace p'
       = trace p ++ (Waitpid pid <$> ((WStopped <$> stops) ++ [status])).
Proof.
  intros Hterm. revert p.
  induction stops as [|sig stops IH]; intros p; cbn [fmap list_fmap app wait_loop].
  - assert (negb (WIFEXITED status) && negb (WIFSIGNALED status) = false) as ->.
    { by destruct status. }
    eexists. split; [done |]. split; done.
  - cbn [WIFEXITED WIFSIGNALED negb andb].
    destruct (IH (log (Waitpid pid (WStopped sig))
                    (set_wait_statuses pid ((WStopped <$> stops) ++ status :: more) p)))
      as (p' & Hrun & Hfds & Htrace).
    exists p'. split; [done |]. split; [done |].
    rewrite Htrace. cbn [log trace set_wait_statuses]. by rewrite <- app_assoc.
Qed.

(** Whatever the statuses, the loop touches no descriptor and makes no
    call but [waitpid]. *)
Lemma wait_loop_frame (pid : Z) (sts : list wstatus) (p : proc) :
  exists out p' t,
    wait_loop pid sts p = (out, p')
    /\ (out = Ret () \/ out = Blocked)
    /\ fds p' = fds p
    /\ trace p' = trace p ++ t
    /\ forallb is_waitpid t = true
    /\ fork_rets (sys p') = fork_rets (sys p)
    /\ pipe_fds (sys p') = pipe_fds (sys p).
Proof.
  revert p. induction sts as [|status sts IH]; intros p; cbn [wait_loop].
  - exists Blocked, p, []. rewrite app_nil_r. by repeat split; auto.
  - destruct (IH (log (Waitpid pid status) (set_wait_statuses pid sts p)))
      as (out & p' & t & Hrun & Hout & Hfds & Htrace & Ht & Hfork & Hpipe).
    destruct (negb (WIFEXITED status) && negb (WIFSIGNALED status)).
    + exists out, p', (Waitpid pid status :: t). split; [done |].
      split; [done |]. split; [done |].
      split; [by rewrite Htrace; cbn [log trace set_wait_statuses]; rewrite <- app_assoc |].
      by repeat split.
    + eexists (Ret ()), _, [Waitpid pid status]. by repeat split; auto.
Qed.

(** ** A single external program *)

Lemma argv_of_array_of (args : list string) : argv_of (array_of args) = Some args.
Proof.
  unfold array_of. induction args as [|a args IH]; [done |].
  cbn [fmap list_fmap app argv_of]. cbn [fmap list_fmap app] in IH.
  by rewrite IH.
Qed.

Lemma exec_command_external (arg0 : string) (rest : list string) :
  arg0 ∉ builtin_names -> exec_command (arg0 :: rest) = jshell_run (arg0 :: rest).
Proof.
  intros Hnot. unfold exec_command. cbn.
  assert (forall name, name ∈ builtin_names -> String.eqb arg0 name = false) as H.
  { intros name Hin. apply String.eqb_neq. by intros ->. }
  rewrite !H; [done | | |]; unfold builtin_names; set_solver.
Qed.

(** C8 (as the code has it): a token sequence in which no token begins
    with '|' and whose first token names no builtin goes to [jshell_run].
    There the shell calls [fork] once.  With a child, it waits until a
    status says the child has exited or was killed and returns [CONTINUE]
    whatever that status is; when [fork] fails it reports through [perror]
    and returns [CONTINUE].  The child runs [execvp] on the tokens; when
    that fails the child reports through [perror] and it is the child that
    exits. *)
Theorem external_command (arg0 : string) (rest : list string) (p : proc)
    (pid : Z) (rets : list Z) :
  no_pipe (arg0 :: rest) -> arg0 ∉ builtin_names ->
  fork_rets (sys p) = pid :: rets ->
  jshell_exec (arg0 :: rest) = jshell_run (arg0 :: rest)
  /\ (forall stops status more,
        (0 < pid)%Z ->
        wait_statuses (sys p) pid = (WStopped <$> stops) ++ status :: more ->
        WIFEXITED status || WIFSIGNALED status = true ->
        exists p',
          jshell_exec (arg0 :: rest) p = (Ret CONTINUE, p')
          /\ trace p'
             = trace p ++ Fork pid
                 :: (Waitpid pid <$> ((WStopped <$> stops) ++ [status])))
  /\ ((pid < 0)%Z ->
      exists p',
        jshell_exec (arg0 :: rest) p = (Ret CONTINUE, p')
        /\ trace p' = trace p ++ [Fork pid; Perror "jshell"])
  /\ (pid = 0%Z ->
      exists p',
        jshell_exec (arg0 :: rest) p
        = (if execvp_ok (sys p) arg0 then Replaced else Exit EXIT_FAILURE, p')
        /\ trace p'
           = trace p ++ Fork 0 :: Execvp (Ptr arg0) (array_of (arg0 :: rest))
               :: (if execvp_ok (sys p) arg0 then []
                   else [Perror ("jshell(" +:+ String DQUOTE arg0
                                 +:+ String DQUOTE ")")])).
Proof.
  intros Hno Hnot Hfork.
  assert (Hrun : jshell_exec (arg0 :: rest) = jshell_run (arg0 :: rest)).
  { rewrite jshell_exec_no_pipe by done.
    by apply exec_command_external. }
  split; [done |]. rewrite Hrun. clear Hrun.
  unfold jshell_run, mbind, M_bind, fork. rewrite Hfork.
  split; [| split].
  - intros stops status more Hpos Hwait Hterm.
    assert ((pid =? 0)%Z = false) as -> by lia.
    assert ((pid <? 0)%Z = false) as -> by lia.
    unfold wait_child. cbn [sys wait_statuses]. rewrite Hwait.
    edestruct (wait_loop_returns pid stops status more) as (p' & -> & _ & Htrace);
      [done |].
    exists p'. split; [done |]. rewrite Htrace. cbn [trace].
    by rewrite <- app_assoc.
  - intros Hneg.
    assert ((pid =? 0)%Z = false) as -> by lia.
    assert ((pid <? 0)%Z = true) as -> by lia.
    eexists. split; [done |]. cbn [perror emit log trace].
    by rewrite <- app_assoc.
  - intros ->. cbn [Z.eqb]. unfold execvp.
    change (cell (array_of (arg0 :: rest)) 0) with (Ptr arg0).
    rewrite argv_of_array_of. cbn [sys execvp_ok str].
    destruct (execvp_ok (sys p) arg0).
    + eexists. split; [done |]. cbn [log trace]. by rewrite <- app_assoc.
    + eexists. split; [done |]. cbn [log trace perror emit].
      by rewrite <- !app_assoc.
Qed.

Lemma external_command_witness :
  exists p',
    jshell_exec ["ls"; "-l"] (shell os_parent) = (Ret CONTINUE, p')
    /\ trace p' = [Fork 100; Waitpid 100 (WStopped 19); Waitpid 100 (WExited 0)].
Proof.
  assert (Hno : no_pipe ["ls"; "-l"]) by (repeat constructor).
  assert (Hnot : "ls" ∉ builtin_names).
  { not_in_literal. }
  exact (proj1 (proj2
    (external_command "ls" ["-l"] (shell os_parent) 100 [101%Z] Hno Hnot eq_refl))
    [19%Z] (WExited 0) [] eq_refl eq_refl eq_refl).
Defined.

(** C8 as stated fails: no token of ["ls"; "|x"] is the separator "|"
    and "ls" names no builtin, yet [jshell_exec] launches nothing and
    returns [FAILED]. *)
Lemma external_command_not_launched :
  (JSHELL_PIPE ∉ ["ls"; "|x"]) /\ ("ls" ∉ builtin_names)
  /\ jshell_exec ["ls"; "|x"] (shell os_parent)
     = (Ret FAILED, log syntax_diagnostic (shell os_parent))
  /\ FAILED <> CONTINUE.
Proof.
  split; [| split; [| split]].
  - not_in_literal.
  - not_in_literal.
  - reflexivity.
  - discriminate.
Qed.

(** ** The two arrays of [jshell_pipe] *)

Lemma pipe_scan_no_pipe (r : list string) (i sizeof_left : nat) :
  no_pipe r -> pipe_scan r i sizeof_left = (i + length r, sizeof_left).
Proof.
  intros Hr. revert i.
  induction Hr as [|b r Hb _ IH]; intros i; cbn [pipe_scan length].
  - f_equal; lia.
  - rewrite Hb, IH. f_equal; lia.
Qed.

Lemma pipe_scan_last (l : list string) (sep : string) (r : list string)
    (i sizeof_left : nat) :
  first_is_pipe sep = true -> no_pipe r ->
  pipe_scan (l ++ sep :: r) i sizeof_left
  = (i + length l + 1 + length r, i + length l + 1).
Proof.
  intros Hsep Hr. revert i sizeof_left.
  induction l as [|a l IH]; intros i sizeof_left; cbn [app pipe_scan length].
  - rewrite Hsep, pipe_scan_no_pipe by done. f_equal; lia.
  - rewrite IH. f_equal; lia.
Qed.

(** The cells of [left_args] below the boundary: a token that begins with
    '|' is skipped and its cell keeps what [malloc] left there. *)
Lemma pipe_fill_left (l : list string) (pre : list slot) (k : nat)
    (rest : list string) (j sizeof_left : nat) (right_args : list slot) :
  length pre + length l <= sizeof_left ->
  pipe_fill (l ++ rest) (length pre) j sizeof_left
    (pre ++ replicate (length l + k) Uninit) right_args
  = pipe_fill rest (length pre + length l) j sizeof_left
      (pre ++ (cell_of <$> l) ++ replicate k Uninit) right_args.
Proof.
  revert pre. induction l as [|a l IH]; intros pre Hlen;
    cbn [app length fmap list_fmap pipe_fill].
  - by rewrite Nat.add_0_r.
  - cbn [length] in Hlen.
    assert (Hnext : S (length pre) = length (pre ++ [cell_of a]))
      by (rewrite length_app; simpl; lia).
    assert (Hgoal : pre ++ cell_of a :: (cell_of <$> l) ++ replicate k Uninit
                    = (pre ++ [cell_of a]) ++ (cell_of <$> l) ++ replicate k Uninit)
      by (by rewrite <- app_assoc).
    replace (length pre + S (length l)) with (S (length pre) + length l) by lia.
    rewrite Hgoal, Hnext.
    destruct (first_is_pipe a) eqn:Ha.
    + rewrite <- IH by (rewrite <- Hnext; lia).
      f_equal. cbn [Nat.add replicate]. unfold cell_of. rewrite Ha.
      by rewrite <- app_assoc.
    + assert ((length pre <? sizeof_left) = true) as ->
        by (apply Nat.ltb_lt; lia).
      rewrite <- IH by (rewrite <- Hnext; lia).
      f_equal. cbn [Nat.add replicate]. unfold cell_of. rewrite Ha.
      rewrite <- (Nat.add_0_r (length pre)) at 1.
      rewrite insert_app_r. cbn. by rewrite <- app_assoc.
Qed.

Lemma pipe_fill_right (r : list string) (pre : list slot) (k i sizeof_left : nat)
    (left_args : list slot) :
  no_pipe r -> sizeof_left <= i ->
  pipe_fill r i (length pre) sizeof_left left_args
    (pre ++ replicate (length r + k) Uninit)
  = (left_args, pre ++ (Ptr <$> r) ++ replicate k Uninit).
Proof.
  intros Hr. revert pre i.
  induction Hr as [|a r Ha _ IH]; intros pre i Hi;
    cbn [length fmap list_fmap pipe_fill app]; [done |].
  rewrite Ha.
  assert ((i <? sizeof_left) = false) as -> by (apply Nat.ltb_ge; lia).
  assert (Hnext : S (length pre) = length (pre ++ [Ptr a]))
    by (rewrite length_app; simpl; lia).
  assert (Hins : <[length pre := Ptr a]> (pre ++ replicate (S (length r) + k) Uninit)
                 = (pre ++ [Ptr a]) ++ replicate (length r + k) Uninit).
  { rewrite <- (Nat.add_0_r (length pre)) at 1.
    rewrite insert_app_r. cbn. by rewrite <- app_assoc. }
  rewrite Hins, Hnext, IH by lia. by rewrite <- app_assoc.
Qed.

(** What [jshell_pipe] builds when the last token that begins with '|' is
    [sep], after the tokens [l] and before the tokens [r]. *)
Lemma pipe_split_last (l : list string) (sep : string) (r : list string) :
  l <> [] -> first_is_pipe sep = true -> no_pipe r ->
  pipe_split (l ++ sep :: r) = Some ((cell_of <$> l) ++ [Null], array_of r).
Proof.
  intros Hl Hsep Hr. destruct l as [|a0 l]; [done |]. clear Hl.
  unfold pipe_split.
  change (drop 1 ((a0 :: l) ++ sep :: r)) with (l ++ sep :: r).
  rewrite pipe_scan_last by done.
  replace (1 + length l + 1 + length r - (1 + length l + 1) + 1)
    with (length r + 1) by lia.
  replace (1 + length l + 1) with (length (a0 :: l) + 1) by (simpl; lia).
  assert (((length (a0 :: l) + 1 =? 0) || (length r + 1 =? 0)) = false) as ->.
  { apply orb_false_intro; apply Nat.eqb_neq; lia. }
  generalize (a0 :: l). clear a0 l. intros l.
  pose proof (pipe_fill_left l [] 1 (sep :: r) 0 (length l + 1)
                (replicate (length r + 1) Uninit)) as Hleft.
  cbn [length app Nat.add] in Hleft. rewrite Hleft by lia. clear Hleft.
  cbn [pipe_fill]. rewrite Hsep.
  pose proof (pipe_fill_right r [] 1 (S (length l)) (length l + 1)
                ((cell_of <$> l) ++ replicate 1 Uninit) Hr) as Hright.
  cbn [length app] in Hright. rewrite Hright by lia. clear Hright.
  f_equal. f_equal.
  - replace (length l + 1 - 1) with (length (cell_of <$> l) + 0)
      by (rewrite length_fmap; lia).
    by rewrite insert_app_r.
  - replace (length r + 1 - 1) with (length (Ptr <$> r) + 0)
      by (rewrite length_fmap; lia).
    by rewrite insert_app_r.
Qed.

Lemma cell_of_no_pipe (l : list string) : no_pipe l -> cell_of <$> l = Ptr <$> l.
Proof.
  induction 1 as [|a l Ha _ IH]; [done |].
  cbn [fmap list_fmap]. unfold cell_of at 1. rewrite Ha. by f_equal.
Qed.

(** With exactly one token [sep] that begins with '|', not the first
    token, [jshell_pipe] splits at it: the left array holds exactly the
    tokens before it, the right array exactly the tokens after it, and the
    two with [sep] between them are the token sequence. *)
Theorem pipe_split_single (l : list string) (sep : string) (r : list string) :
  l <> [] -> no_pipe l -> no_pipe r -> first_is_pipe sep = true ->
  pipe_split (l ++ [sep] ++ r) = Some (array_of l, array_of r)
  /\ argv_of (array_of l) = Some l /\ argv_of (array_of r) = Some r
  /\ jshell_pipe (l ++ [sep] ++ r) = jshell_exec_pipe (array_of l) (array_of r).
Proof.
  intros Hne Hl Hr Hsep.
  assert (Hsplit : pipe_split (l ++ [sep] ++ r) = Some (array_of l, array_of r)).
  { cbn [app]. rewrite pipe_split_last by done.
    by rewrite cell_of_no_pipe. }
  split; [done |]. split; [apply argv_of_array_of |].
  split; [apply argv_of_array_of |].
  unfold jshell_pipe. by rewrite Hsplit.
Qed.

Lemma pipe_split_single_witness :
  pipe_split (["ls"] ++ [JSHELL_PIPE] ++ ["wc"; "-l"])
  = Some ([Ptr "ls"; Null], [Ptr "wc"; Ptr "-l"; Null]).
Proof.
  refine (proj1 (pipe_split_single ["ls"] JSHELL_PIPE ["wc"; "-l"] _ _ _ _)).
  - discriminate.
  - repeat constructor.
  - repeat constructor.
  - reflexivity.
Defined.

(** C2 at ["a"; "|"; "b"; "|"; "c"]: the token sequence is
    ["a"; "|"; "b"] ++ ["|"] ++ ["c"], [jshell_exec] hands it to
    [jshell_pipe], and the left array is not the tokens before the last
    separator: [jshell_pipe] gives it their number of cells but skips
    every token that begins with '|' when it fills them, so the cell of
    the first separator is never written.  The first child calls [execvp]
    with that array. *)
Theorem pipe_split_two_separators :
  ["a"; "|"; "b"; "|"; "c"] = ["a"; "|"; "b"] ++ [JSHELL_PIPE] ++ ["c"]
  /\ (JSHELL_PIPE ∉ ["c"])
  /\ jshell_exec ["a"; "|"; "b"; "|"; "c"] = jshell_pipe ["a"; "|"; "b"; "|"; "c"]
  /\ pipe_split ["a"; "|"; "b"; "|"; "c"]
     = Some ([Ptr "a"; Uninit; Ptr "b"; Null], array_of ["c"])
  /\ pipe_split ["a"; "|"; "b"; "|"; "c"]
     <> Some (array_of ["a"; "|"; "b"], array_of ["c"])
  /\ argv_of [Ptr "a"; Uninit; Ptr "b"; Null] = None
  /\ (jshell_exec ["a"; "|"; "b"; "|"; "c"] (shell os_left_child)).1 = Undef
  /\ trace (jshell_exec ["a"; "|"; "b"; "|"; "c"] (shell os_left_child)).2
     = [Pipe (Some (3, 4)); Fork 0;
        Close 3; Dup2 4 STDOUT_FILENO; Close 4;
        Execvp (Ptr "a") [Ptr "a"; Uninit; Ptr "b"; Null]].
Proof.
  split; [reflexivity |]. split.
  { not_in_literal. }
  split; [reflexivity |]. split; [reflexivity |]. split.
  { vm_compute. discriminate. }
  repeat split; reflexivity.
Qed.

(** A token that begins with '|' at the very end, after a separator that
    [jshell_exec] has accepted: the pipeline runs with a right array that
    holds no token. *)
Lemma exec_trailing_pipe (l m : list string) (sep : string) :
  l <> [] -> no_pipe l -> first_is_pipe sep = true ->
  jshell_exec (l ++ JSHELL_PIPE :: m ++ [sep])
  = jshell_exec_pipe ((cell_of <$> (l ++ JSHELL_PIPE :: m)) ++ [Null]) [Null].
Proof.
  intros Hne Hl Hsep. rewrite jshell_exec_first_pipe by done.
  assert (Hnext : is_Some ((l ++ JSHELL_PIPE :: m ++ [sep]) !! (length l + 1))).
  { destruct m; apply lookup_after_separator. }
  rewrite exec_at_pipe_separator; [| by destruct l | done].
  assert (Hargs : l ++ JSHELL_PIPE :: m ++ [sep]
                  = (l ++ JSHELL_PIPE :: m) ++ sep :: [])
    by (by rewrite <- app_assoc).
  unfold jshell_pipe. rewrite Hargs.
  rewrite pipe_split_last; [done | by destruct l | done | by apply Forall_nil_2].
Qed.

(** C3 at ["ls"; "|"; "wc"; "|"]: no token follows the separator that
    sets the boundary of the split, the right array holds no token, and
    yet [jshell_exec] prints no diagnostic: the shell creates the pipe and
    both children, waits and returns [CONTINUE], and the second child
    calls [execvp] with a NULL program name. *)
Theorem second_pipe_without_right_command :
  ["ls"; "|"; "wc"; "|"] = ["ls"; "|"; "wc"] ++ [JSHELL_PIPE]
  /\ pipe_split ["ls"; "|"; "wc"; "|"]
     = Some ([Ptr "ls"; Uninit; Ptr "wc"; Null], [Null])
  /\ argv_of [Null] = Some []
  /\ (jshell_exec ["ls"; "|"; "wc"; "|"] (shell os_parent)).1 = Ret CONTINUE
  /\ trace (jshell_exec ["ls"; "|"; "wc"; "|"] (shell os_parent)).2
     = [Pipe (Some (3, 4)); Fork 100; Fork 101;
        Waitpid 100 (WStopped 19); Waitpid 100 (WExited 0);
        Waitpid 101 (WStopped 19); Waitpid 101 (WExited 0)]
  /\ (jshell_exec ["ls"; "|"; "wc"; "|"] (shell os_right_child)).1 = Undef
  /\ trace (jshell_exec ["ls"; "|"; "wc"; "|"] (shell os_right_child)).2
     = [Pipe (Some (3, 4)); Fork 100; Fork 0;
        Close 4; Dup2 3 STDIN_FILENO; Close 3; Execvp Null [Null]].
Proof. repeat split; reflexivity. Qed.

(** ** The pipeline in the parent *)

(** C1 in the shell itself (both calls of [fork] return a child):
    [jshell_exec_pipe] makes no call after the second [fork] but
    [waitpid], and when it returns, or blocks in [waitpid], both
    descriptors of the pipe are still open in the shell. *)
Theorem parent_keeps_pipe_open (left_args right_args : list slot) (p : proc)
    (pipefd0 pipefd1 : nat) (p1 p2 : Z) (rets : list Z) :
  pipe_fds (sys p) = Some (pipefd0, pipefd1) ->
  fork_rets (sys p) = p1 :: p2 :: rets ->
  (0 < p1)%Z -> (0 < p2)%Z ->
  exists out p' t,
    jshell_exec_pipe left_args right_args p = (out, p')
    /\ (out = Ret JSHELL_SUCCESS \/ out = Blocked)
    /\ trace p'
       = trace p ++ Pipe (Some (pipefd0, pipefd1)) :: Fork p1 :: Fork p2 :: t
    /\ forallb is_waitpid t = true
    /\ fds p' = <[pipefd1 := PipeWrite]> (<[pipefd0 := PipeRead]> (fds p))
    /\ is_Some (fds p' !! pipefd0) /\ is_Some (fds p' !! pipefd1).
Proof.
  intros Hpipe Hfork Hp1 Hp2.
  assert (Hopen : forall m : gmap nat file,
            is_Some (<[pipefd1 := PipeWrite]> (<[pipefd0 := PipeRead]> m) !! pipefd0)
            /\ is_Some (<[pipefd1 := PipeWrite]> (<[pipefd0 := PipeRead]> m) !! pipefd1)).
  { intros m. split.
    - destruct (decide (pipefd1 = pipefd0)) as [->|Hne].
      + rewrite lookup_insert_eq. by eexists.
      + rewrite lookup_insert_ne, lookup_insert_eq by done. by eexists.
    - rewrite lookup_insert_eq. by eexists. }
  unfold jshell_exec_pipe, mbind, M_bind, pipe. rewrite Hpipe.
  unfold fork at 1. cbn [sys]. rewrite Hfork.
  assert ((p1 <? 0)%Z = false) as -> by lia.
  assert ((p1 =? 0)%Z = false) as -> by lia.
  unfold fork. cbn [sys fork_rets].
  assert ((p2 <? 0)%Z = false) as -> by lia.
  assert ((p2 =? 0)%Z = false) as -> by lia.
  unfold wait_child at 1.
  match goal with
  | |- context [wait_loop ?pid ?sts ?q] =>
    destruct (wait_loop_frame pid sts q)
      as (out1 & q1 & t1 & -> & Hout1 & Hfds1 & Htrace1 & Ht1 & _)
  end.
  cbn [fds trace] in Hfds1, Htrace1.
  destruct Hout1 as [-> | ->].
  - unfold wait_child.
    match goal with
    | |- context [wait_loop ?pid ?sts ?q] =>
      destruct (wait_loop_frame pid sts q)
        as (out2 & q2 & t2 & -> & Hout2 & Hfds2 & Htrace2 & Ht2 & _)
    end.
    exists (match out2 with Ret _ => Ret JSHELL_SUCCESS | _ => Blocked end),
      q2, (t1 ++ t2).
    split; [by destruct Hout2 as [-> | ->] |].
    split; [by destruct Hout2 as [-> | ->]; auto |].
    split; [rewrite Htrace2, Htrace1, <- !app_assoc; by cbn [app] |].
    split; [by rewrite forallb_app, Ht1, Ht2 |].
    rewrite Hfds2, Hfds1. split; [done |]. apply Hopen.
  - exists Blocked, q1, t1. split; [done |]. split; [by right |].
    split; [rewrite Htrace1, <- !app_assoc; by cbn [app] |].
    split; [done |]. rewrite Hfds1. split; [done |]. apply Hopen.
Qed.

Lemma parent_keeps_pipe_open_witness :
  exists out p' t,
    jshell_exec_pipe (array_of ["ls"]) (array_of ["wc"; "-l"]) (shell os_parent)
    = (out, p')
    /\ (out = Ret JSHELL_SUCCESS \/ out = Blocked)
    /\ trace p' = Pipe (Some (3, 4)) :: Fork 100 :: Fork 101 :: t
    /\ forallb is_waitpid t = true
    /\ fds p' = <[4 := PipeWrite]> (<[3 := PipeRead]> (fds (shell os_parent)))
    /\ is_Some (fds p' !! 3) /\ is_Some (fds p' !! 4).
Proof.
  apply (parent_keeps_pipe_open (array_of ["ls"]) (array_of ["wc"; "-l"])
           (shell os_parent) 3 4 100 101 []); [reflexivity | reflexivity | lia | lia].
Defined.

(** The children do close: the second child, seen at ["ls"; "|"; "wc"],
    closes both descriptors of the pipe before [execvp]. *)
Lemma right_child_closes_pipe :
  trace (jshell_exec ["ls"; "|"; "wc"] (shell os_right_child)).2
  = [Pipe (Some (3, 4)); Fork 100; Fork 0;
     Close 4; Dup2 3 STDIN_FILENO; Close 3;
     Execvp (Ptr "wc") [Ptr "wc"; Null]]
  /\ fds (jshell_exec ["ls"; "|"; "wc"] (shell os_right_child)).2 !! 3 = None
  /\ fds (jshell_exec ["ls"; "|"; "wc"] (shell os_right_child)).2 !! 4 = None
  /\ fds (jshell_exec ["ls"; "|"; "wc"] (shell os_right_child)).2 !! STDIN_FILENO
     = Some PipeRead.
Proof. repeat split; reflexivity. Qed.

(** ** The lines of the help text and of the specification *)

(** A well-formed pipeline line reaches [jshell_exec_pipe] with the two
    commands. *)
Corollary jshell_exec_pipeline (l r : list string) :
  l <> [] -> r <> [] -> no_pipe l -> no_pipe r ->
  jshell_exec (l ++ JSHELL_PIPE :: r)
  = jshell_exec_pipe (array_of l) (array_of r).
Proof.
  intros Hl Hr Hnl Hnr. rewrite jshell_exec_first_pipe by done.
  destruct r as [|b r]; [done |].
  rewrite exec_at_pipe_separator;
    [| by destruct l | apply lookup_after_separator].
  unfold jshell_pipe. rewrite pipe_split_last by done.
  by rewrite cell_of_no_pipe.
Qed.

Example split_unquoted : split_line "a b c" = Val ["a"; "b"; "c"].
Proof. reflexivity. Qed.

Example split_quoted :
  split_line ("echo " +:+ String DQUOTE ("hello world" +:+ String DQUOTE " foo"))
  = Val ["echo"; "hello world"; "foo"].
Proof. reflexivity. Qed.

Example split_quote_without_delimiter :
  split_line ("foo " +:+ String DQUOTE ("bar" +:+ String DQUOTE "baz"))
  = Raise "Expected delimiter after end quote.".
Proof. reflexivity. Qed.

Example split_quote_inside_word :
  split_line ("ab" +:+ String DQUOTE ("c d" +:+ String DQUOTE " e"))
  = Val ["abc d"; "e"].
Proof. reflexivity. Qed.

Example exec_empty (p : proc) : jshell_exec [] p = (Ret CONTINUE, p).
Proof. reflexivity. Qed.

Example exec_exit (p : proc) : jshell_exec ["exit"; "now"] p = (Ret EXIT, p).
Proof. reflexivity. Qed.

Example exec_pipe_first (p : proc) :
  jshell_exec ["|"; "foo"] p = (Ret FAILED, log syntax_diagnostic p).
Proof. reflexivity. Qed.

Example exec_pipe_last (p : proc) :
  jshell_exec ["foo"; "|"] p = (Ret FAILED, log right_command_diagnostic p).
Proof. reflexivity. Qed.

Example exec_pipeline_parent :
  (jshell_exec ["ls"; "|"; "wc"; "-l"] (shell os_parent)).1 = Ret CONTINUE
  /\ trace (jshell_exec ["ls"; "|"; "wc"; "-l"] (shell os_parent)).2
     = [Pipe (Some (3, 4)); Fork 100; Fork 101;
        Waitpid 100 (WStopped 19); Waitpid 100 (WExited 0);
        Waitpid 101 (WStopped 19); Waitpid 101 (WExited 0)].
Proof. split; reflexivity. Qed.

(** * Further properties of the program *)

(** ** Words, quoted and not *)

Lemma ordinary_cases (c : ascii) :
  ordinary c = true ->
  Ascii.eqb c NUL = false /\ Ascii.eqb c DQUOTE = false /\ is_delimiter c = false.
Proof.
  unfold ordinary, plain. intros H.
  apply andb_prop in H as [H Hd]. apply andb_prop in H as [Hn Hq].
  by apply negb_true_iff in Hn, Hq, Hd.
Qed.

Lemma plain_cases (c : ascii) :
  plain c = true -> Ascii.eqb c NUL = false /\ Ascii.eqb c DQUOTE = false.
Proof.
  unfold plain. intros H. apply andb_prop in H as [Hn Hq].
  by apply negb_true_iff in Hn, Hq.
Qed.

(** The characters of an unquoted word are stored one by one. *)
Lemma split_loop_word (w rest : string) (st : split_state) :
  all_chars ordinary w = true ->
  split_loop (w +:+ rest) st = split_loop rest (store_string w st).
Proof.
  revert st. induction w as [|c w IH]; intros st Hw; [done |].
  cbn [all_chars] in Hw. apply andb_prop in Hw as [Hc Hw].
  destruct (ordinary_cases c Hc) as (Hn & Hq & Hd).
  rewrite append_cons, split_loop_cons, Hn, Hq, Hd. cbn [negb orb store_string].
  by apply IH.
Qed.

(** A finished word, from a state with nothing pending. *)
Lemma end_token_word (w : string) (st : split_state) :
  w <> "" -> token st = "" ->
  tokens (end_token (store_string w st)) = tokens st ++ [w].
Proof.
  intros Hw Ht. rewrite end_token_tokens. autorewrite with split_state.
  rewrite Ht. change ("" +:+ w) with w.
  by destruct (String.eqb_spec w "").
Qed.

Lemma end_token_nothing (st : split_state) : token st = "" -> end_token st = st.
Proof. intros Ht. unfold end_token, j. by rewrite Ht. Qed.

Lemma split_loop_words (ws : list string) (st : split_state) :
  Forall word ws -> in_quotes st = false -> token st = "" ->
  exists st',
    split_loop (join_words ws) st = ScanEnd st'
    /\ tokens st' = tokens st ++ ws /\ token st' = "" /\ in_quotes st' = false.
Proof.
  intros Hws. revert st.
  induction Hws as [|w ws [Hne Hw] Hws IH]; intros st Hq Ht.
  - exists st. cbn [join_words split_loop].
    by rewrite end_token_nothing, app_nil_r.
  - destruct ws as [|w2 ws].
    + exists (end_token (store_string w st)). cbn [join_words].
      rewrite <- (append_nil_r w) at 1. rewrite split_loop_word by done.
      cbn [split_loop]. split; [done |].
      split; [by apply end_token_word |].
      by autorewrite with split_state.
    + destruct (IH (end_token (store_string w st))) as (st' & Hrun & Htoks & Htok & Hq');
        [by autorewrite with split_state | by autorewrite with split_state |].
      exists st'. change (join_words (w :: w2 :: ws))
        with (w +:+ String " " (join_words (w2 :: ws))).
      rewrite split_loop_word by done.
      rewrite split_loop_delimiter;
        [| done | by autorewrite with split_state].
      split; [done |]. rewrite Htoks, end_token_word by done.
      by rewrite <- app_assoc.
Qed.

Lemma quoted_append (w rest : string) :
  quoted w +:+ rest = String DQUOTE (w +:+ String DQUOTE rest).
Proof.
  unfold quoted. rewrite append_cons, append_assoc. by rewrite append_cons.
Qed.

(** A quoted text followed by a delimiter, or by the end of the line. *)
Lemma split_loop_quoted_word (w rest : string) (st : split_state) :
  in_quotes st = false -> all_chars plain w = true ->
  split_loop (quoted w +:+ rest) st
  = let st' := end_token (set_in_quotes false (store_string w (set_in_quotes true st))) in
    match rest with
    | EmptyString => ScanEnd st'
    | String d rest' =>
      if is_delimiter d then split_loop rest' st'
      else if Ascii.eqb d NUL then ScanEnd st'
      else ScanError "Expected delimiter after end quote."
             (store_string w (set_in_quotes true st))
    end.
Proof.
  intros Hq Hw. rewrite quoted_append, split_loop_cons.
  change (Ascii.eqb DQUOTE NUL) with false.
  change (Ascii.eqb DQUOTE DQUOTE) with true. cbv iota.
  rewrite Hq. cbn [negb]. rewrite split_loop_quoted by done.
  rewrite split_loop_cons.
  change (Ascii.eqb DQUOTE NUL) with false.
  change (Ascii.eqb DQUOTE DQUOTE) with true. cbv iota.
  autorewrite with split_state. cbn [set_in_quotes in_quotes negb].
  destruct rest as [|d rest']; [done |]. cbn [peek string_tail].
  destruct (is_delimiter d) eqn:Hd; cbn [negb andb].
  - destruct (delimiter_cases d Hd) as [-> _]. done.
  - by destruct (Ascii.eqb d NUL).
Qed.

Lemma split_loop_quoted_words (ws : list string) (st : split_state) :
  Forall quotable ws -> in_quotes st = false -> token st = "" ->
  exists st',
    split_loop (join_words (quoted <$> ws)) st = ScanEnd st'
    /\ tokens st' = tokens st ++ ws /\ token st' = "" /\ in_quotes st' = false.
Proof.
  intros Hws. revert st.
  induction Hws as [|w ws [Hne Hw] Hws IH]; intros st Hq Ht.
  - exists st. cbn [fmap list_fmap join_words split_loop].
    by rewrite end_token_nothing, app_nil_r.
  - assert (Hst : forall st1,
              st1 = end_token (set_in_quotes false (store_string w (set_in_quotes true st))) ->
              tokens st1 = tokens st ++ [w] /\ token st1 = "" /\ in_quotes st1 = false).
    { intros st1 ->. split; [| by autorewrite with split_state].
      rewrite end_token_tokens. cbn [set_in_quotes token tokens].
      autorewrite with split_state. cbn [set_in_quotes token tokens].
      rewrite Ht. change ("" +:+ w) with w.
      by destruct (String.eqb_spec w ""). }
    destruct (Hst _ eq_refl) as (Htoks1 & Htok1 & Hq1).
    destruct ws as [|w2 ws].
    + eexists. cbn [fmap list_fmap join_words].
      rewrite <- (append_nil_r (quoted w)), split_loop_quoted_word by done.
      cbv zeta. split; [done |]. done.
    + destruct (IH _ Hq1 Htok1) as (st' & Hrun & Htoks & Htok & Hq').
      exists st'.
      change (join_words (quoted <$> w :: w2 :: ws))
        with (quoted w +:+ String " " (join_words (quoted <$> w2 :: ws))).
      rewrite split_loop_quoted_word by done. cbv zeta.
      change (is_delimiter " ") with true. cbv iota.
      split; [done |]. rewrite Htoks, Htoks1. by rewrite <- app_assoc.
Qed.

(** ** What the tokens are made of *)

Lemma string_concat_snoc (ws : list string) (w : string) :
  string_concat (ws ++ [w]) = string_concat ws +:+ w.
Proof.
  induction ws as [|v ws IH]; cbn [app string_concat].
  - apply append_nil_r.
  - by rewrite IH, append_assoc.
Qed.

Lemma all_chars_snoc (f : ascii -> bool) (s : string) (c : ascii) :
  all_chars f (s +:+ String c "") = all_chars f s && f c.
Proof.
  induction s as [|d s IH]; cbn [all_chars].
  - change ("" +:+ String c "") with (String c ""). cbn [all_chars].
    by rewrite andb_true_r.
  - rewrite append_cons. cbn [all_chars]. by rewrite IH, andb_assoc.
Qed.

Lemma end_token_concat (st : split_state) :
  string_concat (tokens (end_token st)) = string_concat (tokens st) +:+ token st.
Proof.
  rewrite end_token_tokens. destruct (String.eqb_spec (token st) "") as [-> | _].
  - by rewrite append_nil_r.
  - apply string_concat_snoc.
Qed.

Lemma end_token_words (st : split_state) :
  Forall word (tokens st) -> all_chars ordinary (token st) = true ->
  Forall word (tokens (end_token st)).
Proof.
  intros Hws Hw. rewrite end_token_tokens.
  destruct (String.eqb_spec (token st) ""); [done |].
  apply Forall_app. split; [done |]. by apply Forall_singleton.
Qed.

(** A line without quotes, from a state outside quotes. *)
Lemma split_loop_no_quote (line : string) (st : split_state) :
  all_chars not_quote line = true -> in_quotes st = false ->
  exists st',
    split_loop line st = ScanEnd st'
    /\ in_quotes st' = false /\ token st' = ""
    /\ string_concat (tokens st')
       = string_concat (tokens st) +:+ token st
         +:+ string_filter not_delimiter (cstring line)
    /\ (Forall word (tokens st) -> all_chars ordinary (token st) = true ->
        Forall word (tokens st')).
Proof.
  revert st. induction line as [|c line IH]; intros st Hline Hq.
  - exists (end_token st). cbn [split_loop cstring string_filter].
    autorewrite with split_state. repeat split; try done.
    + by rewrite end_token_concat, append_nil_r.
    + apply end_token_words.
  - cbn [all_chars] in Hline. apply andb_prop in Hline as [Hc Hline].
    unfold not_quote in Hc. apply negb_true_iff in Hc.
    rewrite split_loop_cons, Hc, Hq, orb_false_r. cbn [cstring].
    destruct (Ascii.eqb c NUL) eqn:Hn.
    { exists (end_token st). cbn [string_filter].
      autorewrite with split_state. repeat split; try done.
      - by rewrite end_token_concat, append_nil_r.
      - apply end_token_words. }
    cbn [string_filter]. unfold not_delimiter at 1.
    destruct (is_delimiter c) eqn:Hd; cbn [negb].
    + destruct (IH (end_token st) Hline) as (st' & Hrun & Hq' & Ht & Hcat & Hw);
        [by autorewrite with split_state |].
      exists st'. split; [done |]. split; [done |]. split; [done |]. split.
      * rewrite Hcat, end_token_concat. autorewrite with split_state.
        by rewrite append_assoc.
      * intros Hws Htok. apply Hw; [by apply end_token_words |].
        by autorewrite with split_state.
    + destruct (IH (store_char c st) Hline) as (st' & Hrun & Hq' & Ht & Hcat & Hw);
        [done |].
      exists st'. split; [done |]. split; [done |]. split; [done |]. split.
      * rewrite Hcat. cbn [store_char tokens token].
        by rewrite !append_assoc.
      * intros Hws Htok. apply Hw; [done |]. cbn [store_char token].
        rewrite all_chars_snoc, Htok. unfold ordinary, plain.
        by rewrite Hn, Hc, Hd.
Qed.

(** A property of the state that the updates of the loop keep, where the
    only characters stored are plain ones. *)
Section StoredInvariant.

Variable P : split_state -> Prop.
Hypothesis P_store_plain :
  forall c st, plain c = true -> P st -> P (store_char c st).
Hypothesis P_end_token : forall st, P st -> P (end_token st).
Hypothesis P_set_in_quotes : forall b st, P st -> P (set_in_quotes b st).

Lemma split_loop_invariant_plain (line : string) (st : split_state) :
  P st -> P (final_state (split_loop line st)).
Proof.
  revert st.
  induction line as [|c rest IHrest IHtail] using string_tail_ind;
    intros st HP.
  - by apply P_end_token.
  - rewrite split_loop_cons.
    destruct (Ascii.eqb c NUL) eqn:Hn; [by apply P_end_token |].
    destruct (Ascii.eqb c DQUOTE) eqn:Hq.
    + destruct (negb (in_quotes st)); [by apply IHrest, P_set_in_quotes |].
      destruct (_ && _); [done |].
      destruct (Ascii.eqb (peek rest) NUL);
        [by apply P_end_token, P_set_in_quotes |].
      by apply IHtail, P_end_token, P_set_in_quotes.
    + destruct (_ || _); [| by apply IHrest, P_end_token].
      apply IHrest, P_store_plain; [| done]. unfold plain. by rewrite Hn, Hq.
Qed.

End StoredInvariant.

(** No token that [split_line] returns contains a quote or a NUL, with
    or without quotes in the line. *)
Theorem tokens_plain (line : string) (toks : list string) :
  split_line line = Val toks -> Forall (fun t => all_chars plain t = true) toks.
Proof.
  intros Hs.
  pose proof (split_loop_invariant_plain
    (fun st => Forall (fun t => all_chars plain t = true) (tokens st)
               /\ all_chars plain (token st) = true)) as Hinv.
  specialize (Hinv
    ltac:(intros c st Hc [Hts Ht]; split; [done |];
          cbn [store_char token]; by rewrite all_chars_snoc, Ht, Hc)
    ltac:(intros st [Hts Ht]; split; [| by rewrite end_token_token];
          rewrite end_token_tokens;
          destruct (String.eqb_spec (token st) ""); [done |];
          apply Forall_app; split; [done | by apply Forall_singleton])
    ltac:(by intros b st)
    line split_init ltac:(by split)).
  unfold split_line in Hs.
  destruct (split_loop line split_init) as [st | m st]; [| done].
  destruct (in_quotes st); [done |]. injection Hs as <-. by destruct Hinv.
Qed.

Lemma tokens_plain_witness :
  Forall (fun t => all_chars plain t = true) ["echo"; "a b"].
Proof.
  apply (tokens_plain ("echo " +:+ quoted "a b")). reflexivity.
Defined.

(** ** Quotes come in pairs *)

Lemma cstring_peek_nul (rest : string) :
  Ascii.eqb (peek rest) NUL = true -> cstring rest = "".
Proof.
  destruct rest as [|d rest]; [done |]. cbn [peek cstring]. by intros ->.
Qed.

(** Where the loop stops by itself, [in_quotes] has changed as often as
    the line has quotes. *)
Lemma split_loop_quote_parity (line : string) (st st' : split_state) :
  split_loop line st = ScanEnd st' ->
  in_quotes st' = xorb (in_quotes st) (odd_quotes (cstring line)).
Proof.
  revert st.
  induction line as [|c rest IHrest IHtail] using string_tail_ind; intros st.
  - cbn [split_loop cstring odd_quotes]. intros [= <-].
    by rewrite end_token_in_quotes, xorb_false_r.
  - rewrite split_loop_cons. cbn [cstring].
    destruct (Ascii.eqb c NUL) eqn:Hn.
    { intros [= <-]. cbn [odd_quotes].
      by rewrite end_token_in_quotes, xorb_false_r. }
    cbn [odd_quotes]. destruct (Ascii.eqb c DQUOTE) eqn:Hq.
    + destruct (in_quotes st) eqn:Hin; cbn [negb].
      * destruct (_ && _) eqn:Hbad; [done |].
        destruct (Ascii.eqb (peek rest) NUL) eqn:Hpeek.
        -- intros [= <-]. rewrite end_token_in_quotes.
           by rewrite (cstring_peek_nul rest Hpeek).
        -- intros Hrun. apply IHtail in Hrun. rewrite Hrun.
           rewrite end_token_in_quotes. cbn [set_in_quotes in_quotes].
           destruct rest as [|d rest']; [done |].
           cbn [peek string_tail cstring] in *. rewrite Hpeek.
           cbn [odd_quotes].
           assert (Ascii.eqb d DQUOTE = false) as ->;
             [| by destruct (odd_quotes (cstring rest'))].
           cbn [negb] in Hbad. rewrite andb_true_r in Hbad.
           apply negb_false_iff in Hbad.
           by destruct (delimiter_cases d Hbad).
      * intros Hrun. apply IHrest in Hrun. rewrite Hrun.
        cbn [set_in_quotes in_quotes]. by destruct (odd_quotes (cstring rest)).
    + cbn [xorb]. destruct (_ || _); intros Hrun; apply IHrest in Hrun;
        rewrite Hrun; [done | by rewrite end_token_in_quotes].
Qed.

(** ** Delimiters at the ends of the line *)





(** ** The array [tokens] *)

Lemma split_loop_array_cons (c : ascii) (rest : string) (st : split_state)
    (a : tokens_array) :
  split_loop_array (String c rest) st a
  = if Ascii.eqb c NUL then end_token_array st a
    else if Ascii.eqb c DQUOTE then
      if negb (in_quotes st) then split_loop_array rest (set_in_quotes true st) a
      else if negb (is_delimiter (peek rest)) && negb (Ascii.eqb (peek rest) NUL)
      then a
      else if Ascii.eqb (peek rest) NUL
      then end_token_array (set_in_quotes false st) a
      else split_loop_array (string_tail rest)
             (end_token (set_in_quotes false st))
             (end_token_array (set_in_quotes false st) a)
    else if negb (is_delimiter c) || in_quotes st
    then split_loop_array rest (store_char c st) a
    else split_loop_array rest (end_token st) (end_token_array st a).
Proof. destruct rest; reflexivity. Qed.

(** A property of the state and the array together that the updates of
    the loop keep holds where the loop stops. *)
Section ArrayInvariant.

Variable P : split_state -> tokens_array -> Prop.
Hypothesis P_store_char : forall c st a, P st a -> P (store_char c st) a.
Hypothesis P_set_in_quotes : forall b st a, P st a -> P (set_in_quotes b st) a.
Hypothesis P_end_token :
  forall st a, P st a -> P (end_token st) (end_token_array st a).

Lemma split_loop_array_invariant (line : string) (st : split_state)
    (a : tokens_array) :
  P st a -> P (final_state (split_loop line st)) (split_loop_array line st a).
Proof.
  revert st a.
  induction line as [|c rest IHrest IHtail] using string_tail_ind;
    intros st a HP.
  - by apply P_end_token.
  - rewrite split_loop_cons, split_loop_array_cons.
    destruct (Ascii.eqb c NUL); [by apply P_end_token |].
    destruct (Ascii.eqb c DQUOTE).
    + destruct (negb (in_quotes st)); [by apply IHrest, P_set_in_quotes |].
      destruct (_ && _); [done |].
      destruct (Ascii.eqb (peek rest) NUL);
        [by apply P_end_token, P_set_in_quotes |].
      by apply IHtail, P_end_token, P_set_in_quotes.
    + destruct (_ || _);
        [by apply IHrest, P_store_char | by apply IHrest, P_end_token].
Qed.

End ArrayInvariant.

Lemma current_token_end_token (st : split_state) :
  current_token (end_token st)
  = if j st =? 0 then current_token st else S (current_token st).
Proof.
  unfold end_token, current_token. destruct (j st =? 0); [done |].
  cbn [tokens]. rewrite length_app. simpl. lia.
Qed.

(** Every store of a token into [tokens] is below the capacity of the
    array at that moment (the [realloc] comes first), the stores fill the
    cells 0, 1, 2, ... in order, and where the loop stops [current_token],
    the index of the final [tokens[current_token] = NULL], is at most the
    capacity: at most one cell beyond the array. *)
Theorem tokens_array_bounds (line : string) :
  let a := split_loop_array line split_init array_init in
  let st := final_state (split_loop line split_init) in
  Forall (fun s => s.1 < s.2) (pointer_stores a)
  /\ (pointer_stores a).*1 = seq 0 (current_token st)
  /\ current_token st <= buffer_size a.
Proof.
  apply (split_loop_array_invariant
    (fun st a => Forall (fun s => s.1 < s.2) (pointer_stores a)
                 /\ (pointer_stores a).*1 = seq 0 (current_token st)
                 /\ current_token st <= buffer_size a)).
  - done.
  - done.
  - intros st a (Hstores & Hlog & Hle).
    rewrite current_token_end_token. unfold end_token_array.
    cbn [buffer_size pointer_stores].
    destruct (j st =? 0).
    + split; [done |]. split; [done |].
      destruct (buffer_size a <=? current_token st); lia.
    + split; [| split].
      * apply Forall_app. split; [done |]. apply Forall_singleton. cbn [fst snd].
        destruct (buffer_size a <=? current_token st) eqn:Hgrow.
        -- unfold TOKEN_BUFFER_SIZE. lia.
        -- apply Nat.leb_gt in Hgrow. lia.
      * rewrite fmap_app, Hlog, seq_S. done.
      * destruct (buffer_size a <=? current_token st) eqn:Hgrow.
        -- unfold TOKEN_BUFFER_SIZE. lia.
        -- apply Nat.leb_gt in Hgrow. lia.
  - split; [done |]. split; [done |]. cbn. lia.
Qed.

Lemma split_loop_array_word (w rest : string) (st : split_state)
    (a : tokens_array) :
  all_chars ordinary w = true ->
  split_loop_array (w +:+ rest) st a = split_loop_array rest (store_string w st) a.
Proof.
  revert st. induction w as [|c w IH]; intros st Hw; [done |].
  cbn [all_chars] in Hw. apply andb_prop in Hw as [Hc Hw].
  destruct (ordinary_cases c Hc) as (Hn & Hq & Hd).
  rewrite append_cons, split_loop_array_cons, Hn, Hq, Hd.
  cbn [negb orb store_string]. by apply IH.
Qed.

Lemma split_loop_array_delimiter (d : ascii) (rest : string) (st : split_state)
    (a : tokens_array) :
  is_delimiter d = true -> in_quotes st = false ->
  split_loop_array (String d rest) st a
  = split_loop_array rest (end_token st) (end_token_array st a).
Proof.
  intros Hd Hq. rewrite split_loop_array_cons.
  destruct (delimiter_cases d Hd) as [-> ->]. by rewrite Hd, Hq.
Qed.

(** One more token fits after the [realloc] of [End_token]. *)
Lemma fits_end_token (st : split_state) (a : tokens_array) :
  j st <> 0 -> fits (current_token st) (buffer_size a) ->
  fits (S (current_token st)) (buffer_size (end_token_array st a)).
Proof.
  unfold fits, end_token_array, TOKEN_BUFFER_SIZE. cbn [buffer_size].
  intros _ [[m Hm] Hrange].
  destruct (buffer_size a <=? current_token st) eqn:Hgrow.
  - apply Nat.leb_le in Hgrow. split; [exists (S m); lia | lia].
  - apply Nat.leb_gt in Hgrow. split; [exists m; lia | lia].
Qed.

Lemma j_store_word (w : string) (st : split_state) :
  w <> "" -> j (store_string w st) <> 0.
Proof.
  intros Hw. unfold j. rewrite store_string_token, length_append.
  destruct w; [done |]. simpl. lia.
Qed.

Lemma current_token_store_string (w : string) (st : split_state) :
  current_token (store_string w st) = current_token st.
Proof. unfold current_token. by rewrite store_string_tokens. Qed.

Lemma split_loop_array_words (ws : list string) (st : split_state)
    (a : tokens_array) :
  Forall word ws -> ws <> [] -> in_quotes st = false -> token st = "" ->
  fits (current_token st) (buffer_size a) ->
  fits (current_token st + length ws)
    (buffer_size (split_loop_array (join_words ws) st a)).
Proof.
  intros Hws. revert st a.
  induction Hws as [|w ws [Hne Hw] Hws IH]; intros st a Hnil Hq Ht Hfits;
    [done |].
  assert (Hone : fits (S (current_token st))
                   (buffer_size (end_token_array (store_string w st) a))).
  { rewrite <- (current_token_store_string w st).
    apply fits_end_token; [by apply j_store_word |].
    by rewrite current_token_store_string. }
  destruct ws as [|w2 ws].
  - cbn [join_words length]. rewrite <- (append_nil_r w) at 1.
    rewrite split_loop_array_word by done. cbn [split_loop_array].
    by rewrite Nat.add_1_r.
  - change (join_words (w :: w2 :: ws))
      with (w +:+ String " " (join_words (w2 :: ws))).
    rewrite split_loop_array_word by done.
    rewrite split_loop_array_delimiter;
      [| done | by autorewrite with split_state].
    replace (current_token st + length (w :: w2 :: ws))
      with (current_token (end_token (store_string w st)) + length (w2 :: ws)).
    + apply IH; [done | by autorewrite with split_state
                 | by autorewrite with split_state |].
      rewrite current_token_end_token, current_token_store_string.
      by rewrite (proj2 (Nat.eqb_neq _ _) (j_store_word w st Hne)).
    + rewrite current_token_end_token, current_token_store_string.
      rewrite (proj2 (Nat.eqb_neq _ _) (j_store_word w st Hne)).
      cbn [length]. lia.
Qed.

(** For a line of [n] words with single spaces between them, [n] at
    least one: where the loop stops the capacity of [tokens] is the
    multiple of [TOKEN_BUFFER_SIZE] that [n] cells need, and
    [current_token] is [n].  So the final [tokens[current_token] = NULL] is
    a store at the capacity, one cell beyond the array, exactly when [n] is
    a multiple of [TOKEN_BUFFER_SIZE]. *)
Theorem tokens_array_terminator (ws : list string) :
  ws <> [] -> Forall word ws ->
  let a := split_loop_array (join_words ws) split_init array_init in
  let st := final_state (split_loop (join_words ws) split_init) in
  fits (length ws) (buffer_size a)
  /\ current_token st = length ws
  /\ (buffer_size a <= current_token st
      <-> Nat.divide TOKEN_BUFFER_SIZE (length ws)).
Proof.
  intros Hnil Hws a st.
  assert (Hfits : fits (length ws) (buffer_size a)).
  { apply (split_loop_array_words ws split_init array_init); try done.
    unfold fits, array_init, TOKEN_BUFFER_SIZE. cbn.
    split; [by exists 1 | lia]. }
  assert (Hct : current_token st = length ws).
  { destruct (split_loop_words ws split_init Hws eq_refl eq_refl)
      as (st' & Hrun & Htoks & _).
    unfold st, current_token. rewrite Hrun. cbn [final_state].
    by rewrite Htoks. }
  split; [done |]. split; [done |]. rewrite Hct.
  assert (Hpos : 0 < length ws) by (destruct ws; [done | simpl; lia]).
  destruct Hfits as [[m Hm] Hrange]. unfold TOKEN_BUFFER_SIZE in *.
  split.
  - intros Hle. exists m. lia.
  - intros [k Hk]. nia.
Qed.

Lemma tokens_array_terminator_witness :
  buffer_size (split_loop_array (join_words (replicate 32 "a")) split_init array_init)
  <= current_token (final_state (split_loop (join_words (replicate 32 "a")) split_init)).
Proof.
  assert (Hnil : replicate 32 "a" <> []) by discriminate.
  assert (Hws : Forall word (replicate 32 "a")).
  { apply Forall_replicate. split; [discriminate | reflexivity]. }
  apply (proj2 (proj2 (tokens_array_terminator _ Hnil Hws))).
  exists 1. reflexivity.
Defined.

(** ** Within the limits of the machine *)

Lemma int_fits_le (n : nat) : (Z.of_nat n <= INT_MAX)%Z -> int_fits n = true.
Proof. intros H. unfold int_fits. by apply Z.leb_le. Qed.

Lemma int_fits_inv (n : nat) : int_fits n = true -> (Z.of_nat n <= INT_MAX)%Z.
Proof. unfold int_fits. apply Z.leb_le. Qed.

Lemma stores_prefix (line : string) (st : split_state) :
  exists k, stores (final_state (split_loop line st)) = stores st ++ k.
Proof.
  apply (split_loop_invariant (fun st' => exists k, stores st' = stores st ++ k)).
  - intros c st' [k Hk]. exists (k ++ [j st']). cbn [store_char stores].
    by rewrite Hk, app_assoc.
  - intros st' [k Hk]. unfold end_token. destruct (j st' =? 0); [by exists k |].
    exists (k ++ [j st']). cbn [stores]. by rewrite Hk, app_assoc.
  - intros b st' [k Hk]. by exists k.
  - exists []. by rewrite app_nil_r.
Qed.

Lemma stores_step (line : string) (st : split_state) (i : nat) (k : list nat) :
  stores st = k ++ [i] ->
  Forall (fun i => i < MAX_WORD_SIZE) (stores (final_state (split_loop line st))) ->
  i < MAX_WORD_SIZE.
Proof.
  intros Hst H. destruct (stores_prefix line st) as [k' Hk'].
  rewrite Hk', Hst in H. apply Forall_app in H as [H _].
  apply Forall_app in H as [_ H]. by rewrite Forall_singleton in H.
Qed.

Lemma stores_within (line : string) :
  Forall (fun w => String.length w < MAX_WORD_SIZE)
    (words (split_loop line split_init)) ->
  Forall (fun i => i < MAX_WORD_SIZE)
    (stores (final_state (split_loop line split_init))).
Proof.
  intros Hw. pose proof (stores_covered_final line) as Hc.
  unfold words in Hw. apply Forall_app in Hw as [Htoks Htok].
  rewrite Forall_singleton in Htok.
  eapply Forall_impl; [exact Hc |]. intros i [Hi | Hi].
  - apply Exists_exists in Hi as (t & Ht & Hit).
    rewrite Forall_forall in Htoks. specialize (Htoks t Ht).
    cbv beta in Htoks. lia.
  - unfold j in Hi. lia.
Qed.

(** The capacity of [tokens] is a multiple of [TOKEN_BUFFER_SIZE], not
    zero, and [current_token] is never beyond it: a number of tokens that
    is no multiple leaves a cell for the final NULL. *)
Lemma terminator_room (line : string) :
  leaves_room (current_token (final_state (split_loop line split_init))) ->
  current_token (final_state (split_loop line split_init))
  < buffer_size (split_loop_array line split_init array_init).
Proof.
  pose proof (split_loop_array_invariant
    (fun st a => Nat.divide TOKEN_BUFFER_SIZE (buffer_size a)
                 /\ TOKEN_BUFFER_SIZE <= buffer_size a
                 /\ current_token st <= buffer_size a)) as Hinv.
  specialize (Hinv ltac:(done) ltac:(done)).
  destruct (Hinv) with (line := line) (st := split_init) (a := array_init)
    as ([m Hm] & Hpos & Hle).
  - intros st a ([m Hm] & Hpos & Hle). rewrite current_token_end_token.
    unfold end_token_array, TOKEN_BUFFER_SIZE in *. cbn [buffer_size].
    destruct (buffer_size a <=? current_token st) eqn:E;
      [apply Nat.leb_le in E | apply Nat.leb_gt in E];
      (split; [first [exists (S m); lia | exists m; lia] |]);
      destruct (j st =? 0); lia.
  - unfold array_init, TOKEN_BUFFER_SIZE. cbn. split; [by exists 1 | lia].
  - intros [H0 | Hdiv]; unfold TOKEN_BUFFER_SIZE in *; [lia |].
    destruct (decide (current_token (final_state (split_loop line split_init))
                      = buffer_size (split_loop_array line split_init array_init)))
      as [Heq | Hne]; [| lia].
    exfalso. apply Hdiv. exists m. lia.
Qed.

Lemma split_loop_error_message (line : string) (st st' : split_state)
    (message : string) :
  split_loop line st = ScanError message st' ->
  message = "Expected delimiter after end quote.".
Proof.
  revert st.
  induction line as [|c rest IHrest IHtail] using string_tail_ind; intros st;
    [done |].
  rewrite split_loop_cons.
  destruct (Ascii.eqb c NUL); [done |].
  destruct (Ascii.eqb c DQUOTE).
  - destruct (negb (in_quotes st)); [apply IHrest |].
    destruct (_ && _); [by intros [= <- _] |].
    destruct (Ascii.eqb (peek rest) NUL); [done | apply IHtail].
  - destruct (_ || _); apply IHrest.
Qed.

Section LimitsFacts.

Variable alloc_ok : nat -> bool.

Lemma split_loop_checked_cons (c : ascii) (rest : string) (i : nat)
    (ls : limited_state) :
  split_loop_checked alloc_ok (String c rest) i ls
  = if Ascii.eqb c NUL then end_token_checked alloc_ok ls
    else if Ascii.eqb c DQUOTE then
      if negb (in_quotes (lim_state ls)) then
        if negb (int_fits (i + 1)) then IntOverflows
        else split_loop_checked alloc_ok rest (i + 1)
               (with_state (set_in_quotes true (lim_state ls)) ls)
      else if negb (int_fits (i + 1)) then IntOverflows
      else if negb (is_delimiter (peek rest)) && negb (Ascii.eqb (peek rest) NUL)
      then RaisesError "Expected delimiter after end quote."
      else
        ls' ← end_token_checked alloc_ok
                (with_state (set_in_quotes false (lim_state ls)) ls);
        if Ascii.eqb (peek rest) NUL then Returns ls'
        else if negb (int_fits (i + 2)) then IntOverflows
        else split_loop_checked alloc_ok (string_tail rest) (i + 2) ls'
    else if negb (is_delimiter c) || in_quotes (lim_state ls) then
      ls' ← store_char_checked c ls;
      if negb (int_fits (i + 1)) then IntOverflows
      else split_loop_checked alloc_ok rest (i + 1) ls'
    else
      ls' ← end_token_checked alloc_ok ls;
      if negb (int_fits (i + 1)) then IntOverflows
      else split_loop_checked alloc_ok rest (i + 1) ls'.
Proof. destruct rest; reflexivity. Qed.

(** *** What a run that returns has done *)

Lemma store_char_checked_returns (c : ascii) (ls ls' : limited_state) :
  store_char_checked c ls = Returns ls' ->
  ls' = with_state (store_char c (lim_state ls)) ls
  /\ j (lim_state ls) < MAX_WORD_SIZE.
Proof.
  unfold store_char_checked.
  destruct (MAX_WORD_SIZE <=? j (lim_state ls)) eqn:Hj; [done |].
  apply Nat.leb_gt in Hj. by intros [= <-].
Qed.

Lemma end_token_checked_returns (ls ls' : limited_state) :
  end_token_checked alloc_ok ls = Returns ls' ->
  lim_state ls' = end_token (lim_state ls)
  /\ lim_array ls' = end_token_array (lim_state ls) (lim_array ls)
  /\ (j (lim_state ls) <> 0 -> j (lim_state ls) < MAX_WORD_SIZE).
Proof.
  unfold end_token_checked, allocate, mbind, checked_bind.
  destruct (buffer_size (lim_array ls) <=? current_token (lim_state ls)).
  - destruct (negb (int_fits _)); [done |].
    destruct (alloc_ok (lim_allocs ls)); [| done]. cbn [lim_allocs].
    destruct (j (lim_state ls) =? 0) eqn:Hj.
    { intros [= <-]. apply Nat.eqb_eq in Hj. done. }
    destruct (MAX_WORD_SIZE <=? j (lim_state ls)) eqn:Hmax; [done |].
    destruct (_ <=? current_token _); [done |].
    destruct (alloc_ok _); [| done].
    destruct (negb (int_fits _)); [done |].
    intros [= <-]. apply Nat.leb_gt in Hmax. done.
  - destruct (j (lim_state ls) =? 0) eqn:Hj.
    { intros [= <-]. apply Nat.eqb_eq in Hj. done. }
    destruct (MAX_WORD_SIZE <=? j (lim_state ls)) eqn:Hmax; [done |].
    destruct (_ <=? current_token _); [done |].
    destruct (alloc_ok _); [| done].
    destruct (negb (int_fits _)); [done |].
    intros [= <-]. apply Nat.leb_gt in Hmax. done.
Qed.

Lemma stores_end_token_bound (st : split_state) :
  (j st <> 0 -> j st < MAX_WORD_SIZE) ->
  Forall (fun i => i < MAX_WORD_SIZE) (stores st) ->
  Forall (fun i => i < MAX_WORD_SIZE) (stores (end_token st)).
Proof.
  intros Hj H. unfold end_token. destruct (j st =? 0) eqn:E; [done |].
  cbn [stores]. apply Forall_app. split; [done |].
  apply Forall_singleton, Hj. by apply Nat.eqb_neq.
Qed.

(** A run of the loop that returns has moved the state and the array as
    [split_loop] and [split_loop_array] say, and none of its stores into
    [token] is outside the block. *)
Lemma split_loop_checked_returns (line : string) (i : nat)
    (ls ls' : limited_state) :
  split_loop_checked alloc_ok line i ls = Returns ls' ->
  split_loop line (lim_state ls) = ScanEnd (lim_state ls')
  /\ split_loop_array line (lim_state ls) (lim_array ls) = lim_array ls'
  /\ (Forall (fun i => i < MAX_WORD_SIZE) (stores (lim_state ls)) ->
      Forall (fun i => i < MAX_WORD_SIZE) (stores (lim_state ls'))).
Proof.
  revert i ls.
  induction line as [|c rest IHrest IHtail] using string_tail_ind;
    intros i ls Hrun.
  - cbn [split_loop_checked split_loop split_loop_array] in *.
    apply end_token_checked_returns in Hrun as (-> & -> & Hj).
    split; [done |]. split; [done |]. by apply stores_end_token_bound.
  - rewrite split_loop_checked_cons in Hrun.
    rewrite split_loop_cons, split_loop_array_cons.
    destruct (Ascii.eqb c NUL).
    { apply end_token_checked_returns in Hrun as (-> & -> & Hj).
      split; [done |]. split; [done |]. by apply stores_end_token_bound. }
    destruct (Ascii.eqb c DQUOTE).
    + destruct (negb (in_quotes (lim_state ls))).
      * destruct (negb (int_fits (i + 1))); [done |].
        by apply IHrest in Hrun.
      * destruct (negb (int_fits (i + 1))); [done |].
        destruct (_ && _); [done |].
        destruct (end_token_checked alloc_ok _) as [ls1 | | |] eqn:Hend;
          try done.
        apply end_token_checked_returns in Hend as (Hst & Ha & Hj).
        cbn [with_state lim_state lim_array] in Hst, Ha, Hj.
        cbn [mbind checked_bind] in Hrun.
        destruct (Ascii.eqb (peek rest) NUL).
        -- injection Hrun as <-. rewrite Hst, Ha.
           split; [done |]. split; [done |].
           intros H. by apply stores_end_token_bound.
        -- destruct (negb (int_fits (i + 2))); [done |].
           apply IHtail in Hrun as (Hrun & Harr & Hb).
           rewrite Hst in Hrun, Hb. rewrite Hst, Ha in Harr.
           split; [done |]. split; [done |].
           intros H. by apply Hb, stores_end_token_bound.
    + destruct (_ || _).
      * destruct (store_char_checked c ls) as [ls1 | | |] eqn:Hstore; try done.
        apply store_char_checked_returns in Hstore as [-> Hj].
        cbn [mbind checked_bind] in Hrun.
        destruct (negb (int_fits (i + 1))); [done |].
        apply IHrest in Hrun as (Hrun & Harr & Hb).
        cbn [with_state lim_state lim_array] in Hrun, Harr, Hb.
        split; [done |]. split; [done |].
        intros H. apply Hb. cbn [store_char stores].
        apply Forall_app. split; [done |]. by apply Forall_singleton.
      * destruct (end_token_checked alloc_ok ls) as [ls1 | | |] eqn:Hend;
          try done.
        apply end_token_checked_returns in Hend as (Hst & Ha & Hj).
        cbn [mbind checked_bind] in Hrun.
        destruct (negb (int_fits (i + 1))); [done |].
        apply IHrest in Hrun as (Hrun & Harr & Hb).
        rewrite Hst in Hrun, Hb. rewrite Hst, Ha in Harr.
        split; [done |]. split; [done |].
        intros H. by apply Hb, stores_end_token_bound.
Qed.

(** When [split_line] returns, it returns what [split_line] of the
    plain scan says, every store into [token] was inside the block, and
    the final NULL went into the array. *)
Lemma split_line_checked_returns (line : string) (toks : list string) :
  split_line_checked alloc_ok line = Returns toks ->
  split_line line = Val toks
  /\ Forall (fun i => i < MAX_WORD_SIZE)
       (stores (final_state (split_loop line split_init)))
  /\ length toks < buffer_size (split_loop_array line split_init array_init).
Proof.
  unfold split_line_checked, allocate. cbn [lim_allocs].
  destruct (alloc_ok 0); [| done]. cbn [mbind checked_bind lim_allocs].
  destruct (alloc_ok 1); [| done].
  cbn [mbind checked_bind lim_allocs lim_state lim_array].
  destruct (split_loop_checked alloc_ok line 0 _) as [ls | | |] eqn:Hrun;
    try done.
  apply split_loop_checked_returns in Hrun as (Hrun & Harr & Hb).
  cbn [lim_state lim_array] in Hrun, Harr, Hb.
  cbn [mbind checked_bind].
  destruct (in_quotes (lim_state ls)) eqn:Hq; [done |].
  destruct (buffer_size (lim_array ls) <=? current_token (lim_state ls)) eqn:E;
    [done |].
  intros [= <-]. unfold split_line. rewrite Hrun, Hq, Harr. cbn [final_state].
  split; [done |]. split; [by apply Hb, Forall_nil_2 |].
  by apply Nat.leb_gt in E.
Qed.

(** *** Runs that stay within the limits *)

Hypothesis alloc_always : forall k, alloc_ok k = true.

Lemma end_token_checked_within (ls : limited_state) :
  let st := lim_state ls in
  let a := lim_array ls in
  (buffer_size a <= current_token st ->
   int_fits (buffer_size a + TOKEN_BUFFER_SIZE) = true) ->
  (j st <> 0 -> j st < MAX_WORD_SIZE /\ int_fits (current_token st + 1) = true) ->
  current_token st <= buffer_size a ->
  exists k,
    end_token_checked alloc_ok ls
    = Returns {| lim_state := end_token st; lim_array := end_token_array st a;
                 lim_allocs := k |}.
Proof.
  intros st a Hgrow Hj Hle.
  unfold end_token_checked, allocate, mbind, checked_bind. fold st a.
  assert (Hsize : current_token st < buffer_size (end_token_array st a)).
  { unfold end_token_array. cbn [buffer_size].
    destruct (buffer_size a <=? current_token st) eqn:E.
    - unfold TOKEN_BUFFER_SIZE. lia.
    - by apply Nat.leb_gt in E. }
  apply Nat.leb_gt in Hsize.
  destruct (buffer_size a <=? current_token st) eqn:E.
  - apply Nat.leb_le in E. rewrite (Hgrow E), alloc_always. cbn [negb lim_allocs].
    destruct (j st =? 0) eqn:Ej; [by eexists |].
    apply Nat.eqb_neq in Ej. destruct (Hj Ej) as [Hmax Hfit].
    apply Nat.leb_gt in Hmax. rewrite Hmax, Hsize, alloc_always, Hfit.
    by eexists.
  - destruct (j st =? 0) eqn:Ej; [by eexists |].
    apply Nat.eqb_neq in Ej. destruct (Hj Ej) as [Hmax Hfit].
    apply Nat.leb_gt in Hmax. rewrite Hmax, Hsize, alloc_always, Hfit.
    by eexists.
Qed.

Lemma in_step_end_token (i i' k : nat) (ls : limited_state) :
  in_step i ls -> i <= i' ->
  in_step i' {| lim_state := end_token (lim_state ls);
                lim_array := end_token_array (lim_state ls) (lim_array ls);
                lim_allocs := k |}.
Proof.
  intros (Hi & Hsize & Hle) Hii. unfold in_step. cbn [lim_state lim_array].
  rewrite current_token_end_token. unfold end_token_array. cbn [buffer_size].
  unfold TOKEN_BUFFER_SIZE in *.
  assert (j (end_token (lim_state ls)) = 0) as ->
    by (unfold j; by rewrite end_token_token).
  destruct (j (lim_state ls) =? 0) eqn:Ej;
    [apply Nat.eqb_eq in Ej | apply Nat.eqb_neq in Ej];
    (destruct (buffer_size (lim_array ls) <=? current_token (lim_state ls)) eqn:E;
      [apply Nat.leb_le in E | apply Nat.leb_gt in E]); lia.
Qed.

Lemma stores_end_token_last (st : split_state) :
  j st <> 0 -> stores (end_token st) = stores st ++ [j st].
Proof.
  intros Hj. unfold end_token. by rewrite (proj2 (Nat.eqb_neq _ _) Hj).
Qed.

Lemma store_char_checked_within (c : ascii) (ls : limited_state) :
  j (lim_state ls) < MAX_WORD_SIZE ->
  store_char_checked c ls = Returns (with_state (store_char c (lim_state ls)) ls).
Proof.
  intros Hj. unfold store_char_checked. apply Nat.leb_gt in Hj. by rewrite Hj.
Qed.

Lemma in_step_fits (i n extra : nat) :
  (Z.of_nat (i + extra + TOKEN_BUFFER_SIZE) <= INT_MAX)%Z ->
  n <= i + extra + TOKEN_BUFFER_SIZE -> int_fits n = true.
Proof. intros H Hn. apply int_fits_le. lia. Qed.

(** The block at [End_token] in a run within the limits. *)
Lemma end_token_checked_in_step (line : string) (i extra : nat)
    (ls : limited_state) :
  (Z.of_nat (i + extra + TOKEN_BUFFER_SIZE) <= INT_MAX)%Z ->
  in_step i ls ->
  Forall (fun i => i < MAX_WORD_SIZE)
    (stores (final_state (split_loop line (end_token (lim_state ls))))) ->
  exists k,
    end_token_checked alloc_ok ls
    = Returns {| lim_state := end_token (lim_state ls);
                 lim_array := end_token_array (lim_state ls) (lim_array ls);
                 lim_allocs := k |}.
Proof.
  intros Hmax (Hi & Hsize & Hle) Hstores.
  apply end_token_checked_within; [| | done].
  - intros Hgrow. apply (in_step_fits i _ extra Hmax). lia.
  - intros Hj. split.
    + eapply stores_step; [by apply stores_end_token_last | exact Hstores].
    + apply (in_step_fits i _ extra Hmax). lia.
Qed.

(** Within the limits the loop ends as [split_loop] says, with the array
    of [split_loop_array]. *)
Lemma split_loop_checked_within (line : string) (i : nat) (ls : limited_state) :
  (Z.of_nat (i + String.length line + TOKEN_BUFFER_SIZE) <= INT_MAX)%Z ->
  in_step i ls ->
  Forall (fun i => i < MAX_WORD_SIZE)
    (stores (final_state (split_loop line (lim_state ls)))) ->
  match split_loop line (lim_state ls) with
  | ScanEnd st' =>
    exists k,
      split_loop_checked alloc_ok line i ls
      = Returns {| lim_state := st';
                   lim_array := split_loop_array line (lim_state ls) (lim_array ls);
                   lim_allocs := k |}
  | ScanError message _ =>
    split_loop_checked alloc_ok line i ls = RaisesError message
  end.
Proof.
  revert i ls.
  induction line as [|c rest IHrest IHtail] using string_tail_ind;
    intros i ls Hmax Hstep Hstores.
  - cbn [split_loop split_loop_checked split_loop_array final_state] in *.
    apply (end_token_checked_in_step "" i 0); [lia | done |].
    cbn [split_loop final_state]. by rewrite end_token_idem.
  - rewrite split_loop_checked_cons, split_loop_array_cons.
    rewrite split_loop_cons in Hstores |- *.
    cbn [String.length] in Hmax.
    destruct (Ascii.eqb c NUL).
    { cbn [final_state] in Hstores.
      apply (end_token_checked_in_step "" i 0); [lia | done |].
      cbn [split_loop final_state]. by rewrite end_token_idem. }
    destruct (Ascii.eqb c DQUOTE).
    + destruct (in_quotes (lim_state ls)); cbn [negb] in Hstores |- *.
      * rewrite (in_step_fits i (i + 1) (S (String.length rest))) by (done || lia).
        cbn [negb].
        destruct (_ && _); [done |].
        assert (Hstep' : in_step i (with_state (set_in_quotes false (lim_state ls)) ls))
          by exact Hstep.
        destruct (Ascii.eqb (peek rest) NUL) eqn:Hpeek.
        -- cbn [final_state] in Hstores.
           destruct (end_token_checked_in_step "" i (S (String.length rest))
                       _ Hmax Hstep') as [k Hk].
           { cbn [split_loop final_state with_state lim_state].
             by rewrite end_token_idem. }
           rewrite Hk. cbn [mbind checked_bind with_state lim_state lim_array].
           by eexists.
        -- destruct (end_token_checked_in_step (string_tail rest) i
                       (S (String.length rest)) _ Hmax Hstep') as [k Hk];
             [exact Hstores |].
           rewrite Hk. cbn [mbind checked_bind with_state lim_state lim_array].
           destruct rest as [|d rest']; [done |].
           cbn [string_tail String.length] in *.
           rewrite (in_step_fits i (i + 2) (S (S (String.length rest'))))
             by (done || lia).
           cbn [negb].
           apply (IHtail (i + 2)
                    {| lim_state := end_token (set_in_quotes false (lim_state ls));
                       lim_array := end_token_array
                                      (set_in_quotes false (lim_state ls))
                                      (lim_array ls);
                       lim_allocs := k |}); [lia | | exact Hstores].
           apply (in_step_end_token i (i + 2) k _ Hstep'). lia.
      * rewrite (in_step_fits i (i + 1) (S (String.length rest))) by (done || lia).
        cbn [negb].
        apply (IHrest (i + 1) (with_state (set_in_quotes true (lim_state ls)) ls));
          [lia | | exact Hstores].
        destruct Hstep as (H1 & H2 & H3). repeat split; cbn; [| lia | done].
        change (current_token (lim_state ls) + j (lim_state ls) <= i + 1). lia.
    + destruct (_ || _).
      * rewrite store_char_checked_within
          by exact (stores_step rest (store_char c (lim_state ls)) _
                      (stores (lim_state ls)) eq_refl Hstores).
        cbn [mbind checked_bind].
        rewrite (in_step_fits i (i + 1) (S (String.length rest))) by (done || lia).
        cbn [negb].
        apply (IHrest (i + 1) (with_state (store_char c (lim_state ls)) ls));
          [lia | | exact Hstores].
        destruct Hstep as (H1 & H2 & H3). unfold in_step.
        cbn [with_state lim_state lim_array]. rewrite j_store_char.
        change (current_token (store_char c (lim_state ls)))
          with (current_token (lim_state ls)). lia.
      * destruct (end_token_checked_in_step rest i (S (String.length rest))
                    _ Hmax Hstep) as [k Hk]; [exact Hstores |].
        rewrite Hk. cbn [mbind checked_bind].
        rewrite (in_step_fits i (i + 1) (S (String.length rest))) by (done || lia).
        cbn [negb].
        apply (IHrest (i + 1)
                 {| lim_state := end_token (lim_state ls);
                    lim_array := end_token_array (lim_state ls) (lim_array ls);
                    lim_allocs := k |}); [lia | | exact Hstores].
        apply (in_step_end_token i (i + 1) k _ Hstep). lia.
Qed.

(** [split_line] within the limits: what [split_line] says, but for the
    final NULL, which is stored outside the array when no cell is left. *)
Lemma split_line_checked_within (line : string) :
  within_limits line ->
  split_line_checked alloc_ok line
  = match split_line line with
    | Val toks =>
      if buffer_size (split_loop_array line split_init array_init) <=? length toks
      then StoresOutOfBounds else Returns toks
    | Raise message => RaisesError message
    end.
Proof.
  intros [Hmax Hwords].
  assert (H := split_loop_checked_within line 0
    {| lim_state := split_init; lim_array := array_init; lim_allocs := 2 |}
    Hmax ltac:(repeat split; vm_compute; lia)
    (stores_within line Hwords)).
  cbn [lim_state lim_array] in H.
  unfold split_line_checked, allocate. rewrite alloc_always.
  cbn [mbind checked_bind lim_allocs lim_state lim_array].
  rewrite alloc_always. cbn [mbind checked_bind lim_allocs lim_state lim_array].
  unfold split_line.
  destruct (split_loop line split_init) as [st' | message st'].
  - destruct H as [k ->]. cbn [mbind checked_bind lim_state lim_array].
    by destruct (in_quotes st').
  - by rewrite H.
Qed.

End LimitsFacts.

(** ** Words, quoted and not, within the limits *)

Lemma within_limits_tokens (line : string) (st : split_state) :
  split_loop line split_init = ScanEnd st -> token st = "" ->
  (Z.of_nat (String.length line + TOKEN_BUFFER_SIZE) <= INT_MAX)%Z ->
  Forall (fun w => String.length w < MAX_WORD_SIZE) (tokens st) ->
  within_limits line.
Proof.
  intros Hrun Ht Hmax Hws. split; [done |].
  unfold words. rewrite Hrun. cbn [final_state]. rewrite Ht.
  apply Forall_app. split; [done |]. apply Forall_singleton.
  unfold MAX_WORD_SIZE. simpl. lia.
Qed.

(** What [split_line] returns on a line that [split_loop] scans to the
    end outside quotes, within the limits. *)
Lemma split_line_checked_tokens (alloc_ok : nat -> bool) (line : string)
    (st : split_state) :
  (forall k, alloc_ok k = true) ->
  split_loop line split_init = ScanEnd st ->
  token st = "" -> in_quotes st = false ->
  (Z.of_nat (String.length line + TOKEN_BUFFER_SIZE) <= INT_MAX)%Z ->
  Forall (fun w => String.length w < MAX_WORD_SIZE) (tokens st) ->
  leaves_room (length (tokens st)) ->
  split_line_checked alloc_ok line = Returns (tokens st).
Proof.
  intros Halloc Hrun Ht Hq Hmax Hws Hroom.
  rewrite split_line_checked_within;
    [| done | by apply (within_limits_tokens line st)].
  pose proof (terminator_room line) as Hterm.
  unfold split_line. rewrite Hrun in Hterm |- *. cbn [final_state] in Hterm.
  rewrite Hq. specialize (Hterm Hroom). apply Nat.leb_gt in Hterm.
  unfold current_token in Hterm. by rewrite Hterm.
Qed.

(** Words of fewer than [MAX_WORD_SIZE] characters joined by single
    spaces split into the same words, when their number leaves a cell for
    the final NULL, the line is short enough for the [int] variables and
    every allocation succeeds.  [split_line] does not return when a word
    has [MAX_WORD_SIZE] characters or more (a store is outside [token]),
    nor when the number of words is a multiple of [TOKEN_BUFFER_SIZE] (the
    final NULL is outside [tokens]). *)
Theorem split_join_words (alloc_ok : nat -> bool) (ws : list string) :
  Forall word ws ->
  ((forall k, alloc_ok k = true) ->
   Forall (fun w => String.length w < MAX_WORD_SIZE) ws ->
   leaves_room (length ws) ->
   (Z.of_nat (String.length (join_words ws) + TOKEN_BUFFER_SIZE) <= INT_MAX)%Z ->
   split_line_checked alloc_ok (join_words ws) = Returns ws)
  /\ (Exists (fun w => MAX_WORD_SIZE <= String.length w) ws ->
      forall toks, split_line_checked alloc_ok (join_words ws) <> Returns toks)
  /\ (ws <> [] -> Nat.divide TOKEN_BUFFER_SIZE (length ws) ->
      forall toks, split_line_checked alloc_ok (join_words ws) <> Returns toks).
Proof.
  intros Hws.
  destruct (split_loop_words ws split_init Hws eq_refl eq_refl)
    as (st' & Hrun & Htoks & Htok & Hq).
  cbn [split_init tokens app] in Htoks.
  split; [| split].
  - intros Halloc Hlen Hroom Hmax.
    pose proof (split_line_checked_tokens alloc_ok _ st' Halloc Hrun Htok Hq Hmax)
      as H.
    rewrite Htoks in H. by apply H.
  - intros Hex toks Hret.
    apply split_line_checked_returns in Hret as (_ & Hstores & _).
    pose proof (terminators_logged_final (join_words ws)) as Hlog.
    rewrite Hrun in Hstores, Hlog. cbn [final_state] in Hstores, Hlog.
    unfold terminators_logged in Hlog. rewrite Htoks in Hlog.
    apply Exists_exists in Hex as (w & Hw & Hlong).
    rewrite Forall_forall in Hlog. rewrite Forall_forall in Hstores.
    specialize (Hstores _ (Hlog w Hw)). cbv beta in Hstores. lia.
  - intros Hnil Hdiv toks Hret.
    apply split_line_checked_returns in Hret as (Hval & _ & Hroom).
    unfold split_line in Hval. rewrite Hrun, Hq, Htoks in Hval.
    injection Hval as <-.
    destruct (split_loop_array_words ws split_init array_init Hws Hnil
                eq_refl eq_refl) as [[m Hm] Hrange].
    { unfold fits, array_init, TOKEN_BUFFER_SIZE. cbn.
      split; [by exists 1 | lia]. }
    cbn [split_init current_token tokens length Nat.add] in Hrange.
    destruct Hdiv as [n Hn]. unfold TOKEN_BUFFER_SIZE in *.
    assert (0 < length ws) by (destruct ws; [done | simpl; lia]).
    nia.
Qed.

Lemma split_join_words_witness :
  Forall word ["ls"; "-l"; "/tmp"]
  /\ split_line_checked (fun _ => true) (join_words ["ls"; "-l"; "/tmp"])
     = Returns ["ls"; "-l"; "/tmp"].
Proof.
  assert (Hws : Forall word ["ls"; "-l"; "/tmp"])
    by (repeat constructor; discriminate).
  split; [exact Hws |].
  apply (proj1 (split_join_words (fun _ => true) ["ls"; "-l"; "/tmp"] Hws)).
  - reflexivity.
  - repeat constructor.
  - right. intros [m Hm]. unfold TOKEN_BUFFER_SIZE in Hm. simpl length in Hm. lia.
  - vm_compute. discriminate.
Defined.

(** Texts of fewer than [MAX_WORD_SIZE] characters put in quotes and
    joined by single spaces split into the same texts, whatever delimiters
    they contain, when their number leaves a cell for the final NULL, the
    line is short enough for the [int] variables and every allocation
    succeeds. *)
Theorem split_join_quoted (alloc_ok : nat -> bool) (ws : list string) :
  (forall k, alloc_ok k = true) ->
  Forall quotable ws ->
  Forall (fun w => String.length w < MAX_WORD_SIZE) ws ->
  leaves_room (length ws) ->
  (Z.of_nat (String.length (join_words (quoted <$> ws)) + TOKEN_BUFFER_SIZE)
   <= INT_MAX)%Z ->
  split_line_checked alloc_ok (join_words (quoted <$> ws)) = Returns ws.
Proof.
  intros Halloc Hws Hlen Hroom Hmax.
  destruct (split_loop_quoted_words ws split_init Hws eq_refl eq_refl)
    as (st' & Hrun & Htoks & Htok & Hq).
  cbn [split_init tokens app] in Htoks.
  pose proof (split_line_checked_tokens alloc_ok _ st' Halloc Hrun Htok Hq Hmax)
    as H.
  rewrite Htoks in H. by apply H.
Qed.

Lemma split_join_quoted_witness :
  split_line_checked (fun _ => true)
    (join_words (quoted <$> ["hello world"; "a	b"; "x"]))
  = Returns ["hello world"; "a	b"; "x"].
Proof.
  apply split_join_quoted.
  - reflexivity.
  - repeat constructor; discriminate.
  - repeat constructor.
  - right. intros [m Hm]. unfold TOKEN_BUFFER_SIZE in Hm. simpl length in Hm. lia.
  - vm_compute. discriminate.
Defined.

(** ** What the tokens are made of, within the limits *)

(** On a line without a quote, whenever [split_line] returns, its tokens
    are words (non-empty, without delimiter, quote or NUL), and put end to
    end they are the characters of the line that are no delimiters: none
    is lost, none is added.  It does return when every word has fewer than
    [MAX_WORD_SIZE] characters, the number of words leaves a cell for the
    final NULL, the line is short enough for the [int] variables and every
    allocation succeeds. *)
Theorem split_line_no_quote (alloc_ok : nat -> bool) (line : string) :
  all_chars not_quote line = true ->
  (forall toks,
     split_line_checked alloc_ok line = Returns toks ->
     Forall word toks
     /\ string_concat toks = string_filter not_delimiter (cstring line))
  /\ ((forall k, alloc_ok k = true) ->
      within_limits line ->
      leaves_room (current_token (final_state (split_loop line split_init))) ->
      exists toks, split_line_checked alloc_ok line = Returns toks).
Proof.
  intros Hline.
  destruct (split_loop_no_quote line split_init Hline eq_refl)
    as (st' & Hrun & Hq & Ht & Hcat & Hw).
  split.
  - intros toks Hret.
    apply split_line_checked_returns in Hret as (Hval & _ & _).
    unfold split_line in Hval. rewrite Hrun, Hq in Hval. injection Hval as <-.
    split; [by apply Hw |]. by rewrite Hcat.
  - intros Halloc Hlim Hroom. exists (tokens st').
    rewrite split_line_checked_within by done.
    apply terminator_room in Hroom. unfold split_line.
    rewrite Hrun in Hroom |- *. cbn [final_state] in Hroom. rewrite Hq.
    apply Nat.leb_gt in Hroom. unfold current_token in Hroom.
    by rewrite Hroom.
Qed.

Lemma split_line_no_quote_witness :
  all_chars not_quote " ls  -l /tmp " = true
  /\ exists toks,
       split_line_checked (fun _ => true) " ls  -l /tmp " = Returns toks
       /\ Forall word toks
       /\ string_concat toks
          = string_filter not_delimiter (cstring " ls  -l /tmp ").
Proof.
  assert (Hline : all_chars not_quote " ls  -l /tmp " = true) by reflexivity.
  split; [exact Hline |].
  destruct (proj2 (split_line_no_quote (fun _ => true) _ Hline)) as [toks Hret].
  - reflexivity.
  - split; [vm_compute; discriminate |].
    vm_compute. repeat constructor.
  - right. intros [m Hm]. vm_compute in Hm. destruct m; discriminate.
  - exists toks. split; [exact Hret |].
    exact (proj1 (split_line_no_quote (fun _ => true) _ Hline) toks Hret).
Defined.

(** ** Quotes come in pairs, within the limits *)

(** [split_line] returns only on a line with an even number of quotes
    (before its first NUL).  With an odd number, in a run within the
    limits, it is in [raise_error] with one of the two messages about
    quotes. *)
Theorem quotes_even (alloc_ok : nat -> bool) :
  (forall line toks, split_line line = Val toks ->
     odd_quotes (cstring line) = false)
  /\ (forall line toks, split_line_checked alloc_ok line = Returns toks ->
        odd_quotes (cstring line) = false)
  /\ (forall line,
        odd_quotes (cstring line) = true ->
        (forall k, alloc_ok k = true) ->
        within_limits line ->
        exists message,
          split_line_checked alloc_ok line = RaisesError message
          /\ (message = "Parsing ended unexpectedly."
              \/ message = "Expected delimiter after end quote.")).
Proof.
  assert (H : forall line toks, split_line line = Val toks ->
                odd_quotes (cstring line) = false).
  { intros line toks. unfold split_line.
    destruct (split_loop line split_init) as [st | m st] eqn:Hrun; [| done].
    apply split_loop_quote_parity in Hrun. cbn [split_init in_quotes xorb] in Hrun.
    destruct (in_quotes st); [done |]. intros _.
    by destruct (odd_quotes (cstring line)). }
  split; [done |]. split.
  - intros line toks Hret.
    apply split_line_checked_returns in Hret as (Hval & _). by apply (H line toks).
  - intros line Hodd Halloc Hlim. rewrite split_line_checked_within by done.
    destruct (split_line line) as [toks | message] eqn:Hs.
    { apply H in Hs. congruence. }
    exists message. split; [done |]. unfold split_line in Hs.
    destruct (split_loop line split_init) as [st | m st] eqn:Hrun.
    + destruct (in_quotes st); [| done]. injection Hs as <-. by left.
    + injection Hs as <-. right. by apply split_loop_error_message in Hrun.
Qed.

Lemma quotes_even_witness :
  odd_quotes (cstring ("say " +:+ quoted "a b" +:+ " " +:+ quoted "c")) = false
  /\ exists message,
       split_line_checked (fun _ => true)
         ("a " +:+ quoted "b" +:+ String DQUOTE "")
       = RaisesError message
       /\ (message = "Parsing ended unexpectedly."
           \/ message = "Expected delimiter after end quote.").
Proof.
  split.
  - apply (proj1 (proj2 (quotes_even (fun _ => true))) _ ["say"; "a b"; "c"]).
    reflexivity.
  - apply (proj2 (proj2 (quotes_even (fun _ => true)))).
    + reflexivity.
    + reflexivity.
    + split; [vm_compute; discriminate |]. vm_compute. repeat constructor.
Defined.

(** ** Reading a line *)

Lemma read_grow_buffer (rs : read_state) :
  line_buffer (read_grow rs) = line_buffer rs.
Proof. unfold read_grow. by destruct (_ <=? _). Qed.

Lemma read_chars_buffer (l : string) (rs : read_state) :
  line_buffer (read_chars l rs) = line_buffer rs +:+ l.
Proof.
  revert rs. induction l as [|c l IH]; intros rs; cbn [read_chars].
  - by rewrite append_nil_r.
  - rewrite IH. cbn [read_store line_buffer].
    by rewrite read_grow_buffer, append_assoc.
Qed.

Lemma read_loop_chars (l stdin : string) (rs : read_state) :
  all_chars not_newline l = true ->
  read_loop (l +:+ stdin) rs = read_loop stdin (read_chars l rs).
Proof.
  revert rs. induction l as [|c l IH]; intros rs Hl; [done |].
  cbn [all_chars] in Hl. apply andb_prop in Hl as [Hc Hl].
  unfold not_newline in Hc. apply negb_true_iff in Hc.
  rewrite append_cons. cbn [read_loop read_chars]. rewrite Hc. by apply IH.
Qed.

(** What [read_loop] makes of a first line. *)
Lemma read_loop_first_line (l rest : string) :
  all_chars not_newline l = true ->
  jshell_read_line (l +:+ String NEWLINE rest) = (l, rest)
  /\ jshell_read_line l = (l, "").
Proof.
  intros Hl. unfold jshell_read_line. split.
  - rewrite read_loop_chars by done. cbn [read_loop].
    change (Ascii.eqb NEWLINE NEWLINE) with true. cbv iota.
    cbn [read_end line_buffer].
    by rewrite read_grow_buffer, read_chars_buffer.
  - rewrite <- (append_nil_r l) at 1. rewrite read_loop_chars by done.
    cbn [read_loop read_end line_buffer].
    by rewrite read_grow_buffer, read_chars_buffer.
Qed.

Lemma position_read_grow (rs : read_state) : position (read_grow rs) = position rs.
Proof. unfold position. by rewrite read_grow_buffer. Qed.

Lemma read_grow_size (rs : read_state) :
  position rs <= line_buffer_size rs ->
  position rs < line_buffer_size (read_grow rs).
Proof.
  unfold read_grow. intros Hle.
  destruct (line_buffer_size rs <=? position rs) eqn:Hgrow;
    cbn [line_buffer_size].
  - unfold JSHELL_LINE_BUFFER_SIZE. lia.
  - apply Nat.leb_gt in Hgrow. lia.
Qed.

Lemma read_grow_stores (rs : read_state) :
  line_stores (read_grow rs) = line_stores rs.
Proof. unfold read_grow. by destruct (_ <=? _). Qed.

Lemma read_loop_stores (stdin : string) (rs : read_state) :
  position rs <= line_buffer_size rs ->
  Forall (fun s => s.1 < s.2) (line_stores rs) ->
  (line_stores rs).*1 = seq 0 (position rs) ->
  Forall (fun s => s.1 < s.2) (line_stores (read_loop stdin rs).1)
  /\ (line_stores (read_loop stdin rs).1).*1
     = seq 0 (S (String.length (line_buffer (read_loop stdin rs).1))).
Proof.
  revert rs. induction stdin as [|c stdin IH]; intros rs Hle Hstores Hlog.
  - cbn [read_loop fst read_end line_stores line_buffer].
    rewrite read_grow_stores, read_grow_buffer, position_read_grow. split.
    + apply Forall_app. split; [done |]. apply Forall_singleton.
      by apply read_grow_size.
    + rewrite fmap_app, Hlog, seq_S. done.
  - cbn [read_loop]. destruct (Ascii.eqb c NEWLINE).
    + cbn [fst read_end line_stores line_buffer].
      rewrite read_grow_stores, read_grow_buffer, position_read_grow. split.
      * apply Forall_app. split; [done |]. apply Forall_singleton.
        by apply read_grow_size.
      * rewrite fmap_app, Hlog, seq_S. done.
    + pose proof (read_grow_size rs Hle) as Hlt.
      apply IH.
      * unfold position at 1. cbn [read_store line_buffer line_buffer_size].
        rewrite length_append, read_grow_buffer.
        change (String.length (String c "")) with 1.
        unfold position in Hlt. lia.
      * cbn [read_store line_stores]. rewrite read_grow_stores, position_read_grow.
        apply Forall_app. split; [done |]. by apply Forall_singleton.
      * cbn [read_store line_stores]. rewrite read_grow_stores, position_read_grow.
        unfold position at 2. cbn [read_store line_buffer].
        rewrite length_append, read_grow_buffer, fmap_app, Hlog.
        change (String.length (String c "")) with 1.
        rewrite Nat.add_1_r, seq_S. done.
Qed.

(** *** Within the limits *)

Section ReadLimits.

Variable alloc_ok : nat -> bool.

Lemma read_grow_checked_returns (rs rs' : read_state) (allocs k : nat) :
  read_grow_checked alloc_ok rs allocs = Returns (rs', k) ->
  rs' = read_grow rs
  /\ (int_fits (line_buffer_size rs) = true ->
      int_fits (line_buffer_size rs') = true).
Proof.
  unfold read_grow_checked, read_grow.
  destruct (line_buffer_size rs <=? position rs).
  - destruct (negb (int_fits _)) eqn:Hfit; [done |].
    apply negb_false_iff in Hfit.
    destruct (alloc_ok allocs); [| done]. by intros [= <- <-].
  - by intros [= <- <-].
Qed.

(** When the loop returns, it returns what [read_loop] says, and the
    capacity is in the range of [int]. *)
Lemma read_loop_checked_returns (stdin : string) (rs : read_state)
    (allocs : nat) (r : read_state * string) :
  read_loop_checked alloc_ok stdin rs allocs = Returns r ->
  int_fits (line_buffer_size rs) = true ->
  r = read_loop stdin rs /\ int_fits (line_buffer_size r.1) = true.
Proof.
  revert rs allocs.
  induction stdin as [|c rest IH]; intros rs allocs;
    cbn [read_loop_checked read_loop];
    destruct (read_grow_checked alloc_ok rs allocs) as [[rs' k] | | |] eqn:Hgrow;
    try done;
    apply read_grow_checked_returns in Hgrow as [-> Hsize];
    cbn [mbind checked_bind fst snd];
    destruct (line_buffer_size (read_grow rs) <=? position (read_grow rs));
    try done.
  - intros [= <-] Hfit. split; [done |]. by apply Hsize.
  - destruct (Ascii.eqb c NEWLINE).
    { intros [= <-] Hfit. split; [done |]. by apply Hsize. }
    destruct (negb (int_fits _)); [done |].
    intros Hrun Hfit. apply IH in Hrun; [done |]. by apply Hsize.
Qed.

Hypothesis alloc_always : forall k, alloc_ok k = true.

Lemma read_grow_checked_within (rs : read_state) (allocs : nat) :
  (line_buffer_size rs <= position rs ->
   int_fits (line_buffer_size rs + JSHELL_LINE_BUFFER_SIZE) = true) ->
  exists k, read_grow_checked alloc_ok rs allocs = Returns (read_grow rs, k).
Proof.
  intros Hfit. unfold read_grow_checked, read_grow.
  destruct (line_buffer_size rs <=? position rs) eqn:Hgrow; [| by eexists].
  apply Nat.leb_le in Hgrow. rewrite (Hfit Hgrow), alloc_always. by eexists.
Qed.

(** The turns of the loop for the characters of a line within the range
    of [int], and its last turn at the newline or at the end of the
    input. *)
Lemma read_loop_checked_within (l stdin : string) (rs : read_state)
    (allocs : nat) :
  all_chars not_newline l = true ->
  stdin = "" \/ (exists rest, stdin = String NEWLINE rest) ->
  position rs <= line_buffer_size rs ->
  line_buffer_size rs <= position rs + JSHELL_LINE_BUFFER_SIZE ->
  (Z.of_nat (position rs + String.length l + JSHELL_LINE_BUFFER_SIZE)
   <= INT_MAX)%Z ->
  read_loop_checked alloc_ok (l +:+ stdin) rs allocs
  = Returns (read_loop (l +:+ stdin) rs).
Proof.
  revert rs allocs.
  induction l as [|c l IH]; intros rs allocs Hl Hstdin Hle Hsize Hmax.
  - change ("" +:+ stdin) with stdin.
    destruct (read_grow_checked_within rs allocs) as [k Hk].
    { intros Hg. apply int_fits_le. cbn [String.length] in Hmax. lia. }
    pose proof (read_grow_size rs Hle) as Hlt. rewrite <- position_read_grow in Hlt.
    apply Nat.leb_gt in Hlt.
    destruct Hstdin as [-> | [rest ->]]; cbn [read_loop_checked read_loop];
      rewrite Hk; cbn [mbind checked_bind fst snd]; rewrite Hlt; [done |].
    change (Ascii.eqb NEWLINE NEWLINE) with true. done.
  - cbn [all_chars] in Hl. apply andb_prop in Hl as [Hc Hl].
    unfold not_newline in Hc. apply negb_true_iff in Hc.
    cbn [String.length] in Hmax.
    rewrite append_cons. cbn [read_loop_checked read_loop]. rewrite Hc.
    destruct (read_grow_checked_within rs allocs) as [k Hk].
    { intros Hg. apply int_fits_le. lia. }
    pose proof (read_grow_size rs Hle) as Hlt.
    assert (Hgrown : line_buffer_size (read_grow rs)
                     <= position rs + JSHELL_LINE_BUFFER_SIZE).
    { unfold read_grow.
      destruct (line_buffer_size rs <=? position rs) eqn:E;
        [apply Nat.leb_le in E | apply Nat.leb_gt in E];
        cbn [line_buffer_size]; lia. }
    rewrite Hk. cbn [mbind checked_bind fst snd].
    rewrite position_read_grow.
    rewrite (proj2 (Nat.leb_gt _ _) Hlt).
    rewrite (int_fits_le (position rs + 1)) by lia. cbn [negb].
    assert (Hpos : position (read_store c (read_grow rs)) = S (position rs)).
    { unfold position. cbn [read_store line_buffer].
      rewrite length_append, read_grow_buffer.
      change (String.length (String c "")) with 1. lia. }
    apply IH; try done.
    + rewrite Hpos. cbn [read_store line_buffer_size]. lia.
    + rewrite Hpos. cbn [read_store line_buffer_size]. lia.
    + rewrite Hpos. lia.
Qed.

End ReadLimits.

(** [jshell_read_line] returns the input up to the first newline, which
    it takes from the input without storing it, and at the end of the
    input what is there, when the line is short enough for the [int]
    variables and every allocation succeeds; it is in [raise_error] when
    the first allocation fails. *)
Theorem read_line_first_line (alloc_ok : nat -> bool) (l rest : string) :
  all_chars not_newline l = true ->
  ((forall k, alloc_ok k = true) ->
   (Z.of_nat (String.length l + JSHELL_LINE_BUFFER_SIZE) <= INT_MAX)%Z ->
   jshell_read_line_checked alloc_ok (l +:+ String NEWLINE rest)
   = Returns (l, rest)
   /\ jshell_read_line_checked alloc_ok l = Returns (l, ""))
  /\ (alloc_ok 0 = false ->
      jshell_read_line_checked alloc_ok (l +:+ String NEWLINE rest)
      = RaisesError "Failed allocation of `line_buffer`.").
Proof.
  intros Hl. split.
  - intros Halloc Hmax. unfold jshell_read_line_checked. rewrite Halloc.
    pose proof (read_loop_first_line l rest Hl) as [H1 H2].
    unfold jshell_read_line in H1, H2. split.
    + rewrite (read_loop_checked_within alloc_ok Halloc l); try done.
      * cbn [mbind checked_bind].
        destruct (read_loop _ read_init) as [rs' rest']. cbn [fst snd].
        by injection H1 as -> ->.
      * right. by eexists.
      * cbn. lia.
    + rewrite <- (append_nil_r l) at 1.
      rewrite (read_loop_checked_within alloc_ok Halloc l); try done.
      * cbn [mbind checked_bind]. rewrite append_nil_r.
        destruct (read_loop l read_init) as [rs' rest']. cbn [fst snd].
        by injection H2 as -> ->.
      * by left.
      * cbn. lia.
  - intros Hfail. unfold jshell_read_line_checked. by rewrite Hfail.
Qed.

Lemma read_line_first_line_witness :
  jshell_read_line_checked (fun _ => true) ("ls -l" +:+ String NEWLINE "exit")
  = Returns ("ls -l", "exit")
  /\ jshell_read_line_checked (fun _ => true) "ls -l" = Returns ("ls -l", "").
Proof.
  apply (proj1 (read_line_first_line (fun _ => true) "ls -l" "exit" eq_refl)).
  - reflexivity.
  - vm_compute. discriminate.
Defined.

(** Whenever [jshell_read_line] returns, it has stored nothing outside
    [line_buffer]: the [realloc] that makes room comes before every store,
    the one of the terminating NUL too; the stores fill the cells 0 to the
    length of the line, once each; the capacity is in the range of [int];
    and the line and the input left are those of [jshell_read_line] as the
    loop of the shell uses it. *)
Theorem read_line_bounds (alloc_ok : nat -> bool) (stdin : string)
    (rs : read_state) (rest : string) :
  read_loop_checked alloc_ok stdin read_init 1 = Returns (rs, rest) ->
  (line_buffer rs, rest) = jshell_read_line stdin
  /\ Forall (fun s => s.1 < s.2) (line_stores rs)
  /\ (line_stores rs).*1 = seq 0 (S (String.length (line_buffer rs)))
  /\ int_fits (line_buffer_size rs) = true.
Proof.
  intros Hrun.
  apply read_loop_checked_returns in Hrun as [Hr Hfit]; [| reflexivity].
  destruct (read_loop_stores stdin read_init) as [Hb Hlog];
    [cbn; lia | done | done |].
  unfold jshell_read_line. rewrite <- Hr in Hb, Hlog |- *.
  by repeat split.
Qed.

Lemma read_line_bounds_witness :
  read_loop_checked (fun _ => true) "ls" read_init 1
  = Returns (read_loop "ls" read_init)
  /\ Forall (fun s => s.1 < s.2) (line_stores (read_loop "ls" read_init).1).
Proof.
  split; [reflexivity |].
  exact (proj1 (proj2 (read_line_bounds (fun _ => true) "ls"
    (read_loop "ls" read_init).1 (read_loop "ls" read_init).2 eq_refl))).
Defined.

(** ** The status that [jshell_exec] returns *)

Lemma exec_command_cases (arg0 : string) (rest : list string) :
  exec_command (arg0 :: rest)
  = if String.eqb arg0 "cd" then jshell_cd (arg0 :: rest)
    else if String.eqb arg0 "help" then jshell_help (arg0 :: rest)
    else if String.eqb arg0 "exit" then jshell_exit (arg0 :: rest)
    else jshell_run (arg0 :: rest).
Proof.
  unfold exec_command. cbn.
  by destruct (String.eqb arg0 "cd"), (String.eqb arg0 "help"),
    (String.eqb arg0 "exit").
Qed.

Lemma jshell_run_code (args : list string) (p p' : proc) (v : Z) :
  jshell_run args p = (Ret v, p') -> v = JSHELL_SUCCESS.
Proof.
  unfold jshell_run, mbind, M_bind, fork, execvp, wait_child, when, perror,
    emit, exit, mret, M_ret.
  intros H. repeat case_match; by simplify_eq.
Qed.

Lemma jshell_cd_code (args : list string) (p p' : proc) (v : Z) :
  jshell_cd args p = (Ret v, p') -> v = JSHELL_SUCCESS.
Proof.
  unfold jshell_cd, raise_error, mbind, M_bind, chdir, when, perror,
    fprintf_stderr, emit, exit, mret, M_ret.
  intros H. repeat case_match; by simplify_eq.
Qed.

Lemma jshell_help_code (args : list string) (p p' : proc) (v : Z) :
  jshell_help args p = (Ret v, p') -> v = JSHELL_SUCCESS.
Proof. cbv. by intros [= <- _]. Qed.

Lemma jshell_exec_pipe_code (left_args right_args : list slot) (p p' : proc)
    (v : Z) :
  jshell_exec_pipe left_args right_args p = (Ret v, p') ->
  v = JSHELL_SUCCESS \/ v = JSHELL_FAILED.
Proof.
  unfold jshell_exec_pipe, mbind, M_bind, pipe, fork, close, dup2, execvp,
    wait_child, when, perror, fprintf_stderr, emit, exit, mret, M_ret.
  intros H. repeat case_match; simplify_eq; auto.
Qed.

Lemma exec_at_pipe_code (args : list string) (arg : string) (i : nat)
    (p p' : proc) (v : Z) :
  exec_at_pipe args arg i p = (Ret v, p') ->
  v = JSHELL_SUCCESS \/ v = JSHELL_FAILED.
Proof.
  unfold exec_at_pipe, jshell_pipe.
  destruct (_ || _); [by intros [= <- _]; right |].
  destruct (bool_decide _); [by intros [= <- _]; right |].
  destruct (pipe_split args) as [[l r] |]; [| by intros [= <- _]; right].
  apply jshell_exec_pipe_code.
Qed.

Lemma jshell_exec_codes (args : list string) (p p' : proc) (v : Z) :
  jshell_exec args p = (Ret v, p') ->
  (v = CONTINUE \/ v = FAILED)
  \/ (v = EXIT /\ p' = p /\ exists rest, args = "exit" :: rest /\ no_pipe rest).
Proof.
  destruct args as [|arg0 rest]; [intros [= <- _]; auto |].
  destruct (first_pipe_cases (arg0 :: rest))
    as [Hno | (l & arg & r & Hargs & Hl & Harg)].
  - rewrite jshell_exec_no_pipe, exec_command_cases by done.
    destruct (String.eqb arg0 "cd"); [intros ->%jshell_cd_code; auto |].
    destruct (String.eqb arg0 "help"); [intros ->%jshell_help_code; auto |].
    destruct (String.eqb_spec arg0 "exit") as [-> | _];
      [| intros ->%jshell_run_code; auto].
    intros [= <- <-]. right. split; [done |]. split; [done |]. exists rest.
    split; [done |]. by inversion Hno.
  - rewrite Hargs, jshell_exec_first_pipe by done.
    intros H%exec_at_pipe_code. left. destruct H; auto.
Qed.

(** [jshell_exec] returns [CONTINUE], [FAILED] or [EXIT], and [EXIT],
    the one status that ends [jshell_loop], exactly when the first token is
    "exit" and no token begins with '|': not for "exit" inside a pipeline,
    and for no other command. *)
Theorem exec_status (args : list string) (p : proc) :
  (forall v p', jshell_exec args p = (Ret v, p') ->
     v = CONTINUE \/ v = FAILED \/ v = EXIT)
  /\ ((exists p', jshell_exec args p = (Ret EXIT, p'))
      <-> exists rest, args = "exit" :: rest /\ no_pipe rest).
Proof.
  split.
  - intros v p' H.
    destruct (jshell_exec_codes _ _ _ _ H) as [[-> | ->] | [-> _]]; auto.
  - split.
    + intros [p' H].
      by destruct (jshell_exec_codes _ _ _ _ H) as [[[=] | [=]] | (_ & _ & Hex)].
    + intros (rest & -> & Hno). exists p.
      rewrite jshell_exec_no_pipe; [done | done |].
      constructor; [done | done].
Qed.

Lemma exec_status_witness :
  exists p', jshell_exec ["exit"; "now"] (shell os_bare) = (Ret EXIT, p').
Proof.
  apply (proj2 (proj2 (exec_status ["exit"; "now"] (shell os_bare)))).
  exists ["now"]. split; [reflexivity | repeat constructor].
Defined.

(** ** Builtins run in the shell itself *)

Lemma trace_log (e : event) (p : proc) : trace (log e p) = trace p ++ [e].
Proof. done. Qed.

(** For a command whose first token names a builtin and in which no token
    begins with '|', [jshell_exec] creates no process and no pipe and
    leaves the descriptors as they are; it only writes, and for "cd" calls
    [chdir]. *)
Theorem builtins_in_shell (arg0 : string) (rest : list string) (p : proc) :
  arg0 ∈ builtin_names -> no_pipe rest ->
  exists t,
    trace (jshell_exec (arg0 :: rest) p).2 = trace p ++ t
    /\ existsb is_spawn t = false
    /\ fds (jshell_exec (arg0 :: rest) p).2 = fds p
    /\ sys (jshell_exec (arg0 :: rest) p).2 = sys p.
Proof.
  intros Hin Hno.
  assert (Hcases : arg0 = "cd" \/ arg0 = "help" \/ arg0 = "exit").
  { apply list_elem_of_In in Hin. simpl in Hin. intuition. }
  assert (Hall : no_pipe (arg0 :: rest)).
  { constructor; [| done]. by destruct Hcases as [-> | [-> | ->]]. }
  rewrite jshell_exec_no_pipe, exec_command_cases by done.
  destruct Hcases as [-> | [-> | ->]]; cbn [String.eqb Ascii.eqb Bool.eqb].
  - unfold jshell_cd, raise_error, mbind, M_bind, chdir, when, perror,
      fprintf_stderr, emit, exit, mret, M_ret.
    destruct rest as [|dir rest]; cbn [lookup list_lookup].
    + cbn [snd]. eexists [_]. by repeat split.
    + destruct (negb _); cbn [snd fst].
      * eexists [_; _]. rewrite !trace_log, <- app_assoc. by repeat split.
      * eexists [_]. by repeat split.
  - eexists. cbv [jshell_help mbind M_bind printf emit print_names take
      jshell_num_builtins builtin_names length mret M_ret snd log trace fds sys].
    rewrite <- !app_assoc. cbn [app]. by repeat split.
  - exists []. cbn. by rewrite app_nil_r.
Qed.

Lemma builtins_in_shell_witness :
  exists t,
    trace (jshell_exec ["cd"; "/tmp"] (shell os_parent)).2
    = trace (shell os_parent) ++ t
    /\ existsb is_spawn t = false
    /\ fds (jshell_exec ["cd"; "/tmp"] (shell os_parent)).2 = fds (shell os_parent)
    /\ sys (jshell_exec ["cd"; "/tmp"] (shell os_parent)).2 = sys (shell os_parent).
Proof.
  apply builtins_in_shell; [| repeat constructor].
  apply list_elem_of_In. left. reflexivity.
Defined.

(** ** Setting up the pipeline *)

(** When [jshell_exec_pipe] cannot set the pipeline up it reports and
    returns [FAILED]: without any [fork] when [pipe] fails; when the first
    [fork] fails, with both descriptors of the pipe left open in the shell;
    when the second [fork] fails, with both descriptors left open and the
    first child never waited for. *)
Theorem pipeline_setup_failures (left_args right_args : list slot) (p : proc) :
  (pipe_fds (sys p) = None ->
   jshell_exec_pipe left_args right_args p
   = (Ret FAILED, log pipe_diagnostic (log (Pipe None) p)))
  /\ (forall pipefd0 pipefd1 p1 rets,
        pipe_fds (sys p) = Some (pipefd0, pipefd1) ->
        fork_rets (sys p) = p1 :: rets -> (p1 < 0)%Z ->
        exists p',
          jshell_exec_pipe left_args right_args p = (Ret FAILED, p')
          /\ trace p'
             = trace p ++ [Pipe (Some (pipefd0, pipefd1)); Fork p1; fork_diagnostic]
          /\ fds p' = <[pipefd1 := PipeWrite]> (<[pipefd0 := PipeRead]> (fds p)))
  /\ (forall pipefd0 pipefd1 p1 p2 rets,
        pipe_fds (sys p) = Some (pipefd0, pipefd1) ->
        fork_rets (sys p) = p1 :: p2 :: rets -> (0 < p1)%Z -> (p2 < 0)%Z ->
        exists p',
          jshell_exec_pipe left_args right_args p = (Ret FAILED, p')
          /\ trace p'
             = trace p ++ [Pipe (Some (pipefd0, pipefd1)); Fork p1; Fork p2;
                           fork_diagnostic]
          /\ fds p' = <[pipefd1 := PipeWrite]> (<[pipefd0 := PipeRead]> (fds p))).
Proof.
  split; [| split].
  - intros Hpipe. unfold jshell_exec_pipe, mbind, M_bind, pipe.
    by rewrite Hpipe.
  - intros pipefd0 pipefd1 p1 rets Hpipe Hfork Hp1.
    unfold jshell_exec_pipe, mbind, M_bind, pipe. rewrite Hpipe.
    unfold fork. cbn [sys]. rewrite Hfork.
    assert ((p1 <? 0)%Z = true) as -> by lia.
    eexists. split; [done |]. cbn [fprintf_stderr emit log trace fds].
    split; [| done]. by rewrite <- !app_assoc.
  - intros pipefd0 pipefd1 p1 p2 rets Hpipe Hfork Hp1 Hp2.
    unfold jshell_exec_pipe, mbind, M_bind, pipe. rewrite Hpipe.
    unfold fork at 1. cbn [sys]. rewrite Hfork.
    assert ((p1 <? 0)%Z = false) as -> by lia.
    assert ((p1 =? 0)%Z = false) as -> by lia.
    unfold fork. cbn [sys fork_rets].
    assert ((p2 <? 0)%Z = true) as -> by lia.
    eexists. split; [done |]. cbn [fprintf_stderr emit log trace fds].
    split; [| done]. by rewrite <- !app_assoc.
Qed.

Lemma pipeline_setup_failures_witness :
  jshell_exec_pipe (array_of ["ls"]) (array_of ["wc"]) (shell os_bare)
  = (Ret FAILED, log pipe_diagnostic (log (Pipe None) (shell os_bare))).
Proof.
  apply (proj1 (pipeline_setup_failures _ _ (shell os_bare))). reflexivity.
Defined.

(** The first child.  When [pipe] gives two fresh descriptors, neither of
    them the standard output, the child that runs the left command ends up
    with the descriptors of the shell, except that its standard output is
    the write end of the pipe; it has closed both descriptors of the pipe,
    and then runs [execvp] on the command, or reports and exits when that
    fails. *)
Theorem left_child_wiring (prog : string) (args : list string)
    (right_args : list slot) (p : proc) (pipefd0 pipefd1 : nat) (rets : list Z) :
  pipe_fds (sys p) = Some (pipefd0, pipefd1) ->
  fork_rets (sys p) = 0%Z :: rets ->
  fds p !! pipefd0 = None -> fds p !! pipefd1 = None ->
  pipefd0 <> pipefd1 -> pipefd0 <> STDOUT_FILENO -> pipefd1 <> STDOUT_FILENO ->
  exists p',
    jshell_exec_pipe (array_of (prog :: args)) right_args p
    = (if execvp_ok (sys p) prog then Replaced else Exit EXIT_FAILURE, p')
    /\ fds p' = <[STDOUT_FILENO := PipeWrite]> (fds p)
    /\ trace p'
       = trace p ++ [Pipe (Some (pipefd0, pipefd1)); Fork 0;
                     Close pipefd0; Dup2 pipefd1 STDOUT_FILENO; Close pipefd1;
                     Execvp (Ptr prog) (array_of (prog :: args))]
           ++ (if execvp_ok (sys p) prog then []
               else [Perror ("Failed execution of '" +:+ prog +:+ "'")]).
Proof.
  intros Hpipe Hfork Hfd0 Hfd1 Hne H0 H1.
  unfold jshell_exec_pipe, mbind, M_bind, pipe. rewrite Hpipe.
  unfold fork. cbn [sys]. rewrite Hfork. cbn [Z.ltb Z.eqb Z.compare].
  unfold close, dup2, execvp. cbn [fds trace sys execvp_ok].
  change (cell (array_of (prog :: args)) 0) with (Ptr prog).
  rewrite argv_of_array_of. cbn [str].
  assert (Hfds :
    delete pipefd1
      (match delete pipefd0 (<[pipefd1:=PipeWrite]> (<[pipefd0:=PipeRead]> (fds p)))
             !! pipefd1 with
       | Some f => <[STDOUT_FILENO:=f]>
                     (delete pipefd0 (<[pipefd1:=PipeWrite]> (<[pipefd0:=PipeRead]> (fds p))))
       | None => delete pipefd0 (<[pipefd1:=PipeWrite]> (<[pipefd0:=PipeRead]> (fds p)))
       end)
    = <[STDOUT_FILENO := PipeWrite]> (fds p)).
  { rewrite lookup_delete_ne, lookup_insert_eq by done.
    apply map_eq. intros i.
    destruct (decide (i = pipefd1)) as [-> | Hi1].
    { by rewrite lookup_delete_eq, lookup_insert_ne, Hfd1. }
    rewrite lookup_delete_ne by done.
    destruct (decide (i = STDOUT_FILENO)) as [-> | Hi].
    { by rewrite !lookup_insert_eq. }
    rewrite !(lookup_insert_ne _ STDOUT_FILENO) by done.
    destruct (decide (i = pipefd0)) as [-> | Hi0].
    { by rewrite lookup_delete_eq, Hfd0. }
    by rewrite lookup_delete_ne, !lookup_insert_ne. }
  destruct (execvp_ok (sys p) prog).
  - eexists. split; [done |]. cbn [log fds trace]. split; [done |].
    by rewrite <- !app_assoc.
  - eexists. split; [done |]. cbn [when perror emit log fds trace Z.ltb Z.compare].
    split; [done |]. by rewrite <- !app_assoc.
Qed.

Lemma left_child_wiring_witness :
  exists p',
    jshell_exec_pipe (array_of ["ls"; "-l"]) (array_of ["wc"])
      (shell (Os (Some (3, 4)) [0%Z] (fun _ => []) (fun _ => 0%Z) (fun _ => true)))
    = (Replaced, p')
    /\ fds p' = <[STDOUT_FILENO := PipeWrite]>
                  (fds (shell (Os (Some (3, 4)) [0%Z] (fun _ => []) (fun _ => 0%Z)
                                (fun _ => true))))
    /\ trace p'
       = [Pipe (Some (3, 4)); Fork 0; Close 3; Dup2 4 STDOUT_FILENO; Close 4;
          Execvp (Ptr "ls") (array_of ["ls"; "-l"])].
Proof.
  exact (left_child_wiring "ls" ["-l"] (array_of ["wc"])
    (shell (Os (Some (3, 4)) [0%Z] (fun _ => []) (fun _ => 0%Z) (fun _ => true)))
    3 4 [] eq_refl eq_refl eq_refl eq_refl
    ltac:(discriminate) ltac:(discriminate) ltac:(discriminate)).
Defined.

(** The second child, in the same way: its standard input is the read
    end of the pipe and both descriptors of the pipe are closed when it
    runs [execvp] on the right command. *)
Theorem right_child_wiring (prog : string) (args : list string)
    (left_args : list slot) (p : proc) (pipefd0 pipefd1 : nat) (p1 : Z)
    (rets : list Z) :
  pipe_fds (sys p) = Some (pipefd0, pipefd1) ->
  fork_rets (sys p) = p1 :: 0%Z :: rets -> (0 < p1)%Z ->
  fds p !! pipefd0 = None -> fds p !! pipefd1 = None ->
  pipefd0 <> pipefd1 -> pipefd0 <> STDIN_FILENO -> pipefd1 <> STDIN_FILENO ->
  exists p',
    jshell_exec_pipe left_args (array_of (prog :: args)) p
    = (if execvp_ok (sys p) prog then Replaced else Exit EXIT_FAILURE, p')
    /\ fds p' = <[STDIN_FILENO := PipeRead]> (fds p)
    /\ trace p'
       = trace p ++ [Pipe (Some (pipefd0, pipefd1)); Fork p1; Fork 0;
                     Close pipefd1; Dup2 pipefd0 STDIN_FILENO; Close pipefd0;
                     Execvp (Ptr prog) (array_of (prog :: args))]
           ++ (if execvp_ok (sys p) prog then []
               else [Perror ("Failed execution of '" +:+ prog +:+ "'")]).
Proof.
  intros Hpipe Hfork Hp1 Hfd0 Hfd1 Hne H0 H1.
  unfold jshell_exec_pipe, mbind, M_bind, pipe. rewrite Hpipe.
  unfold fork at 1. cbn [sys]. rewrite Hfork.
  assert ((p1 <? 0)%Z = false) as -> by lia.
  assert ((p1 =? 0)%Z = false) as -> by lia.
  unfold fork. cbn [sys fork_rets Z.ltb Z.eqb Z.compare].
  unfold close, dup2, execvp. cbn [fds trace sys execvp_ok].
  change (cell (array_of (prog :: args)) 0) with (Ptr prog).
  rewrite argv_of_array_of. cbn [str].
  assert (Hfds :
    delete pipefd0
      (match delete pipefd1 (<[pipefd1:=PipeWrite]> (<[pipefd0:=PipeRead]> (fds p)))
             !! pipefd0 with
       | Some f => <[STDIN_FILENO:=f]>
                     (delete pipefd1 (<[pipefd1:=PipeWrite]> (<[pipefd0:=PipeRead]> (fds p))))
       | None => delete pipefd1 (<[pipefd1:=PipeWrite]> (<[pipefd0:=PipeRead]> (fds p)))
       end)
    = <[STDIN_FILENO := PipeRead]> (fds p)).
  { rewrite lookup_delete_ne, lookup_insert_ne, lookup_insert_eq by done.
    apply map_eq. intros i.
    destruct (decide (i = pipefd0)) as [-> | Hi0].
    { by rewrite lookup_delete_eq, lookup_insert_ne, Hfd0. }
    rewrite lookup_delete_ne by done.
    destruct (decide (i = STDIN_FILENO)) as [-> | Hi].
    { by rewrite !lookup_insert_eq. }
    rewrite !(lookup_insert_ne _ STDIN_FILENO) by done.
    destruct (decide (i = pipefd1)) as [-> | Hi1].
    { by rewrite lookup_delete_eq, Hfd1. }
    by rewrite lookup_delete_ne, !lookup_insert_ne. }
  destruct (execvp_ok (sys p) prog).
  - eexists. split; [done |]. cbn [log fds trace]. split; [done |].
    by rewrite <- !app_assoc.
  - eexists. split; [done |]. cbn [when perror emit log fds trace Z.ltb Z.compare].
    split; [done |]. by rewrite <- !app_assoc.
Qed.

Lemma right_child_wiring_witness :
  exists p',
    jshell_exec_pipe (array_of ["ls"]) (array_of ["wc"; "-l"]) (shell os_right_child)
    = (Replaced, p')
    /\ fds p' = <[STDIN_FILENO := PipeRead]> (fds (shell os_right_child))
    /\ trace p'
       = [Pipe (Some (3, 4)); Fork 100; Fork 0; Close 4; Dup2 3 STDIN_FILENO;
          Close 3; Execvp (Ptr "wc") (array_of ["wc"; "-l"])].
Proof.
  exact (right_child_wiring "wc" ["-l"] (array_of ["ls"]) (shell os_right_child)
    3 4 100 [] eq_refl eq_refl eq_refl eq_refl eq_refl
    ltac:(discriminate) ltac:(discriminate) ltac:(discriminate)).
Defined.

(** ** The cells of the two arrays *)

Lemma last_pipe_cases (args : list string) :
  no_pipe args
  \/ exists l sep r, args = l ++ sep :: r /\ first_is_pipe sep = true /\ no_pipe r.
Proof.
  induction args as [|a args IH]; [left; constructor |].
  destruct IH as [Hno | (l & sep & r & -> & Hsep & Hr)].
  - destruct (first_is_pipe a) eqn:Ha.
    + right. by exists [], a, args.
    + left. by constructor.
  - right. by exists (a :: l), sep, r.
Qed.

Lemma argv_of_cells (l : list string) (tail : list slot) :
  argv_of ((cell_of <$> l) ++ tail)
  = if bool_decide (no_pipe l) then (fun r => l ++ r) <$> argv_of tail else None.
Proof.
  induction l as [|a l IH]; cbn [fmap list_fmap app].
  - rewrite bool_decide_eq_true_2 by constructor. by destruct (argv_of tail).
  - unfold cell_of at 1. destruct (first_is_pipe a) eqn:Ha.
    + cbn [argv_of]. rewrite bool_decide_eq_false_2; [done |].
      intros H. inversion H. congruence.
    + cbn [argv_of]. rewrite IH. destruct (decide (no_pipe l)) as [Hl | Hl].
      * rewrite !bool_decide_eq_true_2 by (done || by constructor).
        by destruct (argv_of tail).
      * rewrite !bool_decide_eq_false_2; [done | | done].
        intros H. by inversion H.
Qed.

(** What [jshell_pipe] builds, for every token sequence.  It returns 1
    without building anything exactly when no token after the first begins
    with '|'.  Otherwise the boundary is the last such token: the right
    array is the tokens after it, and the left array has one cell for each
    token before it and the NULL, where the cell of every earlier token that
    begins with '|' is never written; so the left array is a well-formed
    argument vector exactly when there is no such earlier token. *)
Theorem pipe_split_cells (arg0 : string) (rest : list string) :
  (pipe_split (arg0 :: rest) = None <-> no_pipe rest)
  /\ (forall l sep r,
        arg0 :: rest = l ++ sep :: r -> l <> [] ->
        first_is_pipe sep = true -> no_pipe r ->
        pipe_split (arg0 :: rest) = Some ((cell_of <$> l) ++ [Null], array_of r)
        /\ length ((cell_of <$> l) ++ [Null]) = S (length l)
        /\ argv_of (array_of r) = Some r
        /\ (argv_of ((cell_of <$> l) ++ [Null]) = Some l <-> no_pipe l)
        /\ (~ no_pipe l -> argv_of ((cell_of <$> l) ++ [Null]) = None)).
Proof.
  split.
  - split.
    + intros Hnone. destruct (last_pipe_cases rest)
        as [Hno | (l & sep & r & -> & Hsep & Hr)]; [done |].
      change (arg0 :: l ++ sep :: r) with ((arg0 :: l) ++ sep :: r) in Hnone.
      by rewrite pipe_split_last in Hnone.
    + intros Hno. unfold pipe_split. cbn [drop].
      by rewrite pipe_scan_no_pipe.
  - intros l sep r Hargs Hl Hsep Hr. rewrite Hargs.
    split; [by apply pipe_split_last |].
    split; [rewrite length_app, length_fmap; simpl; lia |].
    split; [apply argv_of_array_of |].
    rewrite argv_of_cells. cbn [argv_of fmap option_fmap option_map].
    rewrite app_nil_r. split.
    + split.
      * intros H. destruct (decide (no_pipe l)); [done |].
        by rewrite bool_decide_eq_false_2 in H.
      * intros H. by rewrite bool_decide_eq_true_2.
    + intros H. by rewrite bool_decide_eq_false_2.
Qed.

Lemma pipe_split_cells_witness :
  pipe_split ["a"; "|"; "b"; "|x"; "c"]
  = Some ([Ptr "a"; Uninit; Ptr "b"; Null], [Ptr "c"; Null]).
Proof.
  refine (proj1 (proj2 (pipe_split_cells "a" ["|"; "b"; "|x"; "c"])
    ["a"; "|"; "b"] "|x" ["c"] eq_refl _ eq_refl _)).
  - discriminate.
  - repeat constructor.
Defined.

(** ** The loop *)

Lemma jshell_line_exit (whole : string) (p p' : proc) :
  jshell_line whole p = (Ret EXIT, p') ->
  p' = p /\ exists toks, split_line whole = Val ("exit" :: toks) /\ no_pipe toks.
Proof.
  unfold jshell_line, mbind, M_bind, run_res.
  destruct (split_line whole) as [args | message]; [| done].
  cbn [mret M_ret]. intros H.
  destruct (jshell_exec_codes _ _ _ _ H) as [[[=] | [=]] | (_ & -> & toks & -> & Hno)].
  split; [done |]. by exists toks.
Qed.

(** [jshell_loop] returns only after a line that says "exit": when it
    has returned, one of the lines it has read has "exit" as its first
    token and no token that begins with '|', and the input left is what
    follows that line. *)
Theorem loop_ends_at_exit (whoami : proc -> identity) (fuel : nat)
    (stdin : string) (p p' : proc) (rest : string) :
  jshell_loop whoami fuel stdin p = Some (Ret (), p', rest) ->
  exists n toks,
    n < fuel
    /\ split_line (jshell_read_line (skip_lines n stdin)).1 = Val ("exit" :: toks)
    /\ no_pipe toks
    /\ rest = skip_lines (S n) stdin.
Proof.
  revert stdin p. induction fuel as [|fuel IH]; intros stdin p; [done |].
  cbn [jshell_loop].
  destruct (show_prompt whoami p) as [[[] | | | |] p1]; try done.
  destruct (jshell_read_line stdin) as [whole stdin'] eqn:Hread.
  destruct (jshell_line whole p1) as [[v | | | |] p2] eqn:Hline; try done.
  destruct (Z.eqb_spec v JSHELL_EXIT_CODE) as [-> | Hv]; cbn [negb].
  - intros [= <- <-]. apply jshell_line_exit in Hline as (_ & toks & Hs & Hno).
    exists 0, toks. cbn [skip_lines]. rewrite Hread. cbn [fst snd].
    split; [lia |]. done.
  - intros (n & toks & Hn & Hs & Hno & Hrest)%IH.
    exists (S n), toks. cbn [skip_lines] in *. rewrite Hread. cbn [snd].
    split; [lia |]. done.
Qed.

Lemma loop_ends_at_exit_witness :
  exists n toks,
    n < 5
    /\ split_line
         (jshell_read_line
            (skip_lines n ("| x" +:+ String NEWLINE ("exit" +:+ String NEWLINE "ls")))).1
       = Val ("exit" :: toks)
    /\ no_pipe toks
    /\ "ls" = skip_lines (S n) ("| x" +:+ String NEWLINE ("exit" +:+ String NEWLINE "ls")).
Proof.
  refine (loop_ends_at_exit
    (fun _ => Identity (Some "/") (Some "user") (Some "host")) 5
    ("| x" +:+ String NEWLINE ("exit" +:+ String NEWLINE "ls"))
    (shell os_bare) _ "ls" _).
  reflexivity.
Defined.

(** At the end of the input the loop does not stop: [jshell_read_line]
    returns the empty line, [jshell_exec] returns [CONTINUE] for it, and
    the next turn begins; whatever the number of turns, the loop is still
    running after them. *)
Theorem loop_at_end_of_input (whoami : proc -> identity) :
  (forall q, exists q', show_prompt whoami q = (Ret (), q')) ->
  forall fuel p, jshell_loop whoami fuel "" p = None.
Proof.
  intros Hprompt fuel. induction fuel as [|fuel IH]; intros p; [done |].
  cbn [jshell_loop]. destruct (Hprompt p) as [p1 ->].
  change (jshell_read_line "") with ("", ""). cbv iota beta.
  change (jshell_line "" p1) with (Ret JSHELL_SUCCESS, p1).
  cbn [Z.eqb negb JSHELL_SUCCESS JSHELL_EXIT_CODE]. apply IH.
Qed.

Lemma loop_at_end_of_input_witness :
  jshell_loop (fun _ => Identity (Some "/") (Some "user") (Some "host")) 100 ""
    (shell os_bare)
  = None.
Proof.
  apply loop_at_end_of_input. intros q. eexists. reflexivity.
Defined.



(** ** Waiting, once more *)

(** A child that only ever stops keeps the shell waiting: [WUNTRACED]
    makes [waitpid] report the stops, the loop goes round for each, and with
    no further status [waitpid] does not return. *)
Theorem wait_child_stopped (pid : Z) (sigs : list Z) (p : proc) :
  wait_statuses (sys p) pid = WStopped <$> sigs ->
  exists p',
    wait_child pid p = (Blocked, p')
    /\ trace p' = trace p ++ (Waitpid pid <$> (WStopped <$> sigs))
    /\ fds p' = fds p.
Proof.
  unfold wait_child. intros ->. revert p.
  induction sigs as [|sig sigs IH]; intros p; cbn [fmap list_fmap wait_loop].
  - exists p. by rewrite app_nil_r.
  - cbn [WIFEXITED WIFSIGNALED negb andb].
    destruct (IH (log (Waitpid pid (WStopped sig))
                    (set_wait_statuses pid (WStopped <$> sigs) p)))
      as (p' & Hrun & Htrace & Hfds).
    exists p'. split; [done |]. split; [| done].
    rewrite Htrace. cbn [log trace set_wait_statuses]. by rewrite <- app_assoc.
Qed.

Lemma wait_child_stopped_witness :
  exists p',
    wait_child 100
      (shell (Os None [] (fun _ => [WStopped 19; WStopped 20]) (fun _ => 0%Z)
                (fun _ => true)))
    = (Blocked, p')
    /\ trace p' = [Waitpid 100 (WStopped 19); Waitpid 100 (WStopped 20)]
    /\ fds p' = fds (shell os_bare).
Proof.
  exact (wait_child_stopped 100 [19%Z; 20%Z]
    (shell (Os None [] (fun _ => [WStopped 19; WStopped 20]) (fun _ => 0%Z)
              (fun _ => true))) eq_refl).
Defined.

Lemma wait_loop_returns_others (pid : Z) (stops : list Z) (status : wstatus)
    (more : list wstatus) (p : proc) :
  WIFEXITED status || WIFSIGNALED status = true ->
  exists p',
    wait_loop pid ((WStopped <$> stops) ++ status :: more) p = (Ret (), p')
    /\ fds p' = fds p
    /\ trace p'
       = trace p ++ (Waitpid pid <$> ((WStopped <$> stops) ++ [status]))
    /\ (forall pid', pid' <> pid ->
          wait_statuses (sys p') pid' = wait_statuses (sys p) pid').
Proof.
  intros Hterm. revert p.
  induction stops as [|sig stops IH]; intros p; cbn [fmap list_fmap app wait_loop].
  - assert (negb (WIFEXITED status) && negb (WIFSIGNALED status) = false) as ->.
    { by destruct status. }
    eexists. split; [done |]. split; [done |]. split; [done |].
    intros pid' Hne. cbn [log sys set_wait_statuses wait_statuses].
    by rewrite (proj2 (Z.eqb_neq pid' pid) Hne).
  - cbn [WIFEXITED WIFSIGNALED negb andb].
    destruct (IH (log (Waitpid pid (WStopped sig))
                    (set_wait_statuses pid ((WStopped <$> stops) ++ status :: more) p)))
      as (p' & Hrun & Hfds & Htrace & Hothers).
    exists p'. split; [done |]. split; [done |]. split.
    + rewrite Htrace. cbn [log trace set_wait_statuses]. by rewrite <- app_assoc.
    + intros pid' Hne. rewrite Hothers by done.
      cbn [log sys set_wait_statuses wait_statuses].
      by rewrite (proj2 (Z.eqb_neq pid' pid) Hne).
Qed.

(** The shell with both children: it waits for the first until it has
    exited or was killed, then for the second, and returns [CONTINUE]
    whatever the two statuses are. *)
Theorem pipeline_parent_waits (left_args right_args : list slot) (p : proc)
    (pipefd0 pipefd1 : nat) (p1 p2 : Z) (rets : list Z)
    (stops1 stops2 : list Z) (status1 status2 : wstatus)
    (more1 more2 : list wstatus) :
  pipe_fds (sys p) = Some (pipefd0, pipefd1) ->
  fork_rets (sys p) = p1 :: p2 :: rets ->
  (0 < p1)%Z -> (0 < p2)%Z -> p1 <> p2 ->
  wait_statuses (sys p) p1 = (WStopped <$> stops1) ++ status1 :: more1 ->
  wait_statuses (sys p) p2 = (WStopped <$> stops2) ++ status2 :: more2 ->
  WIFEXITED status1 || WIFSIGNALED status1 = true ->
  WIFEXITED status2 || WIFSIGNALED status2 = true ->
  exists p',
    jshell_exec_pipe left_args right_args p = (Ret CONTINUE, p')
    /\ trace p'
       = trace p ++ [Pipe (Some (pipefd0, pipefd1)); Fork p1; Fork p2]
           ++ (Waitpid p1 <$> ((WStopped <$> stops1) ++ [status1]))
           ++ (Waitpid p2 <$> ((WStopped <$> stops2) ++ [status2])).
Proof.
  intros Hpipe Hfork Hp1 Hp2 Hne Hw1 Hw2 Ht1 Ht2.
  unfold jshell_exec_pipe, mbind, M_bind, pipe. rewrite Hpipe.
  unfold fork at 1. cbn [sys]. rewrite Hfork.
  assert ((p1 <? 0)%Z = false) as -> by lia.
  assert ((p1 =? 0)%Z = false) as -> by lia.
  unfold fork. cbn [sys fork_rets].
  assert ((p2 <? 0)%Z = false) as -> by lia.
  assert ((p2 =? 0)%Z = false) as -> by lia.
  unfold wait_child at 1. cbn [sys wait_statuses]. rewrite Hw1.
  match goal with
  | |- context [wait_loop p1 _ ?q] =>
    destruct (wait_loop_returns_others p1 stops1 status1 more1 q Ht1)
      as (q1 & -> & _ & Htrace1 & Hothers)
  end.
  unfold wait_child. rewrite Hothers by done. cbn [sys wait_statuses].
  rewrite Hw2.
  destruct (wait_loop_returns_others p2 stops2 status2 more2 q1 Ht2)
    as (q2 & -> & _ & Htrace2 & _).
  exists q2. split; [done |]. rewrite Htrace2, Htrace1. cbn [trace].
  rewrite <- !app_assoc. done.
Qed.

Lemma pipeline_parent_waits_witness :
  exists p',
    jshell_exec_pipe (array_of ["ls"]) (array_of ["wc"]) (shell os_parent)
    = (Ret CONTINUE, p')
    /\ trace p'
       = [Pipe (Some (3, 4)); Fork 100; Fork 101;
          Waitpid 100 (WStopped 19); Waitpid 100 (WExited 0);
          Waitpid 101 (WStopped 19); Waitpid 101 (WExited 0)].
Proof.
  exact (pipeline_parent_waits (array_of ["ls"]) (array_of ["wc"])
    (shell os_parent) 3 4 100 101 [] [19%Z] [19%Z] (WExited 0) (WExited 0) [] []
    eq_refl eq_refl eq_refl eq_refl ltac:(discriminate) eq_refl eq_refl
    eq_refl eq_refl).
Defined.

(** ** From the line to the command *)

Lemma jshell_line_checked_tokens (alloc_ok : nat -> bool) (whole : string)
    (args : list string) :
  split_line_checked alloc_ok whole = Returns args ->
  jshell_line_checked alloc_ok whole = jshell_exec args.
Proof. unfold jshell_line_checked. by intros ->. Qed.

Lemma split_line_checked_join (alloc_ok : nat -> bool) (ws : list string) :
  (forall k, alloc_ok k = true) ->
  Forall word ws ->
  Forall (fun w => String.length w < MAX_WORD_SIZE) ws ->
  leaves_room (length ws) ->
  (Z.of_nat (String.length (join_words ws) + TOKEN_BUFFER_SIZE) <= INT_MAX)%Z ->
  split_line_checked alloc_ok (join_words ws) = Returns ws.
Proof.
  intros Halloc Hws Hlen Hroom Hmax.
  destruct (split_loop_words ws split_init Hws eq_refl eq_refl)
    as (st' & Hrun & Htoks & Htok & Hq).
  cbn [split_init tokens app] in Htoks.
  pose proof (split_line_checked_tokens alloc_ok _ st' Halloc Hrun Htok Hq Hmax)
    as H.
  rewrite Htoks in H. by apply H.
Qed.

(** One turn of the loop on a line of words with single spaces between
    them, in a run within the limits: every word has fewer than
    [MAX_WORD_SIZE] characters, their number leaves a cell of [tokens] for
    the final NULL, the line is short enough for the [int] variables and
    every allocation succeeds.  Two commands with "|" between them, no
    other token beginning with '|', go to [jshell_exec_pipe] as the two
    argument vectors; a command whose first word is no builtin, with no
    token beginning with '|', goes to [jshell_run] with the words as they
    are; and a line of delimiters does nothing and returns [CONTINUE]. *)
Theorem line_dispatch (alloc_ok : nat -> bool) :
  (forall k, alloc_ok k = true) ->
  (forall l r,
     l <> [] -> r <> [] -> Forall word l -> Forall word r ->
     no_pipe l -> no_pipe r ->
     Forall (fun w => String.length w < MAX_WORD_SIZE) (l ++ r) ->
     leaves_room (length (l ++ JSHELL_PIPE :: r)) ->
     (Z.of_nat (String.length (join_words (l ++ JSHELL_PIPE :: r))
                + TOKEN_BUFFER_SIZE) <= INT_MAX)%Z ->
     jshell_line_checked alloc_ok (join_words (l ++ JSHELL_PIPE :: r))
     = jshell_exec_pipe (array_of l) (array_of r))
  /\ (forall arg0 rest,
        Forall word (arg0 :: rest) -> no_pipe (arg0 :: rest) ->
        arg0 ∉ builtin_names ->
        Forall (fun w => String.length w < MAX_WORD_SIZE) (arg0 :: rest) ->
        leaves_room (length (arg0 :: rest)) ->
        (Z.of_nat (String.length (join_words (arg0 :: rest))
                   + TOKEN_BUFFER_SIZE) <= INT_MAX)%Z ->
        jshell_line_checked alloc_ok (join_words (arg0 :: rest))
        = jshell_run (arg0 :: rest))
  /\ (forall line p,
        all_chars is_delimiter line = true ->
        (Z.of_nat (String.length line + TOKEN_BUFFER_SIZE) <= INT_MAX)%Z ->
        jshell_line_checked alloc_ok line p = (Ret CONTINUE, p)).
Proof.
  intros Halloc. split; [| split].
  - intros l r Hl Hr Hwl Hwr Hnl Hnr Hlen Hroom Hmax.
    rewrite (jshell_line_checked_tokens _ _ (l ++ JSHELL_PIPE :: r)).
    + by apply jshell_exec_pipeline.
    + apply split_line_checked_join; try done.
      * apply Forall_app. split; [done |].
        constructor; [| done]. split; [discriminate | reflexivity].
      * apply Forall_app in Hlen as [Hll Hlr]. apply Forall_app. split; [done |].
        constructor; [| done]. unfold MAX_WORD_SIZE. simpl. lia.
  - intros arg0 rest Hw Hno Hnot Hlen Hroom Hmax.
    rewrite (jshell_line_checked_tokens _ _ (arg0 :: rest))
      by (by apply split_line_checked_join).
    rewrite jshell_exec_no_pipe by done. by apply exec_command_external.
  - intros line p Hline Hmax.
    rewrite (jshell_line_checked_tokens _ _ []); [done |].
    apply (split_line_checked_tokens alloc_ok line (end_token split_init));
      try done.
    + by apply split_loop_delimiters.
    + by left.
Qed.

Lemma line_dispatch_witness :
  jshell_line_checked (fun _ => true) "ls -l | wc -l"
  = jshell_exec_pipe (array_of ["ls"; "-l"]) (array_of ["wc"; "-l"]).
Proof.
  apply (proj1 (line_dispatch (fun _ => true) ltac:(reflexivity))
           ["ls"; "-l"] ["wc"; "-l"]);
    try discriminate.
  - repeat constructor; discriminate.
  - repeat constructor; discriminate.
  - repeat constructor.
  - repeat constructor.
  - repeat constructor.
  - right. intros [m Hm]. vm_compute in Hm. destruct m; discriminate.
Defined.
